(** * The scan manager of bbot: event pipeline, dispatcher, completion
      detector and driver loop

    A shallow embedding of [bbot/scanner/manager.py] (class [ScanManager]).
    The methods of the class are definitions of the same name below
    ([_emit_event] is put together from its stages, [loop_until_finished]
    from its loop).  The manager and the scan
    it belongs to are one explicit [State]; a method is a computation in
    the monad [M], which threads that state, raises Python exceptions, and
    records the calls made to collaborators (the event's permit and
    completion signal, the statistics sink, the modules' queues and report
    hooks) in a chronological trace.

    What other threads do is given to a method as a list of observations:
    the polling loop of [_emit_event] consumes one [Poll] per iteration, the
    driver loop one [Tick] per iteration.  A computation that has used up
    its observations without leaving its loop is [Blocked].

    The definitions close with [init_events], the ranking of the status
    line, and the part of [main] in [bbot/cli.py] that selects the scan
    modules from the options of the command line. *)

From Stdlib Require Import ZArith List Bool Lia.
From stdpp Require Import base gmap sets list strings sorting.
Import ListNotations.

Open Scope string_scope.
Open Scope list_scope.
Open Scope Z_scope.

(** ** Exceptions *)

(** The exception classes the manager names, the [AttributeError] that
    reading a missing attribute raises, a generic [Exception]
    ([OtherException]), and [KeyboardInterrupt], which is a [BaseException]
    and so escapes every [except Exception] clause. *)
Inductive exn :=
  | ScanCancelledError
  | ValidationError
  | BrokenPipeError
  | RuntimeError
  | AttributeError
  | OtherException
  | KeyboardInterrupt.

(** [isinstance(e, Exception)] *)
Definition is_Exception (e : exn) : bool :=
  match e with KeyboardInterrupt => false | _ => true end.

(** [isinstance(e, RuntimeError)] *)
Definition is_RuntimeError (e : exn) : bool :=
  match e with RuntimeError => true | _ => false end.

(** ** Modules and events *)

(** The attributes of a module object that the manager reads.  [_type] and
    [suppress_dupes] are read with [getattr] and a default, so they may be
    absent ([None]). *)
Record ModuleInfo := {
  name : string;                    (* str(module) *)
  _type : option string;
  suppress_dupes : option bool;
  accept_dupes : bool;
  emit_graph_trail : bool;
}.

(** Modelled from the spec: the class [Event] is not part of the manager's
    file.  The intrinsic identity of an event (its [__hash__] and [__eq__])
    is the pair of its type and value; [source_id] is the identity of the
    causal parent. *)
Abbreviation EventId := (string * string)%type.

Record Event := {
  uid : nat;                        (* the Python object *)
  type : string;
  data : string;
  module : ModuleInfo;
  source_id : EventId;
  scope_distance : Z;
  tags : gset string;
  host : option string;
  _force_output : bool;
  _dummy : bool;
  _resolved_hosts : gset string;
}.

Definition event_id (e : Event) : EventId := (type e, data e).

Definition set_scope_distance (d : Z) (e : Event) : Event :=
  {| uid := uid e; type := type e; data := data e; module := module e;
     source_id := source_id e; scope_distance := d; tags := tags e;
     host := host e; _force_output := _force_output e; _dummy := _dummy e;
     _resolved_hosts := _resolved_hosts e |}.

Definition set_tags (t : gset string) (e : Event) : Event :=
  {| uid := uid e; type := type e; data := data e; module := module e;
     source_id := source_id e; scope_distance := scope_distance e; tags := t;
     host := host e; _force_output := _force_output e; _dummy := _dummy e;
     _resolved_hosts := _resolved_hosts e |}.

Definition set_resolved_hosts (h : gset string) (e : Event) : Event :=
  {| uid := uid e; type := type e; data := data e; module := module e;
     source_id := source_id e; scope_distance := scope_distance e;
     tags := tags e; host := host e; _force_output := _force_output e;
     _dummy := _dummy e; _resolved_hosts := h |}.

Definition has_tag (t : string) (e : Event) : bool := bool_decide (t ∈ tags e).

(** Modelled from the spec: [Event.make_in_scope] and [Event.make_internal]
    are not part of the manager's file.  The first gives the event the
    stated distance, the second tags it ["internal"]. *)
Definition make_in_scope (d : Z) (e : Event) : Event := set_scope_distance d e.
Definition make_internal (e : Event) : Event := set_tags ({["internal"]} ∪ tags e) e.

(** What a module's [queue_event] receives: an event, or the string
    ["FINISHED"] the driver loop broadcasts. *)
Inductive Item :=
  | EventItem (e : Event)
  | Sentinel (s : string).

(** A registered module: its attributes, its inbound queue, and the
    behaviour of the methods the manager calls on it. *)
Record Module := {
  info : ModuleInfo;
  incoming : list Item;
  queue_fault : option exn;         (* what mod.queue_event raises, if anything *)
  report_fault : option exn;        (* what mod.report raises, if anything *)
  _filter_event : Event → bool;     (* _filter_event(event, precheck_only=True)[0] *)
}.

Definition push_incoming (x : Item) (m : Module) : Module :=
  {| info := info m; incoming := incoming m ++ [x];
     queue_fault := queue_fault m; report_fault := report_fault m;
     _filter_event := _filter_event m |}.

(** ** Options of [emit_event] and the tasks of the event pool *)

(** A Python callable as the manager uses it: what a call of it does, and
    its [__qualname__].  Functions, methods and lambdas have one; other
    callables, such as a [functools.partial] or an instance of a class
    with [__call__], have none. *)
Record Callable (B : Type) := {
  __qualname__ : option string;
  __call__ : B;
}.
Arguments __qualname__ {B} _.
Arguments __call__ {B} _.

(** A function or a bound method: a callable with a [__qualname__]. *)
Definition method {B} (qualname : string) (f : B) : Callable B :=
  {| __qualname__ := Some qualname; __call__ := f |}.

Record EmitOpts := {
  quick : bool;
  abort_if : option (Event → bool);
  on_success_callback : option (Callable (Event → option exn));
}.

Record Task := { task_event : Event; task_opts : EmitOpts }.

(** ** Calls to collaborators *)

Inductive Effect :=
  | ReleaseSemaphore (u : nat)      (* event.release_semaphore() *)
  | SetResolved (u : nat)           (* event._resolved.set() *)
  | StatsEmitted (u : nat)          (* scan.stats.event_emitted(event) *)
  | StatsProduced (u : nat)         (* scan.stats.event_produced(event) *)
  | StatsFunctionCalled             (* scan.stats.function_called(..) *)
  | Absorb (u : nat)                (* scan.word_cloud.absorb_event(event) *)
  | Deliver (m : ModuleInfo) (x : Item) (* mod.queue_event(x) returned *)
  | Report (m : ModuleInfo)         (* mod.report() called *)
  | SuccessCallback (u : nat)       (* on_success_callback(event) called *)
  | SetErrorState (m : string)      (* mod.set_error_state() *)
  | ScanStop                        (* scan.stop() *)
  | OnStart                         (* scan.dispatcher.on_start(scan) *)
  | Sleep                           (* sleep(0.1) *)
  | LogError                        (* log.error(..) *)
  | LogCritical.                    (* log.critical(..) *)

(** ** The state of the manager and of its scan *)

(** The accepted ledger holds what [hash_event] hashes: Python's [hash] of
    a tuple is taken to be free of collisions, so the ledger stores the
    tuple itself, with [None] in the third place for the two-element form. *)
Abbreviation AcceptKey := (EventId * string * option EventId)%type.

Record State := {
  event_queue : list Event;
  queued_event_types : gmap string Z;
  events_distributed : gset EventId;
  events_accepted : gset AcceptKey;
  status : string;                  (* scan.status *)
  stopping : bool;                  (* scan.stopping *)
  modules : list Module;            (* scan.modules.values() *)
  pool_fault : option exn;          (* what submit_task raises, if anything *)
  pool_tasks : list Task;           (* tasks submitted to the event pool *)
  next_uid : nat;                   (* the next fresh Python object *)
  trace : list Effect;
}.

(** Modelled from the spec: the DNS helper is not part of the manager's
    file.  Its [resolve_event] returns the five results below, or raises;
    the calls it makes on collaborators while it runs are [resolve_calls]
    (none, if it only computes its results, as its interface in the spec
    has it). *)
Record DnsResult := {
  dns_children : list (string * string);
  dns_tags : gset string;
  event_whitelisted_dns : bool;
  event_blacklisted_dns : bool;
  resolved_hosts : gset string;
}.

(** The configuration of the scan and the collaborators whose code is
    elsewhere. *)
Record Config := {
  dns_resolution : bool;            (* scan.config.get("dns_resolution", False) *)
  blacklist : bool;                 (* truth value of scan.blacklist *)
  whitelisted : Event → bool;
  blacklisted : Event → bool;
  resolve_event : Event → exn + DnsResult;
  resolve_calls : Event → list Effect;
  scope_search_distance : Z;
  scope_report_distance : Z;
  dns_search_distance : Z;
  make_event : Event → exn + Event; (* scan.make_event on an event object *)
  valid_dns_name : string → bool;   (* scan.make_event(value, "DNS_NAME", ..) validates *)
  host_module : ModuleInfo;         (* helpers._make_dummy_module("host", _type="internal") *)
  dns_module : string → ModuleInfo; (* helpers.dns._get_dummy_module(rdtype) *)
}.

(** Field updates of [State]. *)
Definition with_queue (q : list Event) (t : gmap string Z) (s : State) : State :=
  {| event_queue := q; queued_event_types := t;
     events_distributed := events_distributed s;
     events_accepted := events_accepted s; status := status s;
     stopping := stopping s; modules := modules s; pool_fault := pool_fault s;
     pool_tasks := pool_tasks s; next_uid := next_uid s; trace := trace s |}.

Definition with_distributed (d : gset EventId) (s : State) : State :=
  {| event_queue := event_queue s; queued_event_types := queued_event_types s;
     events_distributed := d;
     events_accepted := events_accepted s; status := status s;
     stopping := stopping s; modules := modules s; pool_fault := pool_fault s;
     pool_tasks := pool_tasks s; next_uid := next_uid s; trace := trace s |}.

Definition with_accepted (a : gset AcceptKey) (s : State) : State :=
  {| event_queue := event_queue s; queued_event_types := queued_event_types s;
     events_distributed := events_distributed s;
     events_accepted := a; status := status s;
     stopping := stopping s; modules := modules s; pool_fault := pool_fault s;
     pool_tasks := pool_tasks s; next_uid := next_uid s; trace := trace s |}.

Definition with_status (x : string) (b : bool) (s : State) : State :=
  {| event_queue := event_queue s; queued_event_types := queued_event_types s;
     events_distributed := events_distributed s;
     events_accepted := events_accepted s; status := x;
     stopping := b; modules := modules s; pool_fault := pool_fault s;
     pool_tasks := pool_tasks s; next_uid := next_uid s; trace := trace s |}.

Definition with_modules (ms : list Module) (s : State) : State :=
  {| event_queue := event_queue s; queued_event_types := queued_event_types s;
     events_distributed := events_distributed s;
     events_accepted := events_accepted s; status := status s;
     stopping := stopping s; modules := ms; pool_fault := pool_fault s;
     pool_tasks := pool_tasks s; next_uid := next_uid s; trace := trace s |}.

Definition with_pool_tasks (ts : list Task) (s : State) : State :=
  {| event_queue := event_queue s; queued_event_types := queued_event_types s;
     events_distributed := events_distributed s;
     events_accepted := events_accepted s; status := status s;
     stopping := stopping s; modules := modules s; pool_fault := pool_fault s;
     pool_tasks := ts; next_uid := next_uid s; trace := trace s |}.

Definition with_next_uid (n : nat) (s : State) : State :=
  {| event_queue := event_queue s; queued_event_types := queued_event_types s;
     events_distributed := events_distributed s;
     events_accepted := events_accepted s; status := status s;
     stopping := stopping s; modules := modules s; pool_fault := pool_fault s;
     pool_tasks := pool_tasks s; next_uid := n; trace := trace s |}.

Definition with_trace (t : list Effect) (s : State) : State :=
  {| event_queue := event_queue s; queued_event_types := queued_event_types s;
     events_distributed := events_distributed s;
     events_accepted := events_accepted s; status := status s;
     stopping := stopping s; modules := modules s; pool_fault := pool_fault s;
     pool_tasks := pool_tasks s; next_uid := next_uid s; trace := t |}.

(** ** The monad of manager methods *)

Inductive Outcome (A : Type) :=
  | Returned (a : A)
  | Raised (x : exn)
  | Blocked.
Arguments Returned {A} a.
Arguments Raised {A} x.
Arguments Blocked {A}.

Definition M (A : Type) : Type := State → Outcome A * State.

Definition ret {A} (a : A) : M A := λ s, (Returned a, s).
Definition raise {A} (x : exn) : M A := λ s, (Raised x, s).
Definition blocked {A} : M A := λ s, (Blocked, s).

Definition bind {A B} (m : M A) (k : A → M B) : M B := λ s,
  match m s with
  | (Returned a, s') => k a s'
  | (Raised x, s') => (Raised x, s')
  | (Blocked, s') => (Blocked, s')
  end.

#[global] Instance M_ret : MRet M := @ret.
#[global] Instance M_bind : MBind M := λ A B k m, bind m k.

Definition get : M State := λ s, (Returned s, s).
Definition modify (f : State → State) : M unit := λ s, (Returned tt, f s).
Definition call (x : Effect) : M unit := modify (λ s, with_trace (trace s ++ [x]) s).

(** [try: m  except ..: h x]: the handler says which exceptions it takes. *)
Definition try_except {A} (m : M A) (h : exn → option (M A)) : M A := λ s,
  match m s with
  | (Raised x, s') => match h x with Some k => k s' | None => (Raised x, s') end
  | r => r
  end.

(** [try: m  finally: f].  A blocked [m] has not reached its [finally]. *)
Definition finally {A} (m : M A) (f : M unit) : M A := λ s,
  match m s with
  | (Blocked, s') => (Blocked, s')
  | (r, s') =>
      match f s' with
      | (Returned _, s'') => (r, s'')
      | (Raised x, s'') => (Raised x, s'')
      | (Blocked, s'') => (Blocked, s'')
      end
  end.

Definition when (b : bool) (m : M unit) : M unit := if b then m else ret tt.

Fixpoint for_each {A} (l : list A) (body : A → M unit) : M unit :=
  match l with
  | [] => mret tt
  | x :: rest => body x;; for_each rest body
  end.

(** [try: x = a; b x  except: h  finally: f v], where [v] is a local
    variable of the [try] block that [a] assigns as its last step and that
    holds [dflt] until then. *)
Definition try_stages {X A V} (a : M X) (b : X → M A) (h : exn → option (M A))
    (v : X → V) (dflt : V) (f : V → M unit) : M A := λ s,
  match a s with
  | (Returned x, s1) => finally (try_except (b x) h) (f (v x)) s1
  | (Raised e, s1) => finally (try_except (raise e) h) (f dflt) s1
  | (Blocked, s1) => (Blocked, s1)
  end.

(** Python's truth value of [event.host]. *)
Definition truthy (h : option string) : bool :=
  match h with
  | Some s => negb (bool_decide (s = EmptyString))
  | None => false
  end.

(** ** The ledger of accepted events *)

Definition hash_event (event : Event) : AcceptKey :=
  let module_type := default EmptyString (_type (module event)) in
  if bool_decide (module_type = "DNS")
  then (event_id event, name (module event), Some (source_id event))
  else (event_id event, name (module event), None).

Definition is_duplicate_event (event : Event) (add : bool) : M bool :=
  let event_hash := hash_event event in
  let suppress := default true (suppress_dupes (module event)) in
  s ← get;
  let duplicate_event := suppress && bool_decide (event_hash ∈ events_accepted s) in
  when add (modify (with_accepted ({[event_hash]} ∪ events_accepted s)));;
  mret (duplicate_event && negb (_force_output event)).

Definition accept_event (event : Event) : M bool :=
  dup ← is_duplicate_event event true;
  if (dup : bool) then mret false else mret true.

(** ** [catch], [queue_event] and the entry point [emit_event] *)

(** Modelled from the spec: [scan.stop] is not part of the manager's file;
    it is the scan-level stop request, after which the scan is stopping and
    its status is ["ABORTING"]. *)
Definition scan_stop : M unit :=
  call ScanStop;; modify (with_status "ABORTING" true).

(** [callback_name] is built from [callback.__qualname__] before the
    [try] (line 259): a callback without one ends [catch] with an
    [AttributeError] before anything else happens.  The log line for a
    failing finish callback reads [on_finish_callback.__qualname__]
    (line 281) inside the handler, so the same error leaves the handler
    when that attribute is missing. *)
Definition catch {A} (_force : bool) (_on_finish_callback : option (Callable (M unit)))
    (callback : Callable (M A)) : M (option A) :=
  match __qualname__ callback with
  | None => raise AttributeError
  | Some _ =>
      ret_ ← finally
        (try_except
           (s ← get;
            if negb (stopping s) || _force
            then a ← __call__ callback; mret (Some a)
            else mret None)
           (λ e, match e with
                 | ScanCancelledError => Some (mret None)
                 | BrokenPipeError => Some (mret None)
                 | KeyboardInterrupt => Some (scan_stop;; mret None)
                 | _ => Some (call LogError;; mret None)
                 end))
        (call StatsFunctionCalled);
      match _on_finish_callback with
      | Some f =>
          try_except (__call__ f)
            (λ e, if is_Exception e
                  then Some (match __qualname__ f with
                             | Some _ => call LogError
                             | None => raise AttributeError
                             end)
                  else None)
      | None => mret tt
      end;;
      mret ret_
  end.

Definition queue_event (cfg : Config) (e : Event) : M unit :=
  match make_event cfg e with
  | inl x => raise x
  | inr event =>
      s ← get;
      let types :=
        match queued_event_types s !! type event with
        | Some n => <[type event := n + 1]> (queued_event_types s)
        | None => <[type event := 1]> (queued_event_types s)
        end in
      modify (with_queue (event_queue s ++ [event]) types)
  end.

Definition _event_precheck (event : Event) : M bool :=
  if _dummy event then mret false
  else if bool_decide (event_id event = source_id event) then mret false
  else if negb (bool_decide (type event = "DNS_NAME")) then
    dup ← is_duplicate_event event false;
    if (dup : bool) then mret false
    else s ← get; mret (existsb (λ m, _filter_event m event) (modules s))
  else mret true.

(** [scan._event_thread_pool.submit_task(self.catch, self._emit_event, event, ..)] *)
Definition submit_task (t : Task) : M unit :=
  s ← get;
  match pool_fault s with
  | Some x => raise x
  | None => modify (with_pool_tasks (pool_tasks s ++ [t]))
  end.

Definition emit_event (cfg : Config) (event : Event) (opts : EmitOpts) : M unit :=
  ok ← _event_precheck event;
  if negb ok then
    call (ReleaseSemaphore (uid event));;
    call (SetResolved (uid event))
  else if quick opts then
    (* abort_if and on_success_callback are popped and dropped *)
    finally
      (try_except (queue_event cfg event)
         (λ e, if is_Exception e then Some (call LogError) else None))
      (call (ReleaseSemaphore (uid event));;
       call (SetResolved (uid event)))
  else
    try_except (submit_task {| task_event := event; task_opts := opts |})
      (λ e, if is_Exception e
            then Some (when (negb (is_RuntimeError e)) (call LogError);;
                       call (ReleaseSemaphore (uid event));;
                       call (SetResolved (uid event)))
            else None).

Definition no_opts : EmitOpts :=
  {| quick := false; abort_if := None; on_success_callback := None |}.

(** ** The pipeline run [_emit_event] *)

(** What one iteration of the polling loop observes. *)
Record Poll := {
  poll_stopping : bool;             (* scan.stopping *)
  poll_resolved : bool;             (* event._resolved.wait(timeout=0.1) *)
  poll_source_resolved : bool;      (* the parent's signal; the loop does not read it *)
  poll_source_distance : Z;         (* event.source.scope_distance *)
}.

(** The [while 1] loop of lines 139-146. *)
Fixpoint wait_resolved (polls : list Poll) (event : Event) : M Event :=
  match polls with
  | [] => blocked
  | p :: rest =>
      if poll_stopping p then raise ScanCancelledError
      else if poll_resolved p
      then mret (set_scope_distance (poll_source_distance p + 1) event)
      else wait_resolved rest event
  end.

(** Modelled from the spec: [scan.make_event(value, "DNS_NAME", module=..,
    source=..)] is not part of the manager's file.  It validates the value
    and returns a fresh event one step further from the scope than its
    source (a child of [example.com] at distance 0 is created at distance
    1), or raises [ValidationError]. *)
Definition make_dns_name (cfg : Config) (value : string) (mod_ : ModuleInfo)
    (source : Event) : M Event :=
  if valid_dns_name cfg value then
    s ← get;
    modify (with_next_uid (S (next_uid s)));;
    mret {| uid := next_uid s; type := "DNS_NAME"; data := value;
            module := mod_; source_id := event_id source;
            scope_distance := scope_distance source + 1; tags := ∅;
            host := Some value;
            _force_output := false; _dummy := false; _resolved_hosts := ∅ |}
  else raise ValidationError.

(** Lines 102-167: resolution, tagging, the wait and scope shepherding.
    The result is the event as mutated, the local [emit_event] and the
    local [dns_children]. *)
Definition resolve_and_classify (cfg : Config) (polls : list Poll) (event : Event)
    : M (Event * bool * list (string * string)) :=
  let skip_dns_resolution :=
    negb (dns_resolution cfg) && has_tag "target" event && negb (blacklist cfg) in
  if skip_dns_resolution then
    call (SetResolved (uid event));;
    (* dns_children stays unbound; it is read only when dns_resolution is on *)
    mret (event, true, [])
  else
    for_each (resolve_calls cfg event) call;;
    match resolve_event cfg event with
    | inl x => raise x
    | inr dns =>
        let event := set_resolved_hosts (resolved_hosts dns) event in
        let event_whitelisted := event_whitelisted_dns dns || whitelisted cfg event in
        let event_blacklisted := event_blacklisted_dns dns || blacklisted cfg event in
        let event :=
          if bool_decide (type event = "DNS_NAME") || bool_decide (type event = "IP_ADDRESS")
          then set_tags (tags event ∪ dns_tags dns) event else event in
        let event :=
          if event_blacklisted then set_tags ({["blacklisted"]} ∪ tags event) event
          else event in
        let emit_event := negb (has_tag "blacklisted" event) in
        event ← (if negb event_whitelisted || negb (has_tag "target" event)
                 then wait_resolved polls event else mret event);
        event_is_duplicate ← is_duplicate_event event false;
        let event_in_report_distance :=
          scope_distance event <=? scope_report_distance cfg in
        let set_scope_distance := if event_whitelisted then 0 else scope_distance event in
        let event :=
          if truthy (host event) then
            if (event_whitelisted || event_in_report_distance) && negb event_is_duplicate
            then make_in_scope set_scope_distance event
            else if scope_distance event >? scope_report_distance cfg
                 then make_internal event else event
          else make_in_scope 0 event in
        mret (event, emit_event, dns_children dns)
    end.

(** Lines 102-180: the above, then the late veto, acceptance and
    queueing.  The result is [None] after an early [return]; otherwise
    the event as mutated, the local [event_emitted] and the local
    [dns_children]. *)
Definition resolve_and_queue (cfg : Config) (polls : list Poll) (event : Event)
    (opts : EmitOpts) : M (option (Event * bool * list (string * string))) :=
  r ← resolve_and_classify cfg polls event;
  let '(event, emit_event, dns_children) := r in
  if match abort_if opts with Some f => f event | None => false end then mret None
  else
    accepted ← accept_event event;
    if negb accepted then mret None
    else
      when emit_event (queue_event cfg event);;
      mret (Some (event, emit_event, dns_children)).

Definition run_callback (cb : Event → option exn) (event : Event) : M unit :=
  call (SuccessCallback (uid event));;
  match cb event with Some x => raise x | None => mret tt end.

(** The [try/except ValidationError] around each DNS child (lines 200-208). *)
Fixpoint make_dns_children (cfg : Config) (children : list (string * string))
    (source_event : Event) : M (list Event) :=
  match children with
  | [] => mret []
  | (record, rdtype) :: rest =>
      c ← try_except
             (child_event ← make_dns_name cfg record (dns_module cfg rdtype) source_event;
              mret (Some child_event))
             (λ e, match e with ValidationError => Some (mret None) | _ => None end);
      cs ← make_dns_children cfg rest source_event;
      mret (match c with Some child_event => child_event :: cs | None => cs end)
  end.

(** Lines 182-210: the success callback and the DNS children. *)
Definition emit_children (cfg : Config) (opts : EmitOpts) (event : Event)
    (dns_children : list (string * string)) : M unit :=
  match on_success_callback opts with
  | Some cb =>
      catch false None
        {| __qualname__ := __qualname__ cb;
           __call__ := run_callback (__call__ cb) event |};;
      mret tt
  | None => mret tt
  end;;
  let emit_children :=
    (-1 <? scope_distance event) && (scope_distance event <? dns_search_distance cfg) in
  source_event ←
    (if truthy (host event)
        && negb (bool_decide (type event = "DNS_NAME") || bool_decide (type event = "IP_ADDRESS")
                 || bool_decide (type event = "IP_RANGE"))
     then
       source_event ← make_dns_name cfg (default EmptyString (host event)) (host_module cfg) event;
       let source_event := set_scope_distance (scope_distance event) source_event in
       let source_event :=
         if has_tag "target" event
         then set_tags ({["target"]} ∪ tags source_event) source_event
         else source_event in
       when (negb (bool_decide (name (module event) = "speculate")))
            (emit_event cfg source_event no_opts);;
       mret source_event
     else mret event);
  when (dns_resolution cfg && emit_children)
    (dns_child_events ← make_dns_children cfg dns_children source_event;
     for_each dns_child_events (λ child_event, emit_event cfg child_event no_opts)).

Definition _emit_event (cfg : Config) (polls : list Poll) (event : Event)
    (opts : EmitOpts) : M unit :=
  try_stages
    (resolve_and_queue cfg polls event opts)
    (λ r, match r with
          | Some (event, _, dns_children) => emit_children cfg opts event dns_children
          | None => mret tt
          end)
    (λ e, match e with ValidationError => Some (mret tt) | _ => None end)
    (λ r, match r with Some (_, event_emitted, _) => event_emitted | None => false end)
    false
    (λ event_emitted,
       call (ReleaseSemaphore (uid event));;
       when event_emitted (call (StatsEmitted (uid event)))).

(** A worker of the event pool runs a submitted task:
    [self.catch(self._emit_event, event, ..)]. *)
Definition run_task (cfg : Config) (polls : list Poll) (t : Task) : M (option unit) :=
  catch false None
    (method "ScanManager._emit_event"
       (_emit_event cfg polls (task_event t) (task_opts t))).

(** ** The dispatcher [distribute_event] *)

(** [mod.queue_event(x)] on the module at position [i] of the registry. *)
Definition mod_queue_event (i : nat) (x : Item) : M unit :=
  s ← get;
  match modules s !! i with
  | None => mret tt
  | Some mod_ =>
      match queue_fault mod_ with
      | Some e => raise e
      | None =>
          modify (with_modules (<[i := push_incoming x mod_]> (modules s)));;
          call (Deliver (info mod_) x)
      end
  end.

(** The body of the [for mod in self.scan.modules.values()] loop, with the
    local [stats_recorded] passed along. *)
Fixpoint distribute_to (cfg : Config) (event : Event) (dup : bool)
    (idx : list nat) (stats_recorded : bool) : M unit :=
  match idx with
  | [] => mret tt
  | i :: rest =>
      s ← get;
      match modules s !! i with
      | None => distribute_to cfg event dup rest stats_recorded
      | Some mod_ =>
          if negb dup || accept_dupes (info mod_) then
            let event_within_scope_distance :=
              (-1 <? scope_distance event)
              && (scope_distance event <=? scope_search_distance cfg) in
            let event_within_report_distance :=
              (-1 <? scope_distance event)
              && (scope_distance event <=? scope_report_distance cfg) in
            if bool_decide (_type (info mod_) = Some "output") then
              if event_within_report_distance
                 || (_force_output event && emit_graph_trail (info mod_))
              then
                mod_queue_event i (EventItem event);;
                if negb stats_recorded then
                  call (StatsProduced (uid event));;
                  distribute_to cfg event dup rest true
                else distribute_to cfg event dup rest stats_recorded
              else distribute_to cfg event dup rest stats_recorded
            else
              if event_within_scope_distance then
                mod_queue_event i (EventItem event);;
                distribute_to cfg event dup rest stats_recorded
              else distribute_to cfg event dup rest stats_recorded
          else distribute_to cfg event dup rest stats_recorded
      end
  end.

Definition distribute_event (cfg : Config) (event : Event) : M unit :=
  s ← get;
  let event_hash := event_id event in
  let dup := bool_decide (event_hash ∈ events_distributed s) in
  when (negb dup) (modify (with_distributed ({[event_hash]} ∪ events_distributed s)));;
  when (negb dup && (-1 <? scope_distance event) && (scope_distance event <? 1))
       (call (Absorb (uid event)));;
  distribute_to cfg event dup (seq 0 (length (modules s))) false.

(** ** The completion detector [modules_status] *)

Record ModStatus := {
  running : bool;
  errored : bool;
  events_incoming : Z;
  events_outgoing : Z;
  tasks_total : Z;
}.

(** One reading of the live state: [scan.status_detailed], and for every
    registered module its name, its [status], and whether its
    [event_queue] is neither [None] nor [False]. *)
Record Reading := {
  queued_events : gmap string Z;
  queued_tasks : gmap string Z;
  module_status : list (string * ModStatus * bool);
}.

Record Status := {
  status_modules : gmap string ModStatus;
  status_scan : gmap string Z * gmap string Z;
  finished : bool;
  modules_errored : nat;
}.

Definition any_positive (d : gmap string Z) : bool :=
  existsb (λ kv, 0 <? kv.2) (map_to_list d).

(** The three [for] loops of one pass that may clear [finished]. *)
Definition check_pass (r : Reading) (finished : bool) : bool :=
  let finished := if any_positive (queued_events r) then false else finished in
  let finished := if any_positive (queued_tasks r) then false else finished in
  if existsb (λ m, running m.1.2) (module_status r) then false else finished.

(** One pass of the [while passes > 0] loop and, after [passes -= 1], the
    passes that remain. *)
Fixpoint status_passes (readings : nat → Reading) (i : nat) (passes : nat)
    (finished : bool) : M (bool * Reading) :=
  let r := readings i in
  let finished := check_pass r finished in
  for_each (module_status r)
    (λ m, when (errored m.1.2 && m.2) (call (SetErrorState m.1.1)));;
  match passes with
  | S passes' =>
      if finished then call Sleep;; status_passes readings (S i) passes' finished
      else mret (finished, r)
  | O => mret (finished, r)
  end.

(** The [_log] branch only formats log lines and is left out. *)
Definition modules_status (_log : bool) (passes : option Z)
    (readings : nat → Reading) : M Status :=
  let passes := match passes with None => 5 | Some p => Z.max 1 p end in
  res ← status_passes readings 0 (Z.to_nat (passes - 1)) true;
  let '(finished, r) := res in
  let mods := foldl (λ acc m, <[m.1.1 := m.1.2]> acc) (∅ : gmap string ModStatus)
                    (module_status r) in
  mret {| status_modules := mods;
          status_scan := (queued_events r, queued_tasks r);
          finished := finished;
          modules_errored := length (filter (λ kv, errored kv.2 = true) (map_to_list mods)) |}.

(** ** The driver loop [loop_until_finished] *)

(** What other threads do during one iteration of the driver loop. *)
Record Tick := {
  tick_stop : bool;                 (* the scan was told to stop: status is now "ABORTING" *)
  tick_log : option (nat → Reading);(* a status line is due; the readings it takes *)
  tick_arrivals : list Event;       (* events queued by pipeline workers before get() times out *)
  tick_readings : nat → Reading;    (* the readings modules_status() takes on an empty queue *)
}.

Definition mod_report (mod_ : Module) : M unit :=
  call (Report (info mod_));;
  match report_fault mod_ with Some e => raise e | None => mret tt end.

(** The [while 1] loop of lines 339-385.  The events handed to the caller
    by [yield from] do not touch the manager and are left out. *)
Fixpoint driver_loop (cfg : Config) (ticks : list Tick) (counter event_counter : Z)
    : M unit :=
  match ticks with
  | [] => blocked
  | t :: rest =>
      when (tick_stop t) (modify (with_status "ABORTING" true));;
      s ← get;
      if bool_decide (status s = "ABORTING") then
        modify (with_queue [] (queued_event_types s))
      else
        match tick_log t with
        | Some rd => modules_status true (Some 1) rd;; mret tt
        | None => mret tt
        end;;
        modify (λ s, with_queue (event_queue s ++ tick_arrivals t) (queued_event_types s) s);;
        s ← get;
        match event_queue s with
        | event :: q =>
            modify (with_queue q (queued_event_types s));;
            let event_counter := event_counter + 1 in
            distribute_event cfg event;;
            driver_loop cfg rest counter event_counter
        | [] =>
            st ← modules_status false None (tick_readings t);
            let finished := finished st in
            if finished then mret tt
            else
              next ← (if finished then
                        if event_counter >? 0 then
                          modify (λ s, with_status "FINISHING" (stopping s) s);;
                          s ← get;
                          for_each (seq 0 (length (modules s)))
                                   (λ i, mod_queue_event i (Sentinel "FINISHED"));;
                          mret (Some 0)
                        else mret None
                      else mret (Some event_counter));
              match next with
              | Some event_counter => driver_loop cfg rest (counter + 1) event_counter
              | None => mret tt
              end
        end
  end.

Definition loop_until_finished (cfg : Config) (ticks : list Tick) : M unit :=
  finally
    (try_except
       (call OnStart;; driver_loop cfg ticks 0 0)
       (λ e, match e with
             | KeyboardInterrupt => Some scan_stop
             | _ => Some (call LogCritical)
             end))
    (s ← get;
     for_each (modules s)
       (λ mod_, catch true None (method "report" (mod_report mod_));; mret tt)).

(** ** Reading traces *)

Definition count (p : Effect → bool) (t : list Effect) : nat :=
  length (List.filter p t).

Definition is_release (u : nat) (e : Effect) : bool :=
  match e with ReleaseSemaphore v => bool_decide (v = u) | _ => false end.

Definition is_set_resolved (u : nat) (e : Effect) : bool :=
  match e with SetResolved v => bool_decide (v = u) | _ => false end.

Definition is_stats_emitted (u : nat) (e : Effect) : bool :=
  match e with StatsEmitted v => bool_decide (v = u) | _ => false end.

Definition is_stats_produced (e : Effect) : bool :=
  match e with StatsProduced _ => true | _ => false end.

Definition is_sleep (e : Effect) : bool :=
  match e with Sleep => true | _ => false end.

Definition is_output (m : ModuleInfo) : bool :=
  bool_decide (_type m = Some "output").


(** The modules whose report hook was called, in order. *)
Definition reports (t : list Effect) : list ModuleInfo :=
  omap (λ e, match e with Report m => Some m | _ => None end) t.

(** A computation keeps the invariant [I] and adds to the trace only
    calls that satisfy [P]. *)
Definition extends {A} (I : State → Prop) (P : Effect → Prop) (m : M A) : Prop :=
  ∀ s, I s → I (m s).2 ∧ ∃ t, trace (m s).2 = trace s ++ t ∧ Forall P t.

(** ** The delivery policy as the specification words it *)

(** A distance is within a limit when it is set (above -1) and at most
    the limit. *)
Definition spec_within (d limit : Z) : bool := (-1 <? d) && (d <=? limit).

(** A module receives the event iff (it is no duplicate or the module
    accepts duplicates) and the policy for the module's type matches. *)
Definition spec_receives (cfg : Config) (event : Event) (dup : bool)
    (m : ModuleInfo) : bool :=
  (negb dup || accept_dupes m)
  && (if is_output m
      then spec_within (scope_distance event) (scope_report_distance cfg)
           || (_force_output event && emit_graph_trail m)
      else spec_within (scope_distance event) (scope_search_distance cfg)).

Definition spec_deliver (cfg : Config) (event : Event) (dup : bool)
    (m : Module) : Module :=
  if spec_receives cfg event dup (info m) then push_incoming (EventItem event) m else m.

(** The calls one dispatch makes for the modules [ms], given whether the
    statistics sink has been told already. *)
Fixpoint delivery_trace (cfg : Config) (event : Event) (dup : bool)
    (ms : list Module) (recorded : bool) : list Effect :=
  match ms with
  | [] => []
  | m :: rest =>
      if spec_receives cfg event dup (info m) then
        if is_output (info m) && negb recorded
        then Deliver (info m) (EventItem event) :: StatsProduced (uid event)
             :: delivery_trace cfg event dup rest true
        else Deliver (info m) (EventItem event)
             :: delivery_trace cfg event dup rest recorded
      else delivery_trace cfg event dup rest recorded
  end.


(** ** Quiescence as the specification words it *)

Definition all_zero (d : gmap string Z) : Prop := map_Forall (λ _ n, n = 0) d.

(** A reading is quiet when every scan-level queued-event count and every
    pool's queued-task count is zero and no module reports itself running. *)
Definition quiet (r : Reading) : Prop :=
  all_zero (queued_events r) ∧ all_zero (queued_tasks r)
  ∧ Forall (λ m, running m.1.2 = false) (module_status r).

(** Counts are sizes of queues: they are never negative. *)
Definition counts_are_sizes (r : Reading) : Prop :=
  map_Forall (λ _ n, 0 ≤ n) (queued_events r)
  ∧ map_Forall (λ _ n, 0 ≤ n) (queued_tasks r).

(** ** The calls that concern one event *)

(** A call that is neither the release of the permit of the event [u],
    nor the setting of its signal, nor the report of its emission. *)
Definition not_about (u : nat) (e : Effect) : Prop :=
  is_release u e = false ∧ is_set_resolved u e = false
  ∧ is_stats_emitted u e = false.

(** The local [skip_dns_resolution] of [_emit_event]. *)
Definition skip_dns_resolution (cfg : Config) (event : Event) : bool :=
  negb (dns_resolution cfg) && has_tag "target" event && negb (blacklist cfg).


(** ** A small scan to run the definitions on *)

Definition scan_module : ModuleInfo :=
  {| name := "portscan"; _type := Some "scan"; suppress_dupes := None;
     accept_dupes := false; emit_graph_trail := false |}.

Definition output_module : ModuleInfo :=
  {| name := "json"; _type := Some "output"; suppress_dupes := None;
     accept_dupes := false; emit_graph_trail := true |}.

Definition host_dummy_module : ModuleInfo :=
  {| name := "host"; _type := Some "internal"; suppress_dupes := None;
     accept_dupes := false; emit_graph_trail := false |}.

Definition dns_dummy_module (rdtype : string) : ModuleInfo :=
  {| name := rdtype; _type := Some "DNS"; suppress_dupes := Some false;
     accept_dupes := false; emit_graph_trail := false |}.

Definition worker (m : ModuleInfo) : Module :=
  {| info := m; incoming := []; queue_fault := None; report_fault := None;
     _filter_event := λ _, true |}.

Definition faulty_worker (m : ModuleInfo) : Module :=
  {| info := m; incoming := []; queue_fault := Some OtherException;
     report_fault := Some RuntimeError; _filter_event := λ _, true |}.

Definition root_id : EventId := ("SCAN", "demo").

Definition dns_name (u : nat) (value : string) (m : ModuleInfo) (src : EventId)
    (d : Z) (t : gset string) : Event :=
  {| uid := u; type := "DNS_NAME"; data := value; module := m; source_id := src;
     scope_distance := d; tags := t; host := Some value; _force_output := false;
     _dummy := false; _resolved_hosts := ∅ |}.

Definition ip_address (u : nat) (value : string) (m : ModuleInfo) (force : bool)
    : Event :=
  {| uid := u; type := "IP_ADDRESS"; data := value; module := m;
     source_id := root_id; scope_distance := 1; tags := ∅; host := Some value;
     _force_output := force; _dummy := false; _resolved_hosts := ∅ |}.

(** The target of the scan: whitelisted and tagged ["target"]. *)
Definition example_com : Event :=
  dns_name 1 "example.com" scan_module root_id 0 {["target"]}.

(** A blacklisted target. *)
Definition evil_com : Event :=
  dns_name 2 "evil.example.com" scan_module root_id 0 {["target"]}.

(** A name found by a module: neither a target nor whitelisted. *)
Definition other_org : Event :=
  dns_name 3 "other.org" scan_module ("DNS_NAME", "example.com") (-1) ∅.

Definition dummy_event : Event :=
  {| uid := 4; type := "IP_ADDRESS"; data := "10.0.0.1"; module := scan_module;
     source_id := root_id; scope_distance := 0; tags := ∅; host := Some "10.0.0.1";
     _force_output := false; _dummy := true; _resolved_hosts := ∅ |}.

Definition demo_dns : DnsResult :=
  {| dns_children := [("www.example.com", "A")]; dns_tags := {["a-record"]};
     event_whitelisted_dns := false; event_blacklisted_dns := false;
     resolved_hosts := {["93.184.216.34"]} |}.

Definition demo_cfg : Config :=
  {| dns_resolution := true;
     blacklist := true;
     whitelisted := λ e, bool_decide (data e = "example.com")
                         || bool_decide (data e = "evil.example.com");
     blacklisted := λ e, bool_decide (data e = "evil.example.com");
     resolve_event := λ _, inr demo_dns;
     resolve_calls := λ _, [];
     scope_search_distance := 1;
     scope_report_distance := 1;
     dns_search_distance := 2;
     make_event := inr;
     valid_dns_name := λ v, negb (bool_decide (v = EmptyString));
     host_module := host_dummy_module;
     dns_module := dns_dummy_module |}.

Definition demo_state (ms : list Module) (q : list Event) : State :=
  {| event_queue := q; queued_event_types := ∅; events_distributed := ∅;
     events_accepted := ∅; status := "RUNNING"; stopping := false;
     modules := ms; pool_fault := None; pool_tasks := []; next_uid := 10;
     trace := [] |}.

Definition demo_modules : list Module := [worker scan_module; worker output_module].

Definition quiet_reading : Reading :=
  {| queued_events := {["manager" := 0]};
     queued_tasks := {["dns" := 0; "event" := 0]};
     module_status :=
       [("portscan",
         {| running := false; errored := false; events_incoming := 0;
            events_outgoing := 0; tasks_total := 0 |}, true)] |}.

Definition busy_reading : Reading :=
  {| queued_events := {["manager" := 0]};
     queued_tasks := {["dns" := 2; "event" := 0]};
     module_status := [] |}.

Definition idle_tick : Tick :=
  {| tick_stop := false; tick_log := None; tick_arrivals := [];
     tick_readings := λ _, quiet_reading |}.

(** The parent's signal has fired; the event's own signal has not. *)
Definition parent_resolved_poll : Poll :=
  {| poll_stopping := false; poll_resolved := false;
     poll_source_resolved := true; poll_source_distance := 0 |}.

Definition quick_opts : EmitOpts :=
  {| quick := true; abort_if := Some (λ _, true);
     on_success_callback := Some (method "on_success" (λ _, Some OtherException)) |}.

(** The event's own signal is set; the parent's has not fired. *)
Definition own_resolved_poll : Poll :=
  {| poll_stopping := false; poll_resolved := true;
     poll_source_resolved := false; poll_source_distance := 4 |}.

(** The same scan with DNS resolution off and no blacklist: a target
    skips resolution. *)
Definition offline_cfg : Config :=
  {| dns_resolution := false;
     blacklist := false;
     whitelisted := whitelisted demo_cfg;
     blacklisted := λ _, false;
     resolve_event := resolve_event demo_cfg;
     resolve_calls := resolve_calls demo_cfg;
     scope_search_distance := 1;
     scope_report_distance := 1;
     dns_search_distance := 2;
     make_event := inr;
     valid_dns_name := valid_dns_name demo_cfg;
     host_module := host_dummy_module;
     dns_module := dns_dummy_module |}.

Definition target_task : Task := {| task_event := example_com; task_opts := no_opts |}.

(** ** Invariants of the dispatcher and of the driver loop *)

(** The registry holds the modules [ns], in this order. *)
Definition same_registry (ns : list ModuleInfo) (s : State) : Prop :=
  map info (modules s) = ns.

(** A call other than a report hook. *)
Definition not_report (e : Effect) : Prop := reports [e] = [].

(** The registry holds the modules [ns] and the central queue is [q]. *)
Definition dispatch_inv (ns : list ModuleInfo) (q : list Event) (s : State) : Prop :=
  map info (modules s) = ns ∧ event_queue s = q.


(** ** The calls of the DNS helper *)




(** ** More ways to read states and traces *)

(** The number of events of type [t] in a list, as a Python [int]. *)
Definition count_type (t : string) (es : list Event) : Z :=
  Z.of_nat (length (List.filter (λ e, bool_decide (type e = t)) es)).

(** The counter of a type in [queued_event_types]; a missing key counts 0. *)
Definition queued_count (t : string) (s : State) : Z :=
  default 0 (queued_event_types s !! t).


(** ** What a pipeline run may change, and what the driver loop may change *)

(** From [s0] to [s] the registry, the ledger of distributed events and
    the state of the event pool are the same, and the ledger of accepted
    events, the central queue, the counters of queued types, the tasks of
    the event pool and the supply of event identities have only grown. *)
Definition pipeline_frame (s0 s : State) : Prop :=
  modules s = modules s0
  ∧ events_distributed s = events_distributed s0
  ∧ pool_fault s = pool_fault s0
  ∧ events_accepted s0 ⊆ events_accepted s
  ∧ event_queue s0 `prefix_of` event_queue s
  ∧ (∀ t, queued_count t s0 ≤ queued_count t s)
  ∧ pool_tasks s0 `prefix_of` pool_tasks s
  ∧ (next_uid s0 ≤ next_uid s)%nat.

(** The module [m] is the module [m0] with more in its inbound queue. *)
Definition module_grows (m0 m : Module) : Prop :=
  info m = info m0
  ∧ incoming m0 `prefix_of` incoming m
  ∧ queue_fault m = queue_fault m0
  ∧ report_fault m = report_fault m0
  ∧ _filter_event m = _filter_event m0.

(** From [s0] to [s] the ledger of accepted events, the event pool and the
    supply of event identities are the same, the ledger of distributed
    events has only grown, and the registry holds the same modules with
    inbound queues that have only grown. *)
Definition driver_frame (s0 s : State) : Prop :=
  events_accepted s = events_accepted s0
  ∧ pool_fault s = pool_fault s0
  ∧ pool_tasks s = pool_tasks s0
  ∧ next_uid s = next_uid s0
  ∧ events_distributed s0 ⊆ events_distributed s
  ∧ Forall2 module_grows (modules s0) (modules s).

Definition is_absorb (u : nat) (e : Effect) : bool :=
  match e with Absorb v => bool_decide (v = u) | _ => false end.

Definition is_delivery (e : Effect) : bool :=
  match e with Deliver _ _ => true | _ => false end.

(** ** The status line of [modules_status]: the busiest modules *)

(** A row of the local list [modules_status] of the [_log] branch: the
    module's name, its incoming events, its outgoing events, its tasks,
    and the sum of the three. *)
Abbreviation StatusRow := (string * Z * Z * Z * Z)%type.

Definition row_tasks (r : StatusRow) : Z := r.1.2.     (* s[-2] *)
Definition row_total (r : StatusRow) : Z := r.2.       (* s[-1] *)

(** The body of the loop over [status["modules"].items()]. *)
Definition status_row (item : string * ModStatus) : StatusRow :=
  let '(m, s) := item in
  let incoming := events_incoming s in
  let outgoing := events_outgoing s in
  let tasks := tasks_total s in
  let total := 0 + incoming + outgoing + tasks in
  (m, incoming, outgoing, tasks, total).

(** [modules_status.sort(key=lambda x: x[-1], reverse=True)]: Python's
    sort is stable, also in reverse, so of rows with the same total the
    one that came first stays first. *)
Fixpoint insert_by_total (x : StatusRow) (l : list StatusRow) : list StatusRow :=
  match l with
  | [] => [x]
  | y :: rest =>
      if row_total x <? row_total y then y :: insert_by_total x rest else x :: l
  end.

Definition sort_by_total (l : list StatusRow) : list StatusRow :=
  foldr insert_by_total [] l.

(** [s[-2] or s[-1] > 0] *)
Definition row_busy (s : StatusRow) : bool :=
  negb (row_tasks s =? 0) || (0 <? row_total s).

(** The rows of the line ["Modules: .."], from the items of
    [status["modules"]] in the order of the dictionary. *)
Definition busiest_modules (items : list (string * ModStatus)) : list StatusRow :=
  let modules_status := sort_by_total (map status_row items) in
  take 5 (List.filter row_busy modules_status).

(** ** Seeding the scan: [init_events] *)

(** [scan.root_event] and [scan.target.events] are given.  What a module's
    [_handle_batch(force=True)] does is not part of the manager's file:
    it is a parameter. *)
Definition init_events (cfg : Config) (root_event : Event)
    (target_events : list Event) (_handle_batch : Module → M unit) : M unit :=
  queue_event cfg root_event;;
  for_each target_events (λ event, emit_event cfg event no_opts);;
  s ← get;
  for_each (modules s) _handle_batch.

(** Whether [_event_precheck] lets the event pass in the state [s]. *)
Definition precheck_passes (s : State) (event : Event) : bool :=
  match (_event_precheck event s).1 with
  | Returned b => b
  | _ => false
  end.

(** A module whose queue is interrupted from the keyboard. *)
Definition interrupted_worker (m : ModuleInfo) : Module :=
  {| info := m; incoming := []; queue_fault := Some KeyboardInterrupt;
     report_fault := None; _filter_event := λ _, true |}.

(** A call other than handing the string ["FINISHED"], or any other
    sentinel, to a module's queue. *)
Definition not_sentinel (e : Effect) : Prop :=
  match e with
  | Deliver _ (Sentinel _) => False
  | _ => True
  end.

(** ** Computations that come to an end *)

(** In every state the computation returns or raises: it does not wait
    for an observation that never comes. *)
Definition ends {A} (m : M A) : Prop := ∀ s, (m s).1 ≠ Blocked.

(** * The command line: which modules a scan runs

    The part of [main] in [bbot/cli.py] that turns the options of the
    command line into the set of scan modules. *)

(** The configuration of a preloaded module, as far as [main] reads it:
    the value of its key ["flags"], if it has one. *)
Abbreviation ModuleConfig := (option (list string)).

(** [c.get("flags", [])] *)
Definition get_flags (c : ModuleConfig) : list string := default [] c.

(** The [else] branch of lines 80-94, enabling modules by flags:
    [modules = set(options.modules)] and the loop over
    [module_loader.preloaded().items()] after it. *)
Definition enable_by_flags (preloaded : list (string * ModuleConfig))
    (option_modules option_flags : list string) : gset string :=
  foldl (λ (modules : gset string) '(m, c),
           if bool_decide (m ∉ modules) then
             let flags := get_flags c in
             if bool_decide ("deadly" ∈ flags) then modules
             else
               foldl (λ (modules : gset string) f,
                        if bool_decide (f ∈ flags) then {[m]} ∪ modules else modules)
                     modules option_flags
           else modules)
        (list_to_set option_modules) preloaded.

(** Python's truth value of a list. *)
Definition truthy_list {A} (l : list A) : bool :=
  match l with [] => false | _ => true end.

(** Lines 79-94 of [main]: the local [module_filtering] and the set
    [modules] the scanner is built from.  When the modules are only to be
    listed ([--list-modules] or [--help-all]) and neither a flag nor a
    module is named, the set is every preloaded scan module;
    [module_loader.preloaded(type="scan")] is not part of this file: its
    keys are given as [preloaded_scan].  Otherwise modules are enabled by
    flags. *)
Definition modules_from_options (preloaded : list (string * ModuleConfig))
    (preloaded_scan : list string) (list_modules help_all : bool)
    (option_modules option_flags : list string) : bool * gset string :=
  let module_filtering := false in
  if (list_modules || help_all)
     && negb (existsb id [truthy_list option_flags; truthy_list option_modules])
  then
    let module_filtering := true in
    (module_filtering, list_to_set preloaded_scan)
  else
    (module_filtering, enable_by_flags preloaded option_modules option_flags).

(** [module_loader._preloaded.get(m, {}).get("flags", [])] *)
Definition preloaded_flags (_preloaded : gmap string ModuleConfig) (m : string)
    : list string :=
  match _preloaded !! m with
  | Some c => get_flags c
  | None => []
  end.

(** [modules.remove(m)] on a Python set: a [KeyError] carrying [m] when
    [m] is not in the set. *)
Definition set_remove (m : string) (modules : gset string) : string + gset string :=
  if bool_decide (m ∈ modules) then inr (modules ∖ {[m]}) else inl m.

(** [for m in scanner._scan_modules: if cond(m): modules.remove(m)] *)
Fixpoint remove_where (cond : string → bool) (_scan_modules : list string)
    (modules : gset string) : string + gset string :=
  match _scan_modules with
  | [] => inr modules
  | m :: rest =>
      if cond m then
        match set_remove m modules with
        | inl key => inl key
        | inr modules => remove_where cond rest modules
        end
      else remove_where cond rest modules
  end.

(** [not all(f in flags for f in options.require_flags)] *)
Definition lacks_required_flag (_preloaded : gmap string ModuleConfig)
    (require_flags : list string) (m : string) : bool :=
  negb (forallb (λ f, bool_decide (f ∈ preloaded_flags _preloaded m)) require_flags).

(** [any(f in flags for f in options.exclude_flags)] *)
Definition has_excluded_flag (_preloaded : gmap string ModuleConfig)
    (exclude_flags : list string) (m : string) : bool :=
  existsb (λ f, bool_decide (f ∈ preloaded_flags _preloaded m)) exclude_flags.

(** The three loops "required flags", "excluded flags" and "excluded
    modules"; the result is the set assigned to [scanner._scan_modules],
    or the key of the [KeyError] that ends them. *)
Definition filter_scan_modules (_preloaded : gmap string ModuleConfig)
    (_scan_modules require_flags exclude_flags exclude_modules : list string)
    : string + gset string :=
  let modules : gset string := list_to_set _scan_modules in
  match remove_where (lacks_required_flag _preloaded require_flags)
          _scan_modules modules with
  | inl key => inl key
  | inr modules =>
      match remove_where (has_excluded_flag _preloaded exclude_flags)
              _scan_modules modules with
      | inl key => inl key
      | inr modules =>
          inr (foldl (λ (modules : gset string) m,
                        if bool_decide (m ∈ modules) then modules ∖ {[m]} else modules)
                     modules exclude_modules)
      end
  end.

(** ** More of the small scan *)

(** The small scan with its event pool shut down. *)
Definition closed_pool_state : State :=
  {| event_queue := []; queued_event_types := ∅; events_distributed := ∅;
     events_accepted := ∅; status := "RUNNING"; stopping := false;
     modules := demo_modules; pool_fault := Some RuntimeError; pool_tasks := [];
     next_uid := 10; trace := [] |}.

(** The same scan with a [scan.make_event] that refuses every event. *)
Definition strict_cfg : Config :=
  {| dns_resolution := true;
     blacklist := true;
     whitelisted := whitelisted demo_cfg;
     blacklisted := blacklisted demo_cfg;
     resolve_event := resolve_event demo_cfg;
     resolve_calls := resolve_calls demo_cfg;
     scope_search_distance := 1;
     scope_report_distance := 1;
     dns_search_distance := 2;
     make_event := λ _, inl ValidationError;
     valid_dns_name := valid_dns_name demo_cfg;
     host_module := host_dummy_module;
     dns_module := dns_dummy_module |}.

(** The scan is told to stop during this iteration of the driver loop. *)
Definition stop_tick : Tick :=
  {| tick_stop := true; tick_log := None; tick_arrivals := [];
     tick_readings := λ _, quiet_reading |}.

(** The root event of the small scan. *)
Definition scan_root : Event :=
  {| uid := 0; type := "SCAN"; data := "demo"; module := scan_module;
     source_id := root_id; scope_distance := 0; tags := ∅; host := None;
     _force_output := false; _dummy := false; _resolved_hosts := ∅ |}.

(** The statuses of six busy modules and an idle one. *)
Definition demo_items : list (string * ModStatus) :=
  map (λ '(m, i, o, t),
         (m, {| running := true; errored := false; events_incoming := i;
                events_outgoing := o; tasks_total := t |}))
      [("httpx", 4, 1, 2); ("nmap", 0, 0, 0); ("sslcert", 1, 0, 0);
       ("dnsresolve", 9, 3, 1); ("wayback", 0, 2, 0); ("naabu", 1, 0, 0);
       ("crt", 0, 0, 3)].

(** Three preloaded modules: a deadly one, a safe one, and one whose
    configuration has no flags. *)
Definition demo_preloaded : list (string * ModuleConfig) :=
  [("nuclei", Some ["active"; "aggressive"; "deadly"]);
   ("sslcert", Some ["active"; "safe"]);
   ("httpx", None)].

Definition demo_loader : gmap string ModuleConfig := list_to_map demo_preloaded.

(** * Properties *)

(** ** Unfolding the monad *)

Ltac unfold_monad :=
  unfold mbind, M_bind, mret, M_ret, bind, ret, raise, blocked, get, modify,
    call, when, try_except, finally in *.

Lemma bind_eq {A B} (m : M A) (k : A → M B) s :
  (m ≫= k) s =
    match m s with
    | (Returned a, s') => k a s'
    | (Raised x, s') => (Raised x, s')
    | (Blocked, s') => (Blocked, s')
    end.
Proof. reflexivity. Qed.

(** ** The frame rules of [extends] *)

Section Frame.
Context (I : State → Prop) (P : Effect → Prop).

Lemma extends_ret {A} (a : A) : extends I P (mret a).
Proof. intros s Hs; split; [done|]. exists []. by rewrite app_nil_r. Qed.

Lemma extends_raise {A} (x : exn) : extends I P (raise x : M A).
Proof. intros s Hs; split; [done|]. exists []. by rewrite app_nil_r. Qed.

Lemma extends_blocked {A} : extends I P (blocked : M A).
Proof. intros s Hs; split; [done|]. exists []. by rewrite app_nil_r. Qed.

Lemma extends_get : extends I P get.
Proof. intros s Hs; split; [done|]. exists []. by rewrite app_nil_r. Qed.

Lemma extends_bind {A B} (m : M A) (k : A → M B) :
  extends I P m → (∀ a, extends I P (k a)) → extends I P (m ≫= k).
Proof.
  intros Hm Hk s Hs. rewrite bind_eq.
  destruct (Hm s Hs) as [Hi (t & Ht & HP)].
  destruct (m s) as [[a | x |] s1]; simpl in *; [|by eauto..].
  destruct (Hk a s1 Hi) as [Hi2 (t2 & Ht2 & HP2)].
  split; [done|]. exists (t ++ t2).
  rewrite Ht2, Ht, app_assoc. split; [done|]. by apply Forall_app.
Qed.

Lemma extends_modify (f : State → State) :
  (∀ s, I s → I (f s)) → (∀ s, trace (f s) = trace s) →
  extends I P (modify f).
Proof.
  intros Hf Ht s Hs; split; [by apply Hf|]. exists []. simpl.
  by rewrite Ht, app_nil_r.
Qed.

Lemma extends_call (e : Effect) :
  P e → (∀ s t, I s → I (with_trace t s)) → extends I P (call e).
Proof.
  intros He Hi s Hs; split; [by apply Hi|]. exists [e]. simpl.
  split; [done|]. by constructor.
Qed.

Lemma extends_when (b : bool) (m : M unit) :
  extends I P m → extends I P (when b m).
Proof. destruct b; [done|]. intros _. apply (extends_ret tt). Qed.

Lemma extends_try_except {A} (m : M A) (h : exn → option (M A)) :
  extends I P m → (∀ x k, h x = Some k → extends I P k) →
  extends I P (try_except m h).
Proof.
  intros Hm Hh s Hs. unfold try_except.
  destruct (Hm s Hs) as [Hi (t & Ht & HP)].
  destruct (m s) as [[a | x |] s1]; simpl in *; [by eauto| |by eauto].
  destruct (h x) as [k|] eqn:Hx; simpl; [|by eauto].
  destruct (Hh x k Hx s1 Hi) as [Hi2 (t2 & Ht2 & HP2)].
  split; [done|]. exists (t ++ t2).
  rewrite Ht2, Ht, app_assoc. split; [done|]. by apply Forall_app.
Qed.

Lemma extends_finally {A} (m : M A) (f : M unit) :
  extends I P m → extends I P f → extends I P (finally m f).
Proof.
  intros Hm Hf s Hs. unfold finally.
  destruct (Hm s Hs) as [Hi (t & Ht & HP)].
  destruct (Hf (m s).2 Hi) as [Hi2 (t2 & Ht2 & HP2)].
  assert (I (f (m s).2).2 ∧ ∃ t, trace (f (m s).2).2 = trace s ++ t ∧ Forall P t) as Hboth.
  { split; [done|]. exists (t ++ t2).
    rewrite Ht2, Ht, app_assoc. split; [done|]. by apply Forall_app. }
  destruct (m s) as [[a | x |] s1]; simpl in *; [| |by eauto];
    destruct (f s1) as [[[] | y |] s2]; simpl in *; done.
Qed.

Lemma extends_for_each {A} (l : list A) (body : A → M unit) :
  (∀ x, x ∈ l → extends I P (body x)) → extends I P (for_each l body).
Proof.
  induction l as [|x l IH]; intros Hb; simpl.
  - apply (extends_ret tt).
  - apply extends_bind; [apply Hb; left|].
    intros _. apply IH. intros y Hy. apply Hb. by right.
Qed.
End Frame.

Lemma extends_bind_post {A B} (I : State → Prop) (P : Effect → Prop)
    (Q : A → Prop) (m : M A) (k : A → M B) :
  extends I P m →
  (∀ s a s', I s → m s = (Returned a, s') → Q a) →
  (∀ a, Q a → extends I P (k a)) →
  extends I P (m ≫= k).
Proof.
  intros Hm HQ Hk s Hs. rewrite bind_eq.
  destruct (Hm s Hs) as [Hi (t & Ht & HP)].
  destruct (m s) as [[a | x |] s1] eqn:E; simpl in *; [|by eauto..].
  destruct (Hk a (HQ s a s1 Hs E) s1 Hi) as [Hi2 (t2 & Ht2 & HP2)].
  split; [done|]. exists (t ++ t2).
  rewrite Ht2, Ht, app_assoc. split; [done|]. by apply Forall_app.
Qed.

(** Take a computation apart along its syntax; [tac] closes the side
    conditions on the invariant and on the calls. *)
Ltac frame_step tac :=
  lazymatch goal with
  | |- extends _ _ (mret _) => apply extends_ret
  | |- extends _ _ (raise _) => apply extends_raise
  | |- extends _ _ blocked => apply extends_blocked
  | |- extends _ _ get => apply extends_get
  | |- extends _ _ (_ ≫= _) => apply extends_bind; [|intros ?]
  | |- extends _ _ (when _ _) => apply extends_when
  | |- extends _ _ (call _) => apply extends_call; [try tac | try tac]
  | |- extends _ _ (modify _) => apply extends_modify; [try tac | try tac]
  | |- extends _ _ (for_each _ _) => apply extends_for_each; intros ? _
  | |- extends _ _ (try_except _ _) => apply extends_try_except; [|intros ? ? ?]
  | |- extends _ _ (finally _ _) => apply extends_finally
  | |- extends _ _ (if ?b then _ else _) => destruct b eqn:?
  | |- extends _ _ (match ?x with Some _ => _ | None => _ end) => destruct x eqn:?
  | |- extends _ _ (match ?x with [] => _ | _ :: _ => _ end) => destruct x eqn:?
  | |- extends _ _ (match ?x with inl _ => _ | inr _ => _ end) => destruct x eqn:?
  | |- extends _ _ (let '(_, _) := ?x in _) => destruct x
  end.

Ltac frame_with tac := repeat (frame_step tac; simpl).
Ltac frame := frame_with ltac:(done).

(** ** Counting calls *)

Lemma count_app p t1 t2 : count p (t1 ++ t2) = (count p t1 + count p t2)%nat.
Proof. unfold count. by rewrite List.filter_app, length_app. Qed.

Lemma count_cons p e t :
  count p (e :: t) = ((if p e then 1 else 0) + count p t)%nat.
Proof. unfold count. simpl. by destruct (p e). Qed.


(** ** What a computation returns *)







(** ** The ledger of accepted events *)

Lemma is_duplicate_event_eq (event : Event) (add : bool) (s : State) :
  is_duplicate_event event add s =
    (Returned (default true (suppress_dupes (module event))
               && bool_decide (hash_event event ∈ events_accepted s)
               && negb (_force_output event)),
     if add then with_accepted ({[hash_event event]} ∪ events_accepted s) s else s).
Proof. destruct add; reflexivity. Qed.

Lemma accept_event_eq (event : Event) (s : State) :
  accept_event event s =
    (Returned (negb (default true (suppress_dupes (module event))
                     && bool_decide (hash_event event ∈ events_accepted s)
                     && negb (_force_output event))),
     with_accepted ({[hash_event event]} ∪ events_accepted s) s).
Proof.
  unfold accept_event. rewrite bind_eq, is_duplicate_event_eq.
  destruct (_ && _ && _); reflexivity.
Qed.

(** C4, as the code has it.  Of two events [a1], [a2] with the same type,
    value and module from a module that is not of type DNS and suppresses
    duplicates (the default), the second is rejected by [accept_event]
    once the first has been through it, unless the second is
    force-output.  Of two events [d1], [d2] with the same type, value and
    module from a module of type DNS but with different source
    identities, neither yet in the ledger, both are accepted: the hash of
    such an event includes the source identity. *)
Theorem dedup_identity (a1 a2 d1 d2 : Event) (s : State) :
  type a1 = type a2 → data a1 = data a2 → module a1 = module a2 →
  default EmptyString (_type (module a1)) ≠ "DNS" →
  default true (suppress_dupes (module a1)) = true →
  _force_output a2 = false →
  type d1 = type d2 → data d1 = data d2 → module d1 = module d2 →
  _type (module d1) = Some "DNS" →
  source_id d1 ≠ source_id d2 →
  hash_event d1 ∉ events_accepted s → hash_event d2 ∉ events_accepted s →
  (accept_event a2 (accept_event a1 s).2).1 = Returned false
  ∧ hash_event d1 = (event_id d1, name (module d1), Some (source_id d1))
  ∧ (accept_event d1 s).1 = Returned true
  ∧ (accept_event d2 (accept_event d1 s).2).1 = Returned true.
Proof.
  intros Ht Hd Hm Hdns Hsup Hforce Ht' Hd' Hm' Hdns' Hsrc H1 H2.
  rewrite !accept_event_eq. simpl. split.
  - assert (hash_event a2 = hash_event a1) as ->.
    { unfold hash_event, event_id. rewrite <- Hm, Ht, Hd.
      by rewrite bool_decide_eq_false_2. }
    rewrite <- Hm, Hsup, Hforce. rewrite bool_decide_eq_true_2; [done|]. set_solver.
  - assert (hash_event d1 = (event_id d1, name (module d1), Some (source_id d1))) as E1.
    { unfold hash_event. by rewrite Hdns'. }
    assert (hash_event d2 = (event_id d2, name (module d2), Some (source_id d2))) as E2.
    { unfold hash_event. by rewrite <- Hm', Hdns'. }
    split; [done|].
    rewrite (bool_decide_eq_false_2 (hash_event d1 ∈ _)) by done.
    rewrite (bool_decide_eq_false_2 (hash_event d2 ∈ _)).
    + by rewrite !andb_false_r.
    + rewrite elem_of_union, elem_of_singleton. intros [E|E]; [|done].
      rewrite E1, E2 in E. by injection E.
Qed.

(** C9. An event whose producing module has [suppress_dupes] false is
    never a duplicate: whatever the ledger of accepted events holds,
    [is_duplicate_event] returns false and [accept_event] accepts the
    event (and still records its hash). *)
Theorem suppress_dupes_off_always_accepted (event : Event) (add : bool) (s : State) :
  suppress_dupes (module event) = Some false →
  (is_duplicate_event event add s).1 = Returned false
  ∧ (accept_event event s).1 = Returned true
  ∧ hash_event event ∈ events_accepted (accept_event event s).2.
Proof.
  intros H. rewrite is_duplicate_event_eq, accept_event_eq, H. simpl.
  split_and!; [done..|set_solver].
Qed.

(** ** The quick path of [emit_event] *)

Lemma event_precheck_eq (event : Event) (s : State) :
  ∃ b, _event_precheck event s = (Returned b, s).
Proof.
  unfold _event_precheck. repeat case_match; try by eexists.
  rewrite bind_eq, is_duplicate_event_eq. case_match; by eexists.
Qed.

Lemma quick_trace_logged (t : list Effect) (u : nat) :
  ∃ log, ((t ++ [LogError]) ++ [ReleaseSemaphore u]) ++ [SetResolved u]
         = t ++ log ++ [ReleaseSemaphore u; SetResolved u]
    ∧ (log = [] ∨ log = [LogError]).
Proof. exists [LogError]. rewrite <- !app_assoc. auto. Qed.

Lemma quick_trace_plain (t : list Effect) (u : nat) :
  ∃ log, (t ++ [ReleaseSemaphore u]) ++ [SetResolved u]
         = t ++ log ++ [ReleaseSemaphore u; SetResolved u]
    ∧ (log = [] ∨ log = [LogError]).
Proof. exists []. rewrite <- !app_assoc. auto. Qed.


(** C8, as the code has it.  In a call of [emit_event] with [quick] set,
    [abort_if] and [on_success_callback] have no effect; nothing is
    submitted to the event pool; the permit is released and the
    completion signal set, in that order, as the last two calls.  If the
    event passes the precheck and [scan.make_event] returns, the event is
    appended to the central queue before that. *)
Theorem quick_emit_queues_directly (cfg : Config) (event : Event)
    (opts : EmitOpts) (s : State) :
  quick opts = true →
  emit_event cfg event opts s
    = emit_event cfg event
        {| quick := true; abort_if := None; on_success_callback := None |} s
  ∧ pool_tasks (emit_event cfg event opts s).2 = pool_tasks s
  ∧ (∃ log, trace (emit_event cfg event opts s).2
            = trace s ++ log ++ [ReleaseSemaphore (uid event); SetResolved (uid event)]
            ∧ (log = [] ∨ log = [LogError]))
  ∧ (∀ event',
       (_event_precheck event s).1 = Returned true →
       make_event cfg event = inr event' →
       ∃ s', emit_event cfg event opts s = (Returned tt, s')
         ∧ event_queue s' = event_queue s ++ [event']
         ∧ trace s' = trace s
                      ++ [ReleaseSemaphore (uid event); SetResolved (uid event)]).
Proof.
  intros Hq. unfold emit_event. rewrite !bind_eq, Hq. simpl.
  destruct (event_precheck_eq event s) as [b ->]. simpl.
  split; [done|].
  destruct b; simpl.
  - unfold queue_event, finally, try_except.
    destruct (make_event cfg event) as [x|event'] eqn:Hmk; simpl.
    + destruct x; simpl; (split; [done|]); (split; [|by intros ? _ [=]]);
        first [ apply quick_trace_logged | apply quick_trace_plain ].
    + split; [done|]. split; [apply quick_trace_plain|].
      intros ? _ [= <-]. eexists. split; [reflexivity|]. simpl.
      by rewrite <- app_assoc.
  - split; [done|]. split; [apply quick_trace_plain|by intros ? [=]].
Qed.


(** ** The pipeline run: what it calls on its own event *)

Section Pipeline.
Context (u : nat) (I : State → Prop).
Context (I_trace : ∀ s t, I s → I (with_trace t s)).
Context (I_accepted : ∀ s a, I s → I (with_accepted a s)).
Context (I_pool : ∀ s p, I s → I (with_pool_tasks p s)).
Context (I_status : ∀ s x b, I s → I (with_status x b s)).
Context (I_uid : ∀ s, I s → I (with_next_uid (S (next_uid s)) s)).
Context (I_fresh : ∀ s, I s → (u < next_uid s)%nat).
Local Abbreviation P := (not_about u).

Local Ltac side :=
  first [ by auto
        | by (unfold not_about; simpl; rewrite ?bool_decide_eq_false_2 by done) ].

Lemma pipe_is_duplicate_event event add : extends I P (is_duplicate_event event add).
Proof. unfold is_duplicate_event. frame_with side. Qed.

Lemma pipe_event_precheck event : extends I P (_event_precheck event).
Proof.
  unfold _event_precheck. frame_with side. apply pipe_is_duplicate_event.
Qed.

Lemma pipe_emit_event cfg child :
  uid child ≠ u → extends I P (emit_event cfg child no_opts).
Proof.
  intros Hu. unfold emit_event, submit_task. frame_with side.
  - apply pipe_event_precheck.
  - match goal with H : _ = Some _ |- _ => revert H end.
    destruct (is_Exception x); intros [= <-]. frame_with side.
Qed.

Lemma pipe_make_dns_name cfg value mod_ source :
  extends I P (make_dns_name cfg value mod_ source).
Proof.
  intros s Hs. unfold make_dns_name.
  destruct (valid_dns_name cfg value); simpl.
  - rewrite ?bind_eq. simpl. split; [by apply I_uid|].
    exists []. by rewrite app_nil_r.
  - split; [done|]. exists []. by rewrite app_nil_r.
Qed.

Lemma make_dns_name_fresh cfg value mod_ source s a s' :
  I s → make_dns_name cfg value mod_ source s = (Returned a, s') → uid a ≠ u.
Proof.
  intros Hs. unfold make_dns_name. destruct (valid_dns_name cfg value); [|done].
  rewrite !bind_eq. simpl. intros [= <- _]. simpl.
  specialize (I_fresh s Hs). lia.
Qed.

Lemma pipe_make_dns_children cfg children source_event :
  extends I P (make_dns_children cfg children source_event).
Proof.
  induction children as [|[record rdtype] children IH]; simpl; frame_with side.
  - apply pipe_make_dns_name.
  - match goal with H : _ = Some _ |- _ => revert H end.
    destruct x; intros [= <-]. frame_with side.
  - apply IH.
Qed.

Lemma make_dns_children_fresh cfg children source_event :
  ∀ s l s', I s → make_dns_children cfg children source_event s = (Returned l, s') →
            Forall (λ c, uid c ≠ u) l.
Proof.
  induction children as [|[record rdtype] children IH]; intros s l s' Hs; simpl.
  - by intros [= <- _].
  - rewrite bind_eq. unfold try_except at 1. rewrite bind_eq.
    pose proof (pipe_make_dns_name cfg record (dns_module cfg rdtype) source_event s Hs)
      as [Hs1 _].
    pose proof (make_dns_name_fresh cfg record (dns_module cfg rdtype) source_event s)
      as Hfresh.
    destruct (make_dns_name _ _ _ _ s) as [[c | x |] s1]; simpl in *.
    + rewrite bind_eq.
      specialize (IH s1).
      destruct (make_dns_children _ _ _ s1) as [[cs | y |] s2]; simpl; [|done..].
      intros [= <- _]. constructor; eauto.
    + destruct x; simpl; try done.
      rewrite bind_eq. specialize (IH s1).
      destruct (make_dns_children _ _ _ s1) as [[cs | y |] s2]; simpl; [|done..].
      intros [= <- _]. eauto.
    + done.
Qed.

Lemma pipe_catch {A} force (callback : Callable (M A)) :
  extends I P (__call__ callback) → extends I P (catch force None callback).
Proof.
  intros Hc. unfold catch, scan_stop.
  destruct (__qualname__ callback); [|apply extends_raise].
  frame_with side; [done|].
  match goal with H : _ = Some _ |- _ => revert H end.
  destruct x; intros [= <-]; frame_with side.
Qed.

Lemma pipe_emit_children cfg opts event children :
  uid event = u → extends I P (emit_children cfg opts event children).
Proof.
  intros Hu. unfold emit_children. apply extends_bind; [|intros _].
  { frame_with side. apply pipe_catch. unfold run_callback. simpl.
    frame_with side. }
  apply extends_bind; [|intros source_event].
  - match goal with |- extends _ _ (if ?b then _ else _) => destruct b end;
      [|apply extends_ret].
    eapply extends_bind_post;
      [apply pipe_make_dns_name | apply make_dns_name_fresh | intros a Ha].
    frame_with side. apply pipe_emit_event. by destruct (has_tag "target" event).
  - apply extends_when.
    eapply extends_bind_post;
      [apply pipe_make_dns_children | apply make_dns_children_fresh | intros l Hl].
    apply extends_for_each. intros c Hc. apply pipe_emit_event.
    by eapply Forall_forall in Hl.
Qed.


Lemma pipe_queue_event cfg event :
  (∀ s q t, I s → I (with_queue q t s)) → extends I P (queue_event cfg event).
Proof. intros I_queue. unfold queue_event. frame_with side. Qed.

Lemma pipe_accept_event event : extends I P (accept_event event).
Proof. unfold accept_event. frame_with side. apply pipe_is_duplicate_event. Qed.



End Pipeline.

(** The shape of a run of [try_stages] that keeps [I] and [P] up to its
    [finally] block. *)
Lemma try_stages_shape {X A V} (I : State → Prop) (P : Effect → Prop)
    (Q : X → Prop) (a : M X) (b : X → M A)
    (h : exn → option (M A)) (v : X → V) (dflt : V) (f : V → M unit) (s : State) :
  extends I P a →
  (∀ s x s', I s → a s = (Returned x, s') → Q x) →
  (∀ x, Q x → extends I P (b x)) →
  (∀ e k, h e = Some k → extends I P k) →
  I s →
  ∃ s1 t w,
    I s1 ∧ trace s1 = trace s ++ t ∧ Forall P t
    ∧ (w = dflt ∨ ∃ x, Q x ∧ w = v x)
    ∧ ((try_stages a b h v dflt f s).1 = Blocked
       ∨ ∃ o, (try_stages a b h v dflt f s) = (o, (f w s1).2)
              ∧ ((f w s1).1 = Returned tt → o ≠ Blocked)).
Proof.
  intros Ha HQ Hb Hh Hs. unfold try_stages.
  destruct (Ha s Hs) as [HI1 (t1 & Ht1 & HP1)]. specialize (HQ s).
  destruct (a s) as [[x | e |] s1]; simpl in *.
  - pose proof (extends_try_except I P (b x) h (Hb x (HQ x s1 Hs eq_refl)) Hh s1 HI1)
      as [HI2 (t2 & Ht2 & HP2)].
    exists (try_except (b x) h s1).2, (t1 ++ t2), (v x).
    split_and!; [done | by rewrite Ht2, Ht1, app_assoc | by apply Forall_app
                | right; by eauto |].
    unfold finally.
    destruct (try_except (b x) h s1) as [[r | e |] s2]; simpl; [| |by left];
      right; destruct (f (v x) s2) as [[[] | y |] s3]; simpl; eexists;
      (split; [reflexivity|]); done.
  - pose proof (extends_try_except I P (raise e) h (extends_raise I P e) Hh s1 HI1)
      as [HI2 (t2 & Ht2 & HP2)].
    exists (try_except (raise e) h s1).2, (t1 ++ t2), dflt.
    split_and!; [done | by rewrite Ht2, Ht1, app_assoc | by apply Forall_app
                | by left |].
    unfold finally.
    destruct (try_except (raise e) h s1) as [[r | e' |] s2]; simpl; [| |by left];
      right; destruct (f dflt s2) as [[[] | y |] s3]; simpl; eexists;
      (split; [reflexivity|]); done.
  - exists s1, t1, dflt. split_and!; [done | done | done | by left | by left].
Qed.

(** ** What the first stage of a run hands to the second *)




Lemma count_not_about (u : nat) (t : list Effect) :
  Forall (not_about u) t →
  count (is_release u) t = 0%nat ∧ count (is_set_resolved u) t = 0%nat
  ∧ count (is_stats_emitted u) t = 0%nat.
Proof.
  induction 1 as [|e t (H1 & H2 & H3) _ (IH1 & IH2 & IH3)]; [done|].
  by rewrite !count_cons, H1, H2, H3, IH1, IH2, IH3.
Qed.

(** ** The calls of the DNS helper come first *)

Lemma for_each_call (l : list Effect) (s : State) :
  for_each l call s = (Returned tt, with_trace (trace s ++ l) s).
Proof.
  revert s. induction l as [|e l IH]; intros s; simpl.
  - destruct s. unfold with_trace. simpl. by rewrite app_nil_r.
  - rewrite bind_eq. simpl. rewrite IH. unfold with_trace. simpl.
    by rewrite <- app_assoc.
Qed.








(** ** A blacklist verdict *)






(** ** The wait of a pipeline run *)

Lemma wait_resolved_blocked (polls : list Poll) (event : Event) (s : State) :
  Forall (λ p, poll_stopping p = false ∧ poll_resolved p = false) polls →
  wait_resolved polls event s = (Blocked, s).
Proof.
  induction 1 as [|p polls [H1 H2] _ IH]; simpl; [done|]. by rewrite H1, H2.
Qed.

(** C2. The polling loop of a pipeline run reads the completion signal of
    the event itself, not that of its parent.  A run of an event that is
    not whitelisted stays in the loop as long as its own signal is unset
    and the scan is not stopping, whether or not the parent's signal has
    fired; and as soon as its own signal is set it leaves the loop with
    the parent's current distance plus one, whether or not the parent's
    signal has fired. *)
Theorem wait_reads_the_events_own_signal (cfg : Config) (event : Event)
    (opts : EmitOpts) (dns : DnsResult) (s : State) :
  skip_dns_resolution cfg event = false →
  resolve_event cfg event = inr dns →
  event_whitelisted_dns dns
    || whitelisted cfg (set_resolved_hosts (resolved_hosts dns) event) = false →
  (∀ polls,
     Forall (λ p, poll_stopping p = false ∧ poll_resolved p = false) polls →
     _emit_event cfg polls event opts s
     = (Blocked, with_trace (trace s ++ resolve_calls cfg event) s))
  ∧ (∀ p rest ev,
       poll_stopping p = false → poll_resolved p = true →
       wait_resolved (p :: rest) ev s
       = (Returned (set_scope_distance (poll_source_distance p + 1) ev), s)).
Proof.
  intros Hskip Hres Hwl. split.
  - intros polls Hpolls.
    unfold _emit_event, try_stages, resolve_and_queue, resolve_and_classify.
    unfold skip_dns_resolution in Hskip. rewrite Hskip, Hres. cbv zeta.
    rewrite Hwl. simpl negb. rewrite orb_true_l, !bind_eq.
    rewrite for_each_call, !bind_eq.
    by rewrite wait_resolved_blocked.
  - intros p rest ev H1 H2. simpl. by rewrite H1, H2.
Qed.

(** ** The dispatcher *)

Lemma mod_queue_event_middle (done_ todo : list Module) (m : Module) (x : Item)
    (s : State) :
  modules s = done_ ++ m :: todo → queue_fault m = None →
  mod_queue_event (length done_) x s
  = (Returned tt,
     with_trace (trace s ++ [Deliver (info m) x])
       (with_modules (done_ ++ push_incoming x m :: todo) s)).
Proof.
  intros Hm Hf. unfold mod_queue_event. rewrite bind_eq. simpl.
  rewrite Hm. rewrite list_lookup_middle by done. rewrite Hf.
  rewrite bind_eq. simpl. unfold call, modify. simpl.
  replace (length done_) with (length done_ + 0)%nat by lia.
  by rewrite insert_app_r.
Qed.

Lemma distribute_to_spec cfg event dup (todo : list Module) :
  ∀ (done_ : list Module) (rec_ : bool) (s : State),
    modules s = done_ ++ todo →
    Forall (λ m, queue_fault m = None) todo →
    ∃ s',
      distribute_to cfg event dup (seq (length done_) (length todo)) rec_ s
        = (Returned tt, s')
      ∧ modules s' = done_ ++ map (spec_deliver cfg event dup) todo
      ∧ trace s' = trace s ++ delivery_trace cfg event dup todo rec_
      ∧ events_distributed s' = events_distributed s
      ∧ event_queue s' = event_queue s.
Proof.
  induction todo as [|m todo IH]; intros done_ rec_ s Hm Hf; simpl.
  - exists s. rewrite !app_nil_r in *. done.
  - apply Forall_cons in Hf as [Hf1 Hf].
    assert (∀ m' rec' s1, modules s1 = done_ ++ m' :: todo →
              ∃ s', distribute_to cfg event dup (seq (S (length done_)) (length todo))
                      rec' s1 = (Returned tt, s')
                ∧ modules s' = done_ ++ m' :: map (spec_deliver cfg event dup) todo
                ∧ trace s' = trace s1 ++ delivery_trace cfg event dup todo rec'
                ∧ events_distributed s' = events_distributed s1
                ∧ event_queue s' = event_queue s1) as Hnext.
    { intros m' rec' s1 Hm1.
      destruct (IH (done_ ++ [m']) rec' s1) as (s' & E & M' & T & D & Q);
        [by rewrite <- app_assoc | done |].
      rewrite length_app in E. simpl in E.
      replace (length done_ + 1)%nat with (S (length done_)) in E by lia.
      rewrite <- app_assoc in M'. eauto 10. }
    rewrite bind_eq. simpl. rewrite Hm. rewrite list_lookup_middle by done.
    unfold spec_deliver at 1.
    remember (spec_receives cfg event dup (info m)) as r eqn:Hr.
    remember (is_output (info m)) as o eqn:Ho.
    unfold spec_receives, spec_within in Hr. rewrite <- Ho in Hr.
    unfold is_output in Ho. rewrite <- Ho.
    destruct (negb dup || accept_dupes (info m)); simpl in Hr; subst r;
      [|by apply Hnext].
    destruct o; simpl.
    + destruct (_ || _); simpl; [|by apply Hnext].
      rewrite bind_eq, (mod_queue_event_middle done_ todo m) by done.
      destruct rec_; simpl.
      * edestruct Hnext as (s' & E & M' & T & D & Q); [|exists s'; rewrite E].
        { simpl. reflexivity. }
        rewrite M', T, D, Q. simpl. by rewrite <- app_assoc.
      * rewrite bind_eq. simpl.
        edestruct Hnext as (s' & E & M' & T & D & Q); [|exists s'; rewrite E].
        { simpl. reflexivity. }
        rewrite M', T, D, Q. simpl. by rewrite <- !app_assoc.
    + destruct (_ && _); simpl; [|by apply Hnext].
      rewrite bind_eq, (mod_queue_event_middle done_ todo m) by done.
      edestruct Hnext as (s' & E & M' & T & D & Q); [|exists s'; rewrite E].
      { simpl. reflexivity. }
      rewrite M', T, D, Q. simpl. by rewrite <- app_assoc.
Qed.





(** ** The completion detector *)

Lemma any_positive_false (d : gmap string Z) :
  map_Forall (λ _ n, 0 ≤ n) d → (any_positive d = false ↔ all_zero d).
Proof.
  intros Hd. unfold any_positive, all_zero.
  rewrite <- not_true_iff_false, existsb_exists. split.
  - intros Hno k n Hk. specialize (Hd k n Hk). simpl in Hd.
    destruct (decide (n = 0)) as [|Hn]; [done|]. exfalso. apply Hno.
    exists (k, n). split; [|simpl; lia].
    apply list_elem_of_In. by apply elem_of_map_to_list.
  - intros Hz [[k n] [Hin Hpos]]. simpl in Hpos.
    apply list_elem_of_In, elem_of_map_to_list in Hin.
    specialize (Hz k n Hin). simpl in Hz. lia.
Qed.

Lemma check_pass_true (r : Reading) :
  counts_are_sizes r → (check_pass r true = true ↔ quiet r).
Proof.
  intros [He Ht]. unfold check_pass, quiet.
  rewrite <- (any_positive_false _ He), <- (any_positive_false _ Ht).
  assert (existsb (λ m, running m.1.2) (module_status r) = false
          ↔ Forall (λ m, running m.1.2 = false) (module_status r)) as <-.
  { rewrite <- not_true_iff_false, existsb_exists, Forall_forall. split.
    - intros Hno m Hm. destruct (running m.1.2) eqn:E; [|done].
      exfalso. apply Hno. exists m. split; [by apply list_elem_of_In|done].
    - intros Hall (m & Hm & Hr). apply list_elem_of_In in Hm.
      rewrite (Hall m Hm) in Hr. done. }
  destruct (any_positive (queued_events r)), (any_positive (queued_tasks r)),
    (existsb _ _); intuition congruence.
Qed.

Lemma set_error_states_spec (l : list (string * ModStatus * bool)) (s : State) :
  ∃ s', for_each l (λ m, when (errored m.1.2 && m.2) (call (SetErrorState m.1.1))) s
          = (Returned tt, s')
    ∧ count is_sleep (trace s') = count is_sleep (trace s).
Proof.
  revert s. induction l as [|m l IH]; intros s; simpl; [by eauto|].
  rewrite bind_eq. destruct (errored m.1.2 && m.2); simpl.
  - destruct (IH (with_trace (trace s ++ [SetErrorState m.1.1]) s)) as (s' & E & C).
    exists s'. rewrite E, C. simpl. by rewrite count_app.
  - apply IH.
Qed.

Lemma status_passes_spec (readings : nat → Reading) :
  (∀ j, counts_are_sizes (readings j)) →
  ∀ (passes i : nat) (s : State),
    ∃ (k : nat) (fin : bool) (s' : State),
      (k ≤ passes)%nat
      ∧ status_passes readings i passes true s = (Returned (fin, readings (i + k)%nat), s')
      ∧ count is_sleep (trace s') = (count is_sleep (trace s) + k)%nat
      ∧ (∀ j, (j < k)%nat → quiet (readings (i + j)%nat))
      ∧ (fin = true ↔ quiet (readings (i + k)%nat))
      ∧ (fin = true → k = passes).
Proof.
  intros Hwf. induction passes as [|p IH]; intros i s; simpl.
  - destruct (set_error_states_spec (module_status (readings i)) s) as (s1 & E & C).
    exists 0%nat, (check_pass (readings i) true), s1.
    rewrite bind_eq, E, C, !Nat.add_0_r. simpl.
    split_and!; [lia | done | done | intros; lia | by apply check_pass_true | done].
  - destruct (set_error_states_spec (module_status (readings i)) s) as (s1 & E & C).
    rewrite bind_eq, E. simpl.
    destruct (check_pass (readings i) true) eqn:Hc.
    + destruct (IH (S i) (with_trace (trace s1 ++ [Sleep]) s1))
        as (k & fin & s' & Hk & E' & C' & Hq & Hfin & Hlast).
      exists (S k), fin, s'. rewrite bind_eq. simpl.
      replace (i + S k)%nat with (S i + k)%nat by lia.
      rewrite E', C'. simpl. rewrite count_app, C. simpl.
      change (count is_sleep [Sleep]) with 1%nat.
      split_and!; [lia | done | lia | | done | intros; f_equal; auto].
      intros [|j] Hj.
      * rewrite Nat.add_0_r. by apply check_pass_true.
      * replace (i + S j)%nat with (S i + j)%nat by lia. apply Hq. lia.
    + exists 0%nat, false, s1. rewrite !Nat.add_0_r, C.
      split_and!; [lia | done | done | intros; lia | | done].
      rewrite <- check_pass_true, Hc by done. done.
Qed.

(** C5. With no argument [modules_status] makes up to five passes.  Each
    pass takes a fresh reading and finds the scan finished exactly when
    every scan-level queued-event count and every pool's queued-task
    count is zero and no module reports itself running.  The first pass
    that finds the scan unfinished ends the call at once with
    [finished = false]; [finished = true] is returned only when all five
    passes agree, with a sleep between consecutive passes. *)
Theorem modules_status_default_passes (readings : nat → Reading) (s : State) :
  (∀ j, counts_are_sizes (readings j)) →
  ∃ (st : Status) (s' : State),
    modules_status false None readings s = (Returned st, s')
    ∧ (finished st = true ↔ ∀ i, (i < 5)%nat → quiet (readings i))
    ∧ (∀ k, (k < 5)%nat → (∀ i, (i < k)%nat → quiet (readings i)) →
            ¬ quiet (readings k) →
            finished st = false
            ∧ status_scan st = (queued_events (readings k), queued_tasks (readings k))
            ∧ count is_sleep (trace s') = (count is_sleep (trace s) + k)%nat)
    ∧ ((∀ i, (i < 5)%nat → quiet (readings i)) →
         status_scan st = (queued_events (readings 4%nat), queued_tasks (readings 4%nat))
         ∧ count is_sleep (trace s') = (count is_sleep (trace s) + 4)%nat).
Proof.
  intros Hwf. unfold modules_status. rewrite bind_eq.
  change (Z.to_nat (5 - 1)) with 4%nat.
  destruct (status_passes_spec readings Hwf 4 0 s)
    as (k & fin & s' & Hk & E & C & Hq & Hfin & Hlast).
  rewrite E. simpl in *. eexists; exists s'. split; [reflexivity|]. simpl.
  assert ((∀ i, (i < 5)%nat → quiet (readings i)) → fin = true ∧ k = 4%nat) as Hall.
  { intros Hall. assert (fin = true) by (apply Hfin, Hall; lia). auto. }
  split_and!.
  - split; [|by intros H; apply Hall].
    intros Hf i Hi. specialize (Hlast Hf). subst k.
    destruct (decide (i = 4%nat)) as [->|]; [by apply Hfin|]. apply Hq. lia.
  - intros k0 Hk0 Hbefore Hnot.
    assert (k = k0) as ->.
    { destruct (Nat.lt_trichotomy k k0) as [Hlt | [-> | Hgt]]; [|done|].
      - assert (fin = true) as Hf by (apply Hfin, Hbefore, Hlt).
        specialize (Hlast Hf). lia.
      - destruct Hnot. by apply Hq. }
    split_and!; [|done|done].
    destruct fin; [|done]. destruct Hnot. by apply Hfin.
  - intros H. destruct (Hall H) as [_ ->]. done.
Qed.

(** ** The driver loop calls no report hook and keeps the registry *)

Lemma reports_app t1 t2 : reports (t1 ++ t2) = reports t1 ++ reports t2.
Proof. apply omap_app. Qed.

Lemma reports_not_report t : Forall not_report t → reports t = [].
Proof.
  induction 1 as [|e t He _ IH]; [done|].
  change (e :: t) with ([e] ++ t). by rewrite reports_app, He, IH.
Qed.

(** The completion detector only sleeps and sets error states. *)
Section Detector.
Context (I : State → Prop) (P : Effect → Prop).
Context (I_trace : ∀ s t, I s → I (with_trace t s)).
Context (P_sleep : P Sleep) (P_error : ∀ m, P (SetErrorState m)).

Lemma detector_status_passes readings i passes fin :
  extends I P (status_passes readings i passes fin).
Proof.
  revert i fin. induction passes as [|p IH]; intros i fin; simpl;
    frame_with ltac:(by auto).
  apply IH.
Qed.

Lemma detector_modules_status lg passes readings :
  extends I P (modules_status lg passes readings).
Proof.
  unfold modules_status. frame_with ltac:(by auto).
  apply detector_status_passes.
Qed.
End Detector.

Section Dispatch.
Context (ns : list ModuleInfo) (q : list Event).
Local Abbreviation I := (dispatch_inv ns q).
Local Abbreviation P := not_report.

Lemma dispatch_mod_queue_event i x : extends I P (mod_queue_event i x).
Proof.
  intros s [Hs Hq]. unfold mod_queue_event. rewrite bind_eq. simpl.
  destruct (modules s !! i) as [m|] eqn:Hm; simpl.
  - destruct (queue_fault m); simpl.
    + split; [done|]. exists []. by rewrite app_nil_r.
    + split.
      * split; [|done]. simpl. rewrite <- Hs, list_fmap_insert.
        simpl. apply list_insert_id. by rewrite list_lookup_fmap, Hm.
      * eexists [_]. split; [done|]. by constructor.
  - split; [done|]. exists []. by rewrite app_nil_r.
Qed.

Lemma dispatch_distribute_to cfg event dup idx rec_ :
  extends I P (distribute_to cfg event dup idx rec_).
Proof.
  revert rec_. induction idx as [|i idx IH]; intros rec_; simpl; [frame|].
  frame; auto using dispatch_mod_queue_event.
Qed.

Lemma dispatch_distribute_event cfg event : extends I P (distribute_event cfg event).
Proof. unfold distribute_event. frame. apply dispatch_distribute_to. Qed.
End Dispatch.

Section Registry.
Context (ns : list ModuleInfo).
Local Abbreviation I := (same_registry ns).
Local Abbreviation P := not_report.

Lemma registry_mod_queue_event i x : extends I P (mod_queue_event i x).
Proof.
  intros s Hs.
  destruct (dispatch_mod_queue_event ns (event_queue s) i x s) as [[? _] ?]; done.
Qed.

Lemma registry_distribute_event cfg event : extends I P (distribute_event cfg event).
Proof.
  intros s Hs.
  destruct (dispatch_distribute_event ns (event_queue s) cfg event s) as [[? _] ?]; done.
Qed.

Lemma registry_modules_status lg passes readings :
  extends I P (modules_status lg passes readings).
Proof. by apply detector_modules_status. Qed.

Lemma registry_driver_loop cfg ticks counter event_counter :
  extends I P (driver_loop cfg ticks counter event_counter).
Proof.
  revert counter event_counter.
  induction ticks as [|t ticks IH]; intros counter event_counter; simpl; frame;
    auto using registry_modules_status.
  all: auto using registry_mod_queue_event, registry_distribute_event.
Qed.
End Registry.

(** ** The report hooks *)

Lemma catch_report_spec (m : Module) (s : State) :
  ∃ s' hooks, (catch true None (method "report" (mod_report m));; mret tt) s = (Returned tt, s')
    ∧ trace s' = trace s ++ hooks
    ∧ reports hooks = [info m]
    ∧ modules s' = modules s
    ∧ event_queue s' = event_queue s
    ∧ events_distributed s' = events_distributed s.
Proof.
  unfold catch, method, mod_report. unfold_monad. simpl.
  rewrite orb_true_r.
  destruct (report_fault m) as [[]|]; simpl; eexists; eexists;
    (split; [reflexivity|]); simpl; rewrite <- ?app_assoc; simpl; done.
Qed.

Lemma report_all_spec (ms : list Module) (s : State) :
  ∃ s' hooks,
    for_each ms (λ mod_, catch true None (method "report" (mod_report mod_));; mret tt) s
      = (Returned tt, s')
    ∧ trace s' = trace s ++ hooks
    ∧ reports hooks = map info ms
    ∧ modules s' = modules s
    ∧ event_queue s' = event_queue s
    ∧ events_distributed s' = events_distributed s.
Proof.
  revert s. induction ms as [|m ms IH]; intros s; simpl.
  - exists s, []. by rewrite app_nil_r.
  - destruct (catch_report_spec m s) as (s1 & h1 & E1 & T1 & R1 & M1 & Q1 & D1).
    destruct (IH s1) as (s2 & h2 & E2 & T2 & R2 & M2 & Q2 & D2).
    exists s2, (h1 ++ h2).
    rewrite bind_eq, E1, E2, T2, T1, reports_app, R1, R2, M2, M1, Q2, Q1, D2, D1.
    by rewrite <- app_assoc.
Qed.

Lemma catch_all_outcome {A} (m : M A) (s : State) (k1 k2 : M A) :
  (∀ s, ∃ a, (k1 s).1 = Returned a) → (∀ s, ∃ a, (k2 s).1 = Returned a) →
  let r := try_except m (λ e, match e with
                              | KeyboardInterrupt => Some k1
                              | _ => Some k2
                              end) s in
  (∃ a, r.1 = Returned a) ∨ r.1 = Blocked.
Proof.
  intros H1 H2. unfold try_except.
  destruct (m s) as [[a | x |] s1]; simpl; [by eauto| |by eauto].
  left. destruct x; simpl; auto.
Qed.

(** C10. If [distribute_event] raises on the event the driver loop has
    just taken off the central queue, the loop stops iterating at once,
    whatever would follow: the events still queued stay where they are.
    If the loop raises anything but [KeyboardInterrupt], this is logged at
    critical level and [loop_until_finished] returns.  And however the
    loop ends (normally, aborted, interrupted or after such an
    exception), the report hook of every registered module is then called
    exactly once, in registry order, whatever the hooks themselves raise. *)
Theorem driver_loop_failure_and_reports (cfg : Config) :
  (∀ (t : Tick) (rest : list Tick) (counter event_counter : Z) (s s2 : State)
     (event : Event) (q : list Event) (x : exn),
     tick_stop t = false → status s ≠ "ABORTING" → tick_log t = None →
     event_queue s ++ tick_arrivals t = event :: q →
     distribute_event cfg event (with_queue q (queued_event_types s) s)
       = (Raised x, s2) →
     driver_loop cfg (t :: rest) counter event_counter s = (Raised x, s2)
     ∧ event_queue s2 = q)
  ∧ (∀ (ticks : list Tick) (s s2 : State) (x : exn),
       (call OnStart;; driver_loop cfg ticks 0 0) s = (Raised x, s2) →
       is_Exception x = true →
       ∃ s' hooks,
         loop_until_finished cfg ticks s = (Returned tt, s')
         ∧ trace s' = trace s2 ++ LogCritical :: hooks
         ∧ reports hooks = map info (modules s)
         ∧ event_queue s' = event_queue s2
         ∧ modules s' = modules s2
         ∧ events_distributed s' = events_distributed s2)
  ∧ (∀ (ticks : list Tick) (s : State),
       (loop_until_finished cfg ticks s).1 ≠ Blocked →
       (loop_until_finished cfg ticks s).1 = Returned tt
       ∧ reports (trace (loop_until_finished cfg ticks s).2)
         = reports (trace s) ++ map info (modules s)).
Proof.
  split_and!.
  - intros t rest counter event_counter s s2 event q x Hstop Hst Hlog Hq Hd.
    destruct (dispatch_distribute_event (map info (modules s)) q cfg event _
                (conj eq_refl eq_refl : dispatch_inv _ _
                   (with_queue q (queued_event_types s) s)))
      as [[_ Hq2] _].
    rewrite Hd in Hq2. split; [|done].
    simpl. unfold_monad. simpl. rewrite Hstop. simpl.
    rewrite bool_decide_eq_false_2 by done. rewrite Hlog. simpl.
    rewrite Hq. simpl. unfold with_queue in *. simpl in *.
    rewrite Hd. done.
  - intros ticks s s2 x Hloop Hx.
    pose proof (registry_driver_loop (map info (modules s)) cfg ticks 0 0) as Hdl.
    assert (extends (same_registry (map info (modules s))) not_report
              (call OnStart;; driver_loop cfg ticks 0 0)) as Hbody by (frame; done).
    destruct (Hbody s eq_refl) as [Hns _]. rewrite Hloop in Hns. simpl in Hns.
    destruct (report_all_spec (modules s2) (with_trace (trace s2 ++ [LogCritical]) s2))
      as (s' & hooks & E & T & R & Hm & Hqq & Hdd).
    exists s', hooks. unfold loop_until_finished, finally, try_except.
    rewrite Hloop.
    assert (match x with
            | KeyboardInterrupt => Some scan_stop
            | _ => Some (call LogCritical)
            end = Some (call LogCritical)) as -> by (by destruct x).
    simpl. rewrite bind_eq. simpl. rewrite E.
    rewrite T, R, Hm, Hqq, Hdd, Hns. simpl. by rewrite <- app_assoc.
  - intros ticks s Hnb.
    pose proof (registry_driver_loop (map info (modules s)) cfg ticks 0 0) as Hdl.
    set (body := try_except (call OnStart;; driver_loop cfg ticks 0 0)
                   (λ e, match e with
                         | KeyboardInterrupt => Some scan_stop
                         | _ => Some (call LogCritical)
                         end)) in *.
    assert (extends (same_registry (map info (modules s))) not_report body) as Hbody.
    { subst body. frame; [done|].
      match goal with H : _ = Some _ |- _ => revert H end.
      unfold scan_stop. by destruct x; intros [= <-]; frame. }
    destruct (Hbody s eq_refl) as [Hns (t1 & Ht1 & HP1)].
    pose proof (catch_all_outcome (call OnStart;; driver_loop cfg ticks 0 0) s
                  scan_stop (call LogCritical)) as Hout.
    revert Hnb. unfold loop_until_finished, finally. fold body in Hout |- *.
    destruct (body s) as [o s1]. simpl in *.
    destruct Hout as [[[] ->] | ->]; [by eexists..| |done].
    destruct (report_all_spec (modules s1) s1) as (s' & hooks & E & T & R & _).
    rewrite bind_eq. simpl. rewrite E. simpl. intros _. split; [done|].
    rewrite T, Ht1, !reports_app, R, (reports_not_report t1), Hns, app_nil_r; done.
Qed.

(** ** The driver loop on an idle queue *)

Lemma modules_status_quiet (readings : nat → Reading) (s : State) :
  (∀ j, counts_are_sizes (readings j)) →
  (∀ i, (i < 5)%nat → quiet (readings i)) →
  ∃ st s', modules_status false None readings s = (Returned st, s')
    ∧ finished st = true ∧ status s' = status s ∧ modules s' = modules s
    ∧ event_queue s' = event_queue s.
Proof.
  intros Hwf Hq.
  pose proof (detector_modules_status
                (λ s0, status s0 = status s ∧ modules s0 = modules s
                       ∧ event_queue s0 = event_queue s) (λ _, True))
    as Hframe.
  destruct (Hframe (λ _ _ H, H) I (λ _, I) false None readings s)
    as [(H1 & H2 & H3) _]; [done|].
  unfold modules_status in *. rewrite bind_eq in *.
  change (Z.to_nat (5 - 1)) with 4%nat in *.
  destruct (status_passes_spec readings Hwf 4 0 s)
    as (k & fin & s' & Hk & E & C & _ & Hfin & _).
  rewrite E in *. simpl in *. eexists; exists s'. split; [reflexivity|]. simpl.
  split_and!; [|done..]. apply Hfin, Hq. lia.
Qed.

(** C3. On an idle central queue with the completion detector reporting
    the scan finished, the driver loop ends at once, whatever the number
    of events dequeued in this cycle: the status of the scan is not set
    to ["FINISHING"], no module receives the ["FINISHED"] sentinel, and
    the loop does not continue. *)
Theorem driver_loop_ends_despite_new_events (cfg : Config) (t : Tick)
    (rest : list Tick) (counter event_counter : Z) (s : State) :
  0 < event_counter →
  tick_stop t = false → status s ≠ "ABORTING" → tick_log t = None →
  event_queue s = [] → tick_arrivals t = [] →
  (∀ j, counts_are_sizes (tick_readings t j)) →
  (∀ i, (i < 5)%nat → quiet (tick_readings t i)) →
  ∃ s', driver_loop cfg (t :: rest) counter event_counter s = (Returned tt, s')
    ∧ status s' = status s
    ∧ modules s' = modules s.
Proof.
  intros _ Hstop Hst Hlog Hq Harr Hwf Hquiet. simpl.
  unfold_monad. simpl. rewrite Hstop. simpl.
  rewrite bool_decide_eq_false_2 by done. rewrite Hlog, Harr, Hq. simpl.
  destruct (modules_status_quiet (tick_readings t)
              (with_queue [] (queued_event_types s) s) Hwf Hquiet)
    as (st & s' & E & Hfin & Hs & Hm & _).
  rewrite E. simpl. rewrite Hfin. by exists s'.
Qed.

(** ** The properties on the small scan *)

Lemma quiet_reading_sizes : counts_are_sizes quiet_reading.
Proof.
  split; unfold quiet_reading; simpl;
    repeat (apply map_Forall_insert_2; [done|]); apply map_Forall_empty.
Qed.

Lemma quiet_reading_quiet : quiet quiet_reading.
Proof.
  split_and!; unfold quiet_reading; simpl;
    [ repeat (apply map_Forall_insert_2; [done|]); apply map_Forall_empty
    | repeat (apply map_Forall_insert_2; [done|]); apply map_Forall_empty
    | by repeat constructor ].
Qed.

Lemma busy_reading_sizes : counts_are_sizes busy_reading.
Proof.
  split; unfold busy_reading; simpl;
    repeat (apply map_Forall_insert_2; [done|]); apply map_Forall_empty.
Qed.

Lemma busy_reading_not_quiet : ¬ quiet busy_reading.
Proof.
  intros (_ & H & _). specialize (H "dns" 2). simpl in H.
  by specialize (H eq_refl).
Qed.



(** C2 on an event that is no target: three polls after the parent's
    signal has fired the run is still waiting; and a poll that finds the
    event's own signal set ends the wait although the parent's has not
    fired. *)
Lemma wait_reads_the_events_own_signal_witness :
  _emit_event demo_cfg
    [parent_resolved_poll; parent_resolved_poll; parent_resolved_poll]
    other_org no_opts (demo_state demo_modules [])
  = (Blocked, demo_state demo_modules [])
  ∧ wait_resolved [own_resolved_poll] other_org (demo_state demo_modules [])
    = (Returned (set_scope_distance 5 other_org), demo_state demo_modules []).
Proof.
  destruct (wait_reads_the_events_own_signal demo_cfg other_org no_opts demo_dns
              (demo_state demo_modules [])) as [H1 H2];
    [reflexivity | reflexivity | reflexivity |].
  split.
  - apply H1. repeat constructor.
  - apply (H2 own_resolved_poll [] other_org); reflexivity.
Defined.

(** C3 on an idle tick after one dequeued event. *)
Lemma driver_loop_ends_despite_new_events_witness :
  ∃ s', driver_loop demo_cfg [idle_tick] 0 1 (demo_state demo_modules [])
        = (Returned tt, s')
    ∧ status s' = "RUNNING"
    ∧ modules s' = demo_modules.
Proof.
  apply (driver_loop_ends_despite_new_events demo_cfg idle_tick [] 0 1
           (demo_state demo_modules []));
    [lia | reflexivity | vm_compute; discriminate | reflexivity | reflexivity
    | reflexivity | intros; apply quiet_reading_sizes
    | intros; apply quiet_reading_quiet].
Defined.

(** C4: a second, force-output event with the same type, value and
    module is accepted. *)
Lemma dedup_force_output_counterexample :
  type (ip_address 5 "1.2.3.4" scan_module false)
    = type (ip_address 6 "1.2.3.4" scan_module true)
  ∧ data (ip_address 5 "1.2.3.4" scan_module false)
    = data (ip_address 6 "1.2.3.4" scan_module true)
  ∧ module (ip_address 5 "1.2.3.4" scan_module false)
    = module (ip_address 6 "1.2.3.4" scan_module true)
  ∧ _type scan_module ≠ Some "DNS"
  ∧ suppress_dupes scan_module = None
  ∧ (accept_event (ip_address 6 "1.2.3.4" scan_module true)
       (accept_event (ip_address 5 "1.2.3.4" scan_module false)
          (demo_state demo_modules [])).2).1 = Returned true.
Proof. split_and!; [reflexivity.. | discriminate | reflexivity | reflexivity]. Qed.

Lemma dedup_identity_witness :
  (accept_event (ip_address 6 "1.2.3.4" scan_module false)
     (accept_event (ip_address 5 "1.2.3.4" scan_module false)
        (demo_state demo_modules [])).2).1 = Returned false
  ∧ (accept_event
       (dns_name 7 "www.example.com" (dns_dummy_module "A")
          ("DNS_NAME", "example.com") 1 ∅)
       (demo_state demo_modules [])).1 = Returned true
  ∧ (accept_event
       (dns_name 8 "www.example.com" (dns_dummy_module "A")
          ("DNS_NAME", "cdn.example.com") 1 ∅)
       (accept_event
          (dns_name 7 "www.example.com" (dns_dummy_module "A")
             ("DNS_NAME", "example.com") 1 ∅)
          (demo_state demo_modules [])).2).1 = Returned true.
Proof.
  destruct (dedup_identity
              (ip_address 5 "1.2.3.4" scan_module false)
              (ip_address 6 "1.2.3.4" scan_module false)
              (dns_name 7 "www.example.com" (dns_dummy_module "A")
                 ("DNS_NAME", "example.com") 1 ∅)
              (dns_name 8 "www.example.com" (dns_dummy_module "A")
                 ("DNS_NAME", "cdn.example.com") 1 ∅)
              (demo_state demo_modules [])) as (H1 & _ & H2 & H3);
    [reflexivity | reflexivity | reflexivity | vm_compute; discriminate
    | reflexivity | reflexivity | reflexivity | reflexivity | reflexivity
    | reflexivity | vm_compute; discriminate
    | simpl; apply not_elem_of_empty | simpl; apply not_elem_of_empty |].
  split_and!; assumption.
Defined.

(** C5: two quiet readings and then a busy one. *)
Lemma modules_status_default_passes_witness :
  ∃ st s',
    modules_status false None
      (λ i, if (i <? 2)%nat then quiet_reading else busy_reading)
      (demo_state demo_modules []) = (Returned st, s')
    ∧ finished st = false
    ∧ count is_sleep (trace s') = 2%nat.
Proof.
  destruct (modules_status_default_passes
              (λ i, if (i <? 2)%nat then quiet_reading else busy_reading)
              (demo_state demo_modules []))
    as (st & s' & E & _ & Hfirst & _).
  - intros j. destruct (j <? 2)%nat;
      [apply quiet_reading_sizes | apply busy_reading_sizes].
  - exists st, s'. split; [exact E|].
    destruct (Hfirst 2%nat) as (Hf & _ & Hs).
    + lia.
    + intros i Hi. destruct i as [|[|i]]; [apply quiet_reading_quiet.. | lia].
    + apply busy_reading_not_quiet.
    + split; [exact Hf | exact Hs].
Defined.





(** C8: with [quick] set a dummy event is not queued. *)
Lemma quick_emit_dummy_counterexample :
  quick quick_opts = true
  ∧ event_queue (emit_event demo_cfg dummy_event quick_opts
                   (demo_state demo_modules [])).2 = [].
Proof. split; reflexivity. Qed.

Lemma quick_emit_queues_directly_witness :
  ∃ s', emit_event demo_cfg example_com quick_opts (demo_state demo_modules [])
        = (Returned tt, s')
    ∧ event_queue s' = [example_com]
    ∧ pool_tasks s' = []
    ∧ trace s' = [ReleaseSemaphore 1; SetResolved 1].
Proof.
  destruct (quick_emit_queues_directly demo_cfg example_com quick_opts
              (demo_state demo_modules [])) as (_ & Hp & _ & Hq);
    [reflexivity|].
  destruct (Hq example_com) as (s' & E & Hqueue & Ht); [reflexivity | reflexivity |].
  exists s'. rewrite E in Hp. split_and!; [exact E | exact Hqueue | exact Hp | exact Ht].
Defined.

(** C9 on a record found by DNS resolution. *)
Lemma suppress_dupes_off_always_accepted_witness :
  (accept_event
     (dns_name 7 "www.example.com" (dns_dummy_module "A")
        ("DNS_NAME", "example.com") 1 ∅)
     (accept_event
        (dns_name 7 "www.example.com" (dns_dummy_module "A")
           ("DNS_NAME", "example.com") 1 ∅)
        (demo_state demo_modules [])).2).1 = Returned true.
Proof.
  destruct (suppress_dupes_off_always_accepted
              (dns_name 7 "www.example.com" (dns_dummy_module "A")
                 ("DNS_NAME", "example.com") 1 ∅)
              true
              (accept_event
                 (dns_name 7 "www.example.com" (dns_dummy_module "A")
                    ("DNS_NAME", "example.com") 1 ∅)
                 (demo_state demo_modules [])).2) as (_ & H & _);
    [reflexivity | exact H].
Defined.

(** C10: the first module's queue raises on the first of two queued
    events, and its report hook raises too. *)
Lemma driver_loop_failure_and_reports_witness :
  ∃ s',
    loop_until_finished demo_cfg [idle_tick; idle_tick]
      (demo_state [faulty_worker scan_module; worker output_module]
         [example_com; other_org])
    = (Returned tt, s')
    ∧ event_queue s' = [other_org]
    ∧ reports (trace s') = [scan_module; output_module].
Proof.
  destruct (driver_loop_failure_and_reports demo_cfg) as (H1 & H2 & H3).
  destruct (H1 idle_tick [idle_tick] 0 0
              (with_trace [OnStart]
                 (demo_state [faulty_worker scan_module; worker output_module]
                    [example_com; other_org]))
              (distribute_event demo_cfg example_com
                 (with_queue [other_org] ∅
                    (with_trace [OnStart]
                       (demo_state [faulty_worker scan_module; worker output_module]
                          [example_com; other_org])))).2
              example_com [other_org] OtherException)
    as [Hraise Hq];
    [reflexivity | vm_compute; discriminate | reflexivity | reflexivity
    | reflexivity |].
  destruct (H2 [idle_tick; idle_tick]
              (demo_state [faulty_worker scan_module; worker output_module]
                 [example_com; other_org]) _ OtherException Hraise)
    as (s' & hooks & E & _ & _ & Hq' & _); [reflexivity|].
  exists s'. split_and!; [exact E | by rewrite Hq' |].
  destruct (H3 [idle_tick; idle_tick]
              (demo_state [faulty_worker scan_module; worker output_module]
                 [example_com; other_org])) as [_ Hr].
  - rewrite E. discriminate.
  - rewrite E in Hr. exact Hr.
Defined.

(** ** Runs of the small scan *)

(** A target that passes the precheck is handed to the event pool, and
    nothing is released or set yet. *)
Example emit_event_submits :
  emit_event demo_cfg example_com no_opts (demo_state demo_modules [])
  = (Returned tt, with_pool_tasks [target_task] (demo_state demo_modules [])).
Proof. reflexivity. Qed.

(** The pool's worker then runs the task: the event is queued, its DNS
    child is submitted, and the calls made are these. *)
Example target_run :
  let r := run_task demo_cfg [] target_task (demo_state demo_modules []) in
  r.1 = Returned (Some tt)
  ∧ trace r.2 = [ReleaseSemaphore 1; StatsEmitted 1; StatsFunctionCalled]
  ∧ map data (event_queue r.2) = ["example.com"]
  ∧ map (λ t, data (task_event t)) (pool_tasks r.2) = ["www.example.com"].
Proof. vm_compute. done. Qed.

(** With DNS resolution off the same target skips resolution, and there
    the signal is set. *)
Example target_run_without_dns :
  trace (run_task offline_cfg [] target_task (demo_state demo_modules [])).2
  = [SetResolved 1; ReleaseSemaphore 1; StatsEmitted 1; StatsFunctionCalled].
Proof. reflexivity. Qed.

(** A blacklisted target: tagged, not queued, child still submitted. *)
Example blacklisted_run :
  let r := run_task demo_cfg [] {| task_event := evil_com; task_opts := no_opts |}
             (demo_state demo_modules []) in
  trace r.2 = [ReleaseSemaphore 2; StatsFunctionCalled]
  ∧ event_queue r.2 = []
  ∧ map (λ t, data (task_event t)) (pool_tasks r.2) = ["www.example.com"].
Proof. vm_compute. done. Qed.

(** When the scan stops during the wait, the run is cancelled, the
    permit released, and nothing else happens. *)
Example cancelled_run :
  let r := run_task demo_cfg
             [parent_resolved_poll;
              {| poll_stopping := true; poll_resolved := false;
                 poll_source_resolved := true; poll_source_distance := 0 |}]
             {| task_event := other_org; task_opts := no_opts |}
             (demo_state demo_modules []) in
  r.1 = Returned None
  ∧ trace r.2 = [ReleaseSemaphore 3; StatsFunctionCalled]
  ∧ event_queue r.2 = [] ∧ pool_tasks r.2 = [].
Proof. vm_compute. done. Qed.

(** One event, then an idle queue: the loop ends, every module has just
    the event in its queue, and the status is unchanged. *)
Example one_event_scan :
  let r := loop_until_finished demo_cfg [idle_tick; idle_tick]
             (demo_state demo_modules [example_com]) in
  r.1 = Returned tt
  ∧ status r.2 = "RUNNING"
  ∧ map incoming (modules r.2) = [[EventItem example_com]; [EventItem example_com]]
  ∧ count is_stats_produced (trace r.2) = 1%nat
  ∧ count is_sleep (trace r.2) = 4%nat.
Proof. vm_compute. done. Qed.

(** An aborted scan: the queue is drained without dispatch, and the
    report hooks still run. *)
Example aborted_scan :
  let r := loop_until_finished demo_cfg
             [{| tick_stop := true; tick_log := None; tick_arrivals := [];
                 tick_readings := λ _, busy_reading |}]
             (demo_state demo_modules [example_com; other_org]) in
  r.1 = Returned tt
  ∧ event_queue r.2 = []
  ∧ map incoming (modules r.2) = [[]; []]
  ∧ reports (trace r.2) = [scan_module; output_module].
Proof. vm_compute. done. Qed.

(** * Further properties of the manager *)

(** ** The precheck *)

(** X1.  The precheck reads the ledger and the filters but changes nothing,
    and it turns away every dummy event and every event that is its own
    source. *)
Theorem event_precheck_rejects (event : Event) (s : State) :
  (_event_precheck event s).2 = s
  ∧ (_dummy event = true ∨ event_id event = source_id event →
     (_event_precheck event s).1 = Returned false).
Proof.
  destruct (event_precheck_eq event s) as [b Hb]. rewrite Hb. split; [done|].
  revert Hb. unfold _event_precheck. intros Hb [Hd | Hs].
  - rewrite Hd in Hb. by injection Hb as <-.
  - destruct (_dummy event); [by injection Hb as <-|].
    rewrite bool_decide_eq_true_2 in Hb by done. by injection Hb as <-.
Qed.

(** X2.  A DNS_NAME event that is neither a dummy nor its own source passes the
    precheck whatever the ledger of accepted events holds and whatever the
    modules' filters say, even with no module registered; without [quick]
    and with a working pool, [emit_event] then submits exactly one task
    and calls nothing. *)
Theorem dns_name_bypasses_precheck (cfg : Config) (event : Event)
    (opts : EmitOpts) (s : State) :
  type event = "DNS_NAME" → _dummy event = false →
  event_id event ≠ source_id event →
  _event_precheck event s = (Returned true, s)
  ∧ (quick opts = false → pool_fault s = None →
     emit_event cfg event opts s
     = (Returned tt,
        with_pool_tasks (pool_tasks s ++ [{| task_event := event; task_opts := opts |}]) s)).
Proof.
  intros Ht Hd Hs.
  assert (_event_precheck event s = (Returned true, s)) as Hp.
  { unfold _event_precheck. rewrite Hd, Ht.
    by rewrite bool_decide_eq_false_2, bool_decide_eq_true_2. }
  split; [done|]. intros Hq Hpool.
  unfold emit_event. rewrite bind_eq, Hp. simpl. rewrite Hq.
  unfold try_except, submit_task. rewrite bind_eq. simpl. by rewrite Hpool.
Qed.

(** X3.  An event of any other type is turned away when no registered module's
    filter would take it, in particular when no module is registered. *)
Theorem unwanted_event_rejected (event : Event) (s : State) :
  type event ≠ "DNS_NAME" →
  Forall (λ m, _filter_event m event = false) (modules s) →
  _event_precheck event s = (Returned false, s).
Proof.
  intros Ht Hf. unfold _event_precheck.
  repeat case_match; try done.
  - rewrite bind_eq, is_duplicate_event_eq. simpl. case_match; [done|].
    rewrite bind_eq. simpl. unfold mret, M_ret, ret. f_equal. f_equal.
    apply not_true_iff_false. rewrite existsb_exists.
    intros (m & Hm & Hacc). apply list_elem_of_In in Hm.
    eapply Forall_forall in Hf; [|done]. simpl in Hf. congruence.
  - by rewrite bool_decide_eq_false_2 in * by done.
Qed.

(** ** Emitting an event again *)

(** X4.  Once an event of a type other than DNS_NAME has been through
    [accept_event], emitting it again is a no-op apart from releasing its
    permit and setting its signal: nothing is queued and nothing
    submitted, with or without [quick].  This holds for a module that
    suppresses duplicates and an event that is not force-output. *)
Theorem emit_event_again_is_dropped (cfg : Config) (event : Event)
    (opts : EmitOpts) (s : State) :
  type event ≠ "DNS_NAME" →
  default true (suppress_dupes (module event)) = true →
  _force_output event = false →
  emit_event cfg event opts (accept_event event s).2
  = (Returned tt,
     with_trace (trace (accept_event event s).2
                 ++ [ReleaseSemaphore (uid event); SetResolved (uid event)])
       (accept_event event s).2).
Proof.
  intros Ht Hsup Hforce. rewrite accept_event_eq. simpl.
  set (s1 := with_accepted _ s).
  assert (_event_precheck event s1 = (Returned false, s1)) as Hp.
  { unfold _event_precheck. repeat case_match; try done.
    - rewrite bind_eq, is_duplicate_event_eq. simpl.
      rewrite Hsup, Hforce, bool_decide_eq_true_2; [done|].
      subst s1. simpl. set_solver.
    - by rewrite bool_decide_eq_false_2 in * by done. }
  unfold emit_event. rewrite bind_eq, Hp. simpl. rewrite !bind_eq. simpl.
  unfold call, modify, with_trace. simpl. by rewrite <- app_assoc.
Qed.

(** ** A pool that refuses, a factory that fails *)

(** X5.  When the event pool refuses the task of an event that passed the
    precheck: a [RuntimeError] (the pool is shut down) is swallowed
    silently, any other [Exception] is logged, and in both cases the
    permit is released and the signal set; a [KeyboardInterrupt] escapes
    and leaves the permit held and the signal unset. *)
Theorem refused_submission (cfg : Config) (event : Event) (opts : EmitOpts)
    (s : State) (x : exn) :
  _event_precheck event s = (Returned true, s) →
  quick opts = false → pool_fault s = Some x →
  emit_event cfg event opts s
  = match x with
    | KeyboardInterrupt => (Raised KeyboardInterrupt, s)
    | RuntimeError =>
        (Returned tt,
         with_trace (trace s ++ [ReleaseSemaphore (uid event); SetResolved (uid event)]) s)
    | _ =>
        (Returned tt,
         with_trace (trace s ++ [LogError; ReleaseSemaphore (uid event);
                                 SetResolved (uid event)]) s)
    end.
Proof.
  intros Hp Hq Hx. unfold emit_event. rewrite bind_eq, Hp. simpl. rewrite Hq.
  unfold try_except, submit_task. rewrite bind_eq. simpl. rewrite Hx.
  destruct x; simpl; rewrite ?bind_eq; simpl; rewrite ?bind_eq; simpl;
    unfold call, modify, with_trace; simpl;
    rewrite <- ?app_assoc; done.
Qed.

(** X6.  On the quick path a failing [scan.make_event] queues nothing; the
    permit is released and the signal set all the same, and only a
    [KeyboardInterrupt] is passed on to the caller. *)
Theorem quick_emit_with_failing_factory (cfg : Config) (event : Event)
    (opts : EmitOpts) (s : State) (x : exn) :
  _event_precheck event s = (Returned true, s) →
  quick opts = true → make_event cfg event = inl x →
  event_queue (emit_event cfg event opts s).2 = event_queue s
  ∧ queued_event_types (emit_event cfg event opts s).2 = queued_event_types s
  ∧ (emit_event cfg event opts s).1
    = (if is_Exception x then Returned tt else Raised KeyboardInterrupt)
  ∧ trace (emit_event cfg event opts s).2
    = trace s ++ (if is_Exception x then [LogError] else [])
      ++ [ReleaseSemaphore (uid event); SetResolved (uid event)].
Proof.
  intros Hp Hq Hx. unfold emit_event. rewrite bind_eq, Hp. simpl. rewrite Hq.
  unfold finally, try_except, queue_event. rewrite Hx.
  destruct x; simpl; rewrite ?bind_eq; simpl; unfold call, modify, with_trace;
    simpl; rewrite <- ?app_assoc; done.
Qed.

(** ** The central queue and its counters *)

Lemma for_each_app {A} (l1 l2 : list A) (body : A → M unit) (s : State) :
  for_each (l1 ++ l2) body s = (for_each l1 body;; for_each l2 body) s.
Proof.
  revert s. induction l1 as [|x l1 IH]; intros s; simpl; [done|].
  rewrite !bind_eq. destruct (body x s) as [[[] | e |] s1]; simpl; [|done..].
  rewrite IH. by rewrite bind_eq.
Qed.

Lemma queue_event_made (cfg : Config) (e e' : Event) (s : State) :
  make_event cfg e = inr e' →
  ∃ s', queue_event cfg e s = (Returned tt, s')
    ∧ event_queue s' = event_queue s ++ [e']
    ∧ (∀ t, queued_count t s' = queued_count t s + count_type t [e'])
    ∧ with_queue (event_queue s) (queued_event_types s) s' = s.
Proof.
  intros Hmk. unfold queue_event. rewrite Hmk, bind_eq. simpl.
  eexists. split; [reflexivity|]. simpl. split; [done|]. split; [|by destruct s].
  intros t. unfold queued_count, count_type. simpl.
  destruct (decide (type e' = t)) as [<-|Hne].
  - rewrite bool_decide_eq_true_2 by done. simpl.
    destruct (queued_event_types s !! type e') as [n|] eqn:E; simpl;
      by rewrite lookup_insert_eq.
  - rewrite bool_decide_eq_false_2 by done. simpl.
    destruct (queued_event_types s !! type e') as [n|] eqn:E; simpl;
      rewrite lookup_insert_ne by done; lia.
Qed.

Lemma count_type_app (t : string) (l1 l2 : list Event) :
  count_type t (l1 ++ l2) = count_type t l1 + count_type t l2.
Proof. unfold count_type. rewrite List.filter_app, length_app. lia. Qed.

(** X7.  Events queued one after the other, with a [scan.make_event] that
    accepts each of them, end up at the back of the central queue in that
    order, and the counter of every event type goes up by the number of
    queued events of that type (a type seen for the first time starts at
    1); nothing else in the manager changes.  If [scan.make_event] then
    refuses a further event, its exception is passed on and the events
    queued so far stay queued and counted. *)
Theorem queue_events_in_order (cfg : Config) (es made : list Event) (s : State) :
  Forall2 (λ e e', make_event cfg e = inr e') es made →
  ∃ s', for_each es (queue_event cfg) s = (Returned tt, s')
    ∧ event_queue s' = event_queue s ++ made
    ∧ (∀ t, queued_count t s' = queued_count t s + count_type t made)
    ∧ with_queue (event_queue s) (queued_event_types s) s' = s
    ∧ (∀ e x rest, make_event cfg e = inl x →
         for_each (es ++ e :: rest) (queue_event cfg) s = (Raised x, s')).
Proof.
  intros Hmk.
  assert (∃ s', for_each es (queue_event cfg) s = (Returned tt, s')
    ∧ event_queue s' = event_queue s ++ made
    ∧ (∀ t, queued_count t s' = queued_count t s + count_type t made)
    ∧ with_queue (event_queue s) (queued_event_types s) s' = s)
    as (s' & E & Hq & Hc & Hrest).
  { revert s. induction Hmk as [|e e' es made He _ IH]; intros s; simpl.
    - exists s. rewrite app_nil_r. split_and!; [done..| |by destruct s].
      intros t. unfold count_type. simpl. lia.
    - destruct (queue_event_made cfg e e' s He) as (s1 & E1 & Q1 & C1 & R1).
      destruct (IH s1) as (s2 & E2 & Q2 & C2 & R2).
      exists s2. rewrite bind_eq, E1, E2, Q2, Q1, <- app_assoc.
      split_and!; [done..| |].
      + intros t. rewrite C2, C1. change (e' :: made) with ([e'] ++ made).
        rewrite count_type_app. lia.
      + rewrite <- R1, <- R2. by destruct s2. }
  exists s'. split_and!; [done..|].
  intros e x rest He. rewrite for_each_app, bind_eq, E. simpl.
  rewrite bind_eq. unfold queue_event. by rewrite He.
Qed.

(** ** The wrapper [catch] *)


(** X9.  Once a callback run under [catch] has raised [KeyboardInterrupt], the
    scan has been told to stop, and from then on [catch] runs no callback
    that is not forced: it only counts the call and returns [None], or,
    for a callable without a [__qualname__], raises [AttributeError]. *)
Theorem catch_after_interrupt {A B} (force : bool) (callback : Callable (M A))
    (later : Callable (M B)) (s s1 : State) :
  is_Some (__qualname__ callback) →
  negb (stopping s) || force = true →
  __call__ callback s = (Raised KeyboardInterrupt, s1) →
  ∃ s',
    catch force None callback s = (Returned None, s')
    ∧ status s' = "ABORTING" ∧ stopping s' = true
    ∧ trace s' = trace s1 ++ [ScanStop; StatsFunctionCalled]
    ∧ catch false None later s'
      = match __qualname__ later with
        | Some _ => (Returned None, with_trace (trace s' ++ [StatsFunctionCalled]) s')
        | None => (Raised AttributeError, s')
        end.
Proof.
  intros [q Hq] Hrun Hcb. unfold catch at 1. rewrite Hq.
  rewrite !bind_eq. unfold finally, try_except.
  rewrite bind_eq. simpl. rewrite Hrun. rewrite bind_eq, Hcb. simpl.
  unfold scan_stop. rewrite !bind_eq. simpl.
  eexists. split; [reflexivity|]. simpl. rewrite <- app_assoc.
  split_and!; [done..|].
  unfold catch. destruct (__qualname__ later); [|done].
  rewrite !bind_eq. unfold finally, try_except.
  rewrite bind_eq. simpl. done.
Qed.


(** ** What a pipeline run leaves alone *)

Lemma extends_try_stages {X A V} (I : State → Prop) (P : Effect → Prop)
    (a : M X) (b : X → M A) (h : exn → option (M A)) (v : X → V) (dflt : V)
    (f : V → M unit) :
  extends I P a → (∀ x, extends I P (b x)) →
  (∀ e k, h e = Some k → extends I P k) → (∀ w, extends I P (f w)) →
  extends I P (try_stages a b h v dflt f).
Proof.
  intros Ha Hb Hh Hf s Hs. unfold try_stages.
  destruct (Ha s Hs) as [Hi (t & Ht & HP)].
  destruct (a s) as [[x | e |] s1]; simpl in *.
  - destruct (extends_finally I P (try_except (b x) h) (f (v x))
                (extends_try_except I P _ _ (Hb x) Hh) (Hf _) s1 Hi)
      as [Hi2 (t2 & Ht2 & HP2)].
    split; [done|]. exists (t ++ t2).
    rewrite Ht2, Ht, app_assoc. split; [done|]. by apply Forall_app.
  - destruct (extends_finally I P (try_except (raise e) h) (f dflt)
                (extends_try_except I P _ _ (extends_raise I P e) Hh) (Hf _) s1 Hi)
      as [Hi2 (t2 & Ht2 & HP2)].
    split; [done|]. exists (t ++ t2).
    rewrite Ht2, Ht, app_assoc. split; [done|]. by apply Forall_app.
  - eauto.
Qed.

Section PipelineFrame.
Context (s0 : State).
Local Abbreviation I := (pipeline_frame s0).
Local Abbreviation P := (λ _ : Effect, True).

Local Ltac side := by (intros; unfold pipeline_frame in *; simpl in *).
Local Ltac same_trace := exists []; by rewrite app_nil_r.

Lemma pf_is_duplicate_event event add : extends I P (is_duplicate_event event add).
Proof.
  intros s Hs. rewrite is_duplicate_event_eq. destruct add; simpl.
  - split; [|same_trace]. unfold pipeline_frame in *. simpl.
    destruct Hs as (H1 & H2 & H3 & H4 & H5 & H6 & H7 & H8).
    split_and!; [done..| |done|done|done|done].
    etrans; [done|]. apply union_subseteq_r.
  - split; [done|same_trace].
Qed.

Lemma pf_queue_event cfg event : extends I P (queue_event cfg event).
Proof.
  intros s Hs. unfold queue_event.
  destruct (make_event cfg event) as [x|e'] eqn:Hmk; [split; [done|same_trace]|].
  destruct (queue_event_made cfg event e' s Hmk) as (s' & E & Q & C & R).
  unfold queue_event in E. rewrite Hmk in E. rewrite E. simpl.
  split; [|exists []; rewrite <- R; by rewrite app_nil_r].
  destruct Hs as (H1 & H2 & H3 & H4 & H5 & H6 & H7 & H8).
  rewrite <- R in H1, H2, H3, H4, H7, H8. simpl in *.
  split_and!; [done..| | |done|done].
  - etrans; [done|]. rewrite Q. by apply prefix_app_r.
  - intros t. specialize (H6 t). rewrite C. unfold count_type. lia.
Qed.

Lemma pf_submit_task t : extends I P (submit_task t).
Proof.
  intros s Hs. unfold submit_task. rewrite bind_eq. simpl.
  destruct (pool_fault s); simpl; (split; [|same_trace]); [done|].
  destruct Hs as (H1 & H2 & H3 & H4 & H5 & H6 & H7 & H8).
  split_and!; simpl; [done..| |done].
  etrans; [done|]. by apply prefix_app_r.
Qed.

Lemma pf_make_dns_name cfg value mod_ source :
  extends I P (make_dns_name cfg value mod_ source).
Proof.
  intros s Hs. unfold make_dns_name.
  destruct (valid_dns_name cfg value); simpl; [|split; [done|same_trace]].
  rewrite ?bind_eq. simpl. split; [|same_trace].
  destruct Hs as (H1 & H2 & H3 & H4 & H5 & H6 & H7 & H8).
  split_and!; simpl; [done..|lia].
Qed.

Lemma pf_event_precheck event : extends I P (_event_precheck event).
Proof.
  unfold _event_precheck. frame_with side. apply pf_is_duplicate_event.
Qed.

Lemma pf_emit_event cfg event opts : extends I P (emit_event cfg event opts).
Proof.
  unfold emit_event. frame_with side;
    auto using pf_event_precheck, pf_queue_event, pf_submit_task.
  all: match goal with H : _ = Some _ |- _ => revert H end.
  all: destruct (is_Exception x); intros [= <-]; frame_with side.
Qed.

Lemma pf_make_dns_children cfg children source_event :
  extends I P (make_dns_children cfg children source_event).
Proof.
  induction children as [|[record rdtype] children IH]; simpl; frame_with side.
  - apply pf_make_dns_name.
  - match goal with H : _ = Some _ |- _ => revert H end.
    destruct x; intros [= <-]. frame_with side.
  - apply IH.
Qed.

Lemma pf_catch {A} force (callback : Callable (M A)) :
  extends I P (__call__ callback) → extends I P (catch force None callback).
Proof.
  intros Hc. unfold catch, scan_stop.
  destruct (__qualname__ callback); [|apply extends_raise].
  frame_with side; [done|].
  match goal with H : _ = Some _ |- _ => revert H end.
  destruct x; intros [= <-]; frame_with side.
Qed.

Lemma pf_emit_children cfg opts event children :
  extends I P (emit_children cfg opts event children).
Proof.
  unfold emit_children, run_callback.
  frame_with side;
    auto using pf_make_dns_name, pf_emit_event, pf_make_dns_children.
  apply pf_catch. simpl. frame_with side.
Qed.

Lemma pf_wait_resolved polls event : extends I P (wait_resolved polls event).
Proof. induction polls as [|p polls IH]; simpl; frame_with side. apply IH. Qed.

Lemma pf_accept_event event : extends I P (accept_event event).
Proof. unfold accept_event. frame_with side. apply pf_is_duplicate_event. Qed.

Lemma pf_resolve_and_classify cfg polls event :
  extends I P (resolve_and_classify cfg polls event).
Proof.
  unfold resolve_and_classify.
  frame_with side; auto using pf_wait_resolved, pf_is_duplicate_event.
Qed.

Lemma pf_resolve_and_queue cfg polls event opts :
  extends I P (resolve_and_queue cfg polls event opts).
Proof.
  unfold resolve_and_queue.
  frame_with side;
    auto using pf_resolve_and_classify, pf_accept_event, pf_queue_event.
Qed.

Lemma pf_emit_event_run cfg polls event opts :
  extends I P (_emit_event cfg polls event opts).
Proof.
  unfold _emit_event. apply extends_try_stages.
  - apply pf_resolve_and_queue.
  - intros [[[ev em] ch]|]; [apply pf_emit_children|apply extends_ret].
  - intros e k. destruct e; intros [= <-]; apply extends_ret.
  - intros w. frame_with side.
Qed.
End PipelineFrame.

Lemma pipeline_frame_refl (s : State) : pipeline_frame s s.
Proof. unfold pipeline_frame. split_and!; try done. Qed.

(** X11.  A pipeline run, as a worker of the event pool executes it, never
    touches the registry of modules, their inbound queues or the ledger
    of distributed events, however it ends.  What it does change only
    grows: the ledger of accepted events, the central queue and its
    counters, the tasks of the event pool (children it emits), and the
    trace of calls. *)
Theorem pipeline_run_frame (cfg : Config) (polls : list Poll) (t : Task) (s : State) :
  pipeline_frame s (run_task cfg polls t s).2
  ∧ trace s `prefix_of` trace (run_task cfg polls t s).2.
Proof.
  destruct (pf_catch s false
              (method "ScanManager._emit_event"
                 (_emit_event cfg polls (task_event t) (task_opts t)))
              (pf_emit_event_run s cfg polls _ _) s (pipeline_frame_refl s))
    as [HI (tr & Ht & _)].
  split; [done|]. unfold run_task. rewrite Ht. by apply prefix_app_r.
Qed.

(** The same holds for the entry point [emit_event], whichever of its
    three paths it takes. *)
Lemma emit_event_frame (cfg : Config) (event : Event) (opts : EmitOpts) (s : State) :
  pipeline_frame s (emit_event cfg event opts s).2
  ∧ events_accepted (emit_event cfg event opts s).2 = events_accepted s.
Proof.
  split.
  - by destruct (pf_emit_event s cfg event opts s (pipeline_frame_refl s)).
  - unfold emit_event. rewrite bind_eq.
    destruct (event_precheck_eq event s) as [b ->]. simpl.
    destruct b; simpl.
    + destruct (quick opts).
      * unfold finally, try_except, queue_event.
        destruct (make_event cfg event) as [x|e']; simpl.
        -- by destruct x.
        -- done.
      * unfold try_except, submit_task. rewrite bind_eq. simpl.
        destruct (pool_fault s) as [x|]; simpl; [|done].
        by destruct x.
    + done.
Qed.

(** ** What the driver loop leaves alone *)

Lemma module_grows_refl (m : Module) : module_grows m m.
Proof. by unfold module_grows. Qed.

Lemma module_grows_trans (m0 m1 m2 : Module) :
  module_grows m0 m1 → module_grows m1 m2 → module_grows m0 m2.
Proof.
  intros (A1 & A2 & A3 & A4 & A5) (B1 & B2 & B3 & B4 & B5).
  split_and!; [congruence | by etrans | congruence..].
Qed.

Lemma registry_grows_refl (ms : list Module) : Forall2 module_grows ms ms.
Proof. induction ms; constructor; auto using module_grows_refl. Qed.

Lemma registry_grows_trans (l0 l1 l2 : list Module) :
  Forall2 module_grows l0 l1 → Forall2 module_grows l1 l2 →
  Forall2 module_grows l0 l2.
Proof.
  intros H. revert l2. induction H as [|m0 m1 l0 l1 Hm _ IH]; intros l2 H2.
  - by inversion H2.
  - inversion H2; subst. constructor; eauto using module_grows_trans.
Qed.

Lemma registry_grows_push (ms : list Module) (i : nat) (m : Module) (x : Item) :
  ms !! i = Some m → Forall2 module_grows ms (<[i := push_incoming x m]> ms).
Proof.
  revert i. induction ms as [|m' ms IH]; intros [|i] Hi; simpl in *; try done.
  - injection Hi as ->. constructor; [|apply registry_grows_refl].
    split_and!; [done| |done..]. simpl. by apply prefix_app_r.
  - constructor; [apply module_grows_refl|by apply IH].
Qed.

Section DriverFrame.
Context (s0 : State).
Local Abbreviation I := (driver_frame s0).
Local Abbreviation P := (λ _ : Effect, True).

Local Ltac side := by (intros; unfold driver_frame in *; simpl in *).
Local Ltac same_trace := exists []; by rewrite app_nil_r.

Lemma df_mod_queue_event i x : extends I P (mod_queue_event i x).
Proof.
  intros s Hs. unfold mod_queue_event. rewrite bind_eq. simpl.
  destruct (modules s !! i) as [m|] eqn:Hm; simpl; [|split; [done|same_trace]].
  destruct (queue_fault m); simpl; [split; [done|same_trace]|].
  rewrite ?bind_eq. simpl. unfold call, modify. simpl.
  split; [|exists [Deliver (info m) x]; split; [done|by repeat constructor]].
  destruct Hs as (H1 & H2 & H3 & H4 & H5 & H6).
  split_and!; simpl; [done..|].
  eapply registry_grows_trans; [done|]. by apply registry_grows_push.
Qed.

Lemma df_distribute_to cfg event dup idx rec_ :
  extends I P (distribute_to cfg event dup idx rec_).
Proof.
  revert rec_. induction idx as [|i idx IH]; intros rec_; simpl;
    frame_with side; auto using df_mod_queue_event.
Qed.

Lemma df_distribute_event cfg event : extends I P (distribute_event cfg event).
Proof.
  intros s Hs. unfold distribute_event. rewrite bind_eq. simpl.
  set (dup := bool_decide (event_id event ∈ events_distributed s)).
  assert (extends I P
            (when (negb dup && (-1 <? scope_distance event)
                   && (scope_distance event <? 1)) (call (Absorb (uid event)));;
             distribute_to cfg event dup (seq 0 (length (modules s))) false))
    as Hrest by (frame_with side; apply df_distribute_to).
  rewrite bind_eq. destruct (negb dup); simpl; [|by apply Hrest].
  destruct (Hrest (with_distributed ({[event_id event]} ∪ events_distributed s) s))
    as [HI (t & Ht & HP)]; [|by eauto].
  destruct Hs as (H1 & H2 & H3 & H4 & H5 & H6).
  split_and!; simpl; [done..| |done].
  etrans; [done|]. apply union_subseteq_r.
Qed.

Lemma df_driver_loop cfg ticks counter event_counter :
  extends I P (driver_loop cfg ticks counter event_counter).
Proof.
  revert counter event_counter.
  induction ticks as [|t ticks IH]; intros counter event_counter; simpl;
    frame_with side;
    auto using df_mod_queue_event, df_distribute_event.
  all: try (apply detector_modules_status; side).
Qed.

Lemma df_loop_until_finished cfg ticks :
  extends I P (loop_until_finished cfg ticks).
Proof.
  unfold loop_until_finished, scan_stop, catch, method, mod_report. simpl.
  frame_with side; auto using df_driver_loop.
  all: match goal with H : _ = Some _ |- _ => revert H end.
  all: match goal with |- match ?e with _ => _ end = Some _ → _ => destruct e end.
  all: intros [= <-]; unfold scan_stop; frame_with side.
Qed.
End DriverFrame.

(** X12.  The driver loop, report hooks included, never touches the ledger of
    accepted events, the event pool or the supply of event identities,
    however it ends.  The registry keeps its modules, in order, and their
    inbound queues only grow; the ledger of distributed events only
    grows. *)
Theorem driver_loop_frame (cfg : Config) (ticks : list Tick) (s : State) :
  driver_frame s (loop_until_finished cfg ticks s).2
  ∧ trace s `prefix_of` trace (loop_until_finished cfg ticks s).2.
Proof.
  assert (driver_frame s s) as Hs.
  { unfold driver_frame. split_and!; try done. apply registry_grows_refl. }
  destruct (df_loop_until_finished s cfg ticks s Hs) as [HI (tr & Ht & _)].
  split; [done|]. rewrite Ht. by apply prefix_app_r.
Qed.

(** ** More on the dispatcher *)

Lemma spec_deliver_keeps (cfg : Config) (event : Event) (dup : bool) (m : Module) :
  info (spec_deliver cfg event dup m) = info m
  ∧ queue_fault (spec_deliver cfg event dup m) = queue_fault m.
Proof. unfold spec_deliver. by destruct (spec_receives _ _ _ _). Qed.

Lemma spec_deliver_no_fault (cfg : Config) (event : Event) (dup : bool)
    (ms : list Module) :
  Forall (λ m, queue_fault m = None) ms →
  Forall (λ m, queue_fault m = None) (map (spec_deliver cfg event dup) ms).
Proof.
  induction 1 as [|m ms Hm _ IH]; simpl; constructor; [|done].
  by rewrite (proj2 (spec_deliver_keeps cfg event dup m)).
Qed.

Lemma delivery_trace_no_absorb (cfg : Config) (event : Event) (dup : bool)
    (ms : list Module) (rec_ : bool) (u : nat) :
  count (is_absorb u) (delivery_trace cfg event dup ms rec_) = 0%nat.
Proof.
  revert rec_. induction ms as [|m ms IH]; intros rec_; simpl; [done|].
  destruct (spec_receives _ _ _ _); [|done].
  destruct (is_output (info m) && negb rec_); rewrite !count_cons; simpl; by rewrite IH.
Qed.

(** The dispatcher as a whole, for queues that do not refuse. *)
Lemma distribute_event_spec (cfg : Config) (event : Event) (s : State) :
  Forall (λ m, queue_fault m = None) (modules s) →
  let dup := bool_decide (event_id event ∈ events_distributed s) in
  let absorbed := negb dup && bool_decide (scope_distance event = 0) in
  ∃ s',
    distribute_event cfg event s = (Returned tt, s')
    ∧ modules s' = map (spec_deliver cfg event dup) (modules s)
    ∧ trace s' = trace s ++ (if absorbed then [Absorb (uid event)] else [])
                 ++ delivery_trace cfg event dup (modules s) false
    ∧ events_distributed s' = {[event_id event]} ∪ events_distributed s
    ∧ event_queue s' = event_queue s.
Proof.
  intros Hf. cbv zeta. unfold distribute_event. rewrite bind_eq. simpl.
  destruct (decide (event_id event ∈ events_distributed s)) as [Hin|Hni].
  - rewrite !bool_decide_eq_true_2 by done. simpl.
    repeat (rewrite bind_eq; simpl).
    destruct (distribute_to_spec cfg event true (modules s) [] false s)
      as (s' & E & M' & T & D & Q); [done | done |].
    simpl in E, M'. exists s'. rewrite E, M', T, D, Q.
    split_and!; [done..| |done]. symmetry. apply subseteq_union_1_L.
    by apply singleton_subseteq_l.
  - rewrite !(bool_decide_eq_false_2 (event_id event ∈ events_distributed s)) by done.
    simpl. repeat (rewrite bind_eq; simpl).
    destruct (decide (scope_distance event = 0)) as [H0|H0].
    + rewrite (bool_decide_eq_true_2 (scope_distance event = 0)) by done.
      rewrite H0. simpl. repeat (rewrite bind_eq; simpl).
      destruct (distribute_to_spec cfg event false (modules s) [] false
                  (with_trace (trace s ++ [Absorb (uid event)])
                     (with_distributed ({[event_id event]} ∪ events_distributed s) s)))
        as (s' & E & M' & T & D & Q); [done | done |].
      simpl in E, M', T, D, Q. exists s'. rewrite <- app_assoc in T. done.
    + rewrite (bool_decide_eq_false_2 (scope_distance event = 0)) by done.
      assert ((-1 <? scope_distance event) && (scope_distance event <? 1) = false)
        as -> by (apply not_true_iff_false; rewrite andb_true_iff, !Z.ltb_lt; lia).
      simpl. repeat (rewrite bind_eq; simpl).
      destruct (distribute_to_spec cfg event false (modules s) [] false
                  (with_distributed ({[event_id event]} ∪ events_distributed s) s))
        as (s' & E & M' & T & D & Q); [done | done |].
      simpl in E, M', T, D, Q. exists s'. rewrite E, M', T, D, Q. done.
Qed.

(** X13.  Every dispatch leaves the event in the ledger of distributed events,
    and does not touch the central queue.  The word cloud absorbs the
    event exactly when this is its first dispatch and its distance is 0;
    a duplicate is never absorbed again. *)
Theorem dispatch_marks_and_absorbs (cfg : Config) (event : Event) (s : State) :
  Forall (λ m, queue_fault m = None) (modules s) →
  ∃ s',
    distribute_event cfg event s = (Returned tt, s')
    ∧ events_distributed s' = {[event_id event]} ∪ events_distributed s
    ∧ event_queue s' = event_queue s
    ∧ count (is_absorb (uid event)) (trace s')
      = (count (is_absorb (uid event)) (trace s)
         + (if bool_decide (event_id event ∉ events_distributed s)
               && bool_decide (scope_distance event = 0%Z)
            then 1 else 0))%nat.
Proof.
  intros Hf.
  destruct (distribute_event_spec cfg event s Hf) as (s' & E & _ & T & D & Q).
  exists s'. split_and!; [done..|].
  rewrite T, !count_app, delivery_trace_no_absorb.
  destruct (decide (event_id event ∈ events_distributed s)) as [Hin|Hni].
  - rewrite (bool_decide_eq_true_2 (event_id event ∈ _)) by done.
    rewrite (bool_decide_eq_false_2 (event_id event ∉ _)) by (intros Hn; by apply Hn).
    simpl. unfold count. simpl. lia.
  - rewrite (bool_decide_eq_false_2 (event_id event ∈ _)) by done.
    rewrite (bool_decide_eq_true_2 (event_id event ∉ _)) by done. simpl.
    destruct (bool_decide (scope_distance event = 0)); rewrite ?count_cons; simpl;
      rewrite ?bool_decide_eq_true_2 by done; unfold count; simpl; lia.
Qed.

(** X14.  An event that is dispatched once more, or another event with the same
    type and value, is a duplicate: it reaches no module that does not
    accept duplicates, whatever its distance, it is not absorbed again,
    and the ledger stays as it is. *)
Theorem redispatch_reaches_only_dupe_takers (cfg : Config) (event again : Event)
    (s : State) :
  Forall (λ m, queue_fault m = None) (modules s) →
  event_id again = event_id event →
  ∃ s1 s2 t,
    distribute_event cfg event s = (Returned tt, s1)
    ∧ distribute_event cfg again s1 = (Returned tt, s2)
    ∧ events_distributed s2 = events_distributed s1
    ∧ trace s2 = trace s1 ++ t
    ∧ count (is_absorb (uid again)) t = 0%nat
    ∧ modules s2 = map (spec_deliver cfg again true) (modules s1)
    ∧ Forall2 (λ m1 m2, accept_dupes (info m1) = false → m2 = m1)
        (modules s1) (modules s2).
Proof.
  intros Hf Hid.
  destruct (distribute_event_spec cfg event s Hf) as (s1 & E1 & M1 & T1 & D1 & Q1).
  assert (Forall (λ m, queue_fault m = None) (modules s1)) as Hf1.
  { rewrite M1. by apply spec_deliver_no_fault. }
  destruct (distribute_event_spec cfg again s1 Hf1) as (s2 & E2 & M2 & T2 & D2 & Q2).
  assert (bool_decide (event_id again ∈ events_distributed s1) = true) as Hdup.
  { apply bool_decide_eq_true_2. rewrite D1, Hid. apply elem_of_union_l.
    by apply elem_of_singleton. }
  rewrite Hdup in M2, T2. simpl in T2.
  exists s1, s2, (delivery_trace cfg again true (modules s1) false).
  split_and!; [done | done | | done | apply delivery_trace_no_absorb | done |].
  - rewrite D2. apply subseteq_union_1_L, singleton_subseteq_l.
    by apply bool_decide_eq_true_1 in Hdup.
  - rewrite M2. clear. induction (modules s1) as [|m ms IH]; simpl; constructor; [|done].
    intros Hacc. unfold spec_deliver, spec_receives. by rewrite Hacc.
Qed.

Lemma distribute_to_nobody (cfg : Config) (event : Event) (dup : bool) :
  scope_distance event < 0 → _force_output event = false →
  ∀ (idx : list nat) (rec_ : bool) (s : State),
    distribute_to cfg event dup idx rec_ s = (Returned tt, s).
Proof.
  intros Hd Hforce. induction idx as [|i idx IH]; intros rec_ s; simpl; [done|].
  rewrite bind_eq. simpl.
  assert ((-1 <? scope_distance event) = false) as -> by (apply Z.ltb_ge; lia).
  rewrite Hforce. simpl.
  destruct (modules s !! i) as [m|]; [|apply IH].
  destruct (negb dup || accept_dupes (info m)); [|apply IH].
  destruct (bool_decide (_type (info m) = Some "output")); apply IH.
Qed.

(** X15.  An event whose distance is unset (below 0) and that is not
    force-output reaches no module and makes no call, whatever the
    registry holds; it is entered in the ledger of distributed events all
    the same, so that a later dispatch of the same type and value is a
    duplicate. *)
Theorem undelivered_event_is_still_marked (cfg : Config) (event : Event) (s : State) :
  scope_distance event < 0 → _force_output event = false →
  ∃ s',
    distribute_event cfg event s = (Returned tt, s')
    ∧ modules s' = modules s
    ∧ trace s' = trace s
    ∧ events_distributed s' = {[event_id event]} ∪ events_distributed s.
Proof.
  intros Hd Hforce. unfold distribute_event. rewrite !bind_eq. simpl.
  assert ((-1 <? scope_distance event) = false) as -> by (apply Z.ltb_ge; lia).
  rewrite andb_false_r. simpl.
  destruct (decide (event_id event ∈ events_distributed s)) as [Hin|Hni].
  - rewrite bool_decide_eq_true_2 by done. simpl.
    repeat (rewrite bind_eq; simpl).
    rewrite distribute_to_nobody by done. exists s.
    split_and!; [done..|]. symmetry.
    by apply subseteq_union_1_L, singleton_subseteq_l.
  - rewrite bool_decide_eq_false_2 by done. simpl.
    repeat (rewrite bind_eq; simpl).
    rewrite distribute_to_nobody by done. by eexists.
Qed.

Lemma distribute_to_fault (cfg : Config) (event : Event) (dup : bool)
    (m : Module) (x : exn) (post : list Module) :
  queue_fault m = Some x → spec_receives cfg event dup (info m) = true →
  ∀ (pre done_ : list Module) (rec_ : bool) (s : State),
    modules s = done_ ++ pre ++ m :: post →
    Forall (λ m, queue_fault m = None) pre →
    ∃ s',
      distribute_to cfg event dup
        (seq (length done_) (length (pre ++ m :: post))) rec_ s = (Raised x, s')
      ∧ modules s' = done_ ++ map (spec_deliver cfg event dup) pre ++ m :: post
      ∧ trace s' = trace s ++ delivery_trace cfg event dup pre rec_
      ∧ events_distributed s' = events_distributed s
      ∧ event_queue s' = event_queue s.
Proof.
  intros Hx Hr. induction pre as [|p pre IH]; intros done_ rec_ s Hm Hf; simpl.
  - exists s. rewrite app_nil_r. split_and!; [|done..].
    rewrite bind_eq. simpl. simpl in Hm. rewrite Hm, list_lookup_middle by done.
    assert (mod_queue_event (length done_) (EventItem event) s = (Raised x, s)) as Hq.
    { unfold mod_queue_event. rewrite bind_eq. simpl.
      by rewrite Hm, list_lookup_middle, Hx by done. }
    unfold spec_receives, spec_within, is_output in Hr.
    destruct (negb dup || accept_dupes (info m)); simpl in Hr; [|done].
    destruct (bool_decide (_type (info m) = Some "output")); rewrite Hr;
      by rewrite bind_eq, Hq.
  - apply Forall_cons in Hf as [Hf1 Hf].
    assert (∀ p' rec' s1, modules s1 = done_ ++ p' :: pre ++ m :: post →
              ∃ s', distribute_to cfg event dup
                      (seq (S (length done_)) (length (pre ++ m :: post)))
                      rec' s1 = (Raised x, s')
                ∧ modules s' = done_ ++ p' :: map (spec_deliver cfg event dup) pre
                                 ++ m :: post
                ∧ trace s' = trace s1 ++ delivery_trace cfg event dup pre rec'
                ∧ events_distributed s' = events_distributed s1
                ∧ event_queue s' = event_queue s1) as Hnext.
    { intros p' rec' s1 Hm1.
      destruct (IH (done_ ++ [p']) rec' s1) as (s' & E & M' & T & D & Q);
        [by rewrite <- app_assoc | done |].
      rewrite length_app in E. simpl in E.
      replace (length done_ + 1)%nat with (S (length done_)) in E by lia.
      rewrite <- app_assoc in M'. eauto 10. }
    rewrite bind_eq. simpl. simpl in Hm. rewrite Hm.
    rewrite list_lookup_middle by done.
    unfold spec_deliver at 1.
    remember (spec_receives cfg event dup (info p)) as r eqn:Hrp.
    remember (is_output (info p)) as o eqn:Ho.
    unfold spec_receives, spec_within in Hrp. rewrite <- Ho in Hrp.
    unfold is_output in Ho. rewrite <- Ho.
    destruct (negb dup || accept_dupes (info p)); simpl in Hrp; subst r;
      [|by apply Hnext].
    destruct o; simpl.
    + destruct (_ || _); simpl; [|by apply Hnext].
      rewrite bind_eq, (mod_queue_event_middle done_ (pre ++ m :: post) p) by done.
      destruct rec_; simpl.
      * edestruct Hnext as (s' & E & M' & T & D & Q); [|exists s'; rewrite E].
        { simpl. reflexivity. }
        rewrite M', T, D, Q. simpl. by rewrite <- app_assoc.
      * rewrite bind_eq. simpl.
        edestruct Hnext as (s' & E & M' & T & D & Q); [|exists s'; rewrite E].
        { simpl. reflexivity. }
        rewrite M', T, D, Q. simpl. by rewrite <- !app_assoc.
    + destruct (_ && _); simpl; [|by apply Hnext].
      rewrite bind_eq, (mod_queue_event_middle done_ (pre ++ m :: post) p) by done.
      edestruct Hnext as (s' & E & M' & T & D & Q); [|exists s'; rewrite E].
      { simpl. reflexivity. }
      rewrite M', T, D, Q. simpl. by rewrite <- app_assoc.
Qed.

(** X16.  When the queue of a module that is due the event refuses it, the
    dispatch stops there with the module's exception: the modules before
    it in the registry have been served, those after it have not, and the
    event is in the ledger of distributed events already, so that
    dispatching it again would treat it as a duplicate. *)
Theorem failed_dispatch_is_partial (cfg : Config) (event : Event) (s : State)
    (pre post : list Module) (m : Module) (x : exn) :
  modules s = pre ++ m :: post →
  Forall (λ m, queue_fault m = None) pre →
  queue_fault m = Some x →
  let dup := bool_decide (event_id event ∈ events_distributed s) in
  spec_receives cfg event dup (info m) = true →
  ∃ s',
    distribute_event cfg event s = (Raised x, s')
    ∧ modules s' = map (spec_deliver cfg event dup) pre ++ m :: post
    ∧ event_id event ∈ events_distributed s'
    ∧ count is_delivery (trace s')
      = (count is_delivery (trace s)
         + length (filter (λ p, spec_receives cfg event dup (info p) = true) pre))%nat.
Proof.
  intros Hm Hf Hx dup Hr. unfold distribute_event. rewrite bind_eq. simpl.
  fold dup. rewrite Hm.
  assert (∀ rec_, count is_delivery (delivery_trace cfg event dup pre rec_)
          = length (filter (λ p, spec_receives cfg event dup (info p) = true) pre))
    as Hcount.
  { clear. induction pre as [|p pre IH]; intros rec_; simpl; [done|].
    rewrite filter_cons. destruct (spec_receives cfg event dup (info p)) eqn:E.
    - rewrite decide_True by done. simpl.
      destruct (is_output (info p) && negb rec_); rewrite !count_cons; simpl;
        by rewrite IH.
    - rewrite decide_False by done. apply IH. }
  assert (∀ s1, modules s1 = pre ++ m :: post →
            events_distributed s1 = (if dup then events_distributed s
                                     else {[event_id event]} ∪ events_distributed s) →
            count is_delivery (trace s1) = count is_delivery (trace s) →
            ∃ s', distribute_to cfg event dup (seq 0 (length (pre ++ m :: post)))
                    false s1 = (Raised x, s')
              ∧ modules s' = map (spec_deliver cfg event dup) pre ++ m :: post
              ∧ event_id event ∈ events_distributed s'
              ∧ count is_delivery (trace s')
                = (count is_delivery (trace s)
                   + length (filter (λ p, spec_receives cfg event dup (info p) = true)
                               pre))%nat) as Hgo.
  { intros s1 Hm1 Hd1 Ht1.
    destruct (distribute_to_fault cfg event dup m x post Hx Hr pre [] false s1)
      as (s' & E & M' & T & D & _); [done | done |].
    simpl in E, M'. exists s'. rewrite E, M', T, D, Hd1, count_app, Hcount, Ht1.
    split_and!; [done | done | | done].
    subst dup. destruct (decide (event_id event ∈ events_distributed s)).
    - by rewrite bool_decide_eq_true_2.
    - rewrite bool_decide_eq_false_2 by done. apply elem_of_union_l.
      by apply elem_of_singleton. }
  rewrite !bind_eq.
  destruct dup eqn:Edup; simpl.
  - by apply Hgo.
  - destruct (_ && _); simpl; apply Hgo; try done.
    simpl. rewrite count_app. unfold count. simpl. lia.
Qed.

(** ** The completion detector with a given number of passes *)

(** X17.  Called with a number of passes, [modules_status] makes at least one
    pass and at most [max(1, passes)]: with [passes] at 1, at 0 or
    negative it takes a single reading and never sleeps.  It takes a
    further reading, after a sleep, only while every reading so far was
    quiet; the scan is reported finished exactly when all
    [max(1, passes)] readings were quiet, and the counts returned are
    those of the last reading taken. *)
Theorem modules_status_explicit_passes (lg : bool) (p : Z)
    (readings : nat → Reading) (s : State) :
  (∀ j, counts_are_sizes (readings j)) →
  let n := Z.to_nat (Z.max 1 p) in
  ∃ (st : Status) (s' : State) (k : nat),
    modules_status lg (Some p) readings s = (Returned st, s')
    ∧ (k < n)%nat
    ∧ count is_sleep (trace s') = (count is_sleep (trace s) + k)%nat
    ∧ status_scan st = (queued_events (readings k), queued_tasks (readings k))
    ∧ (∀ i, (i < k)%nat → quiet (readings i))
    ∧ (finished st = true ↔ ∀ i, (i < n)%nat → quiet (readings i))
    ∧ (finished st = true → S k = n)
    ∧ (finished st = false → ¬ quiet (readings k)).
Proof.
  intros Hwf n. unfold modules_status. rewrite bind_eq.
  destruct (status_passes_spec readings Hwf (Z.to_nat (Z.max 1 p - 1)) 0 s)
    as (k & fin & s' & Hk & E & C & Hq & Hfin & Hlast).
  rewrite E. simpl in *. eexists _, s', k. split; [reflexivity|]. simpl.
  assert (n = S (Z.to_nat (Z.max 1 p - 1))) as Hn by (subst n; lia).
  split_and!; [lia | done | done | done | | | ].
  - split.
    + intros Hf i Hi. specialize (Hlast Hf).
      destruct (decide (i = k)) as [->|]; [by apply Hfin|]. apply Hq. lia.
    + intros Hall. apply Hfin, Hall. lia.
  - intros Hf. specialize (Hlast Hf). lia.
  - intros Hf Hquiet. apply Hfin in Hquiet. congruence.
Qed.

(** ** The busiest modules of the status line *)

Lemma insert_by_total_perm (x : StatusRow) (l : list StatusRow) :
  insert_by_total x l ≡ₚ x :: l.
Proof.
  induction l as [|y l IH]; simpl; [done|].
  destruct (row_total x <? row_total y); [|done].
  rewrite IH. apply Permutation_swap.
Qed.

Lemma sort_by_total_perm (l : list StatusRow) : sort_by_total l ≡ₚ l.
Proof.
  induction l as [|x l IH]; simpl; [done|].
  by rewrite insert_by_total_perm, IH.
Qed.

Lemma insert_by_total_sorted (x : StatusRow) (l : list StatusRow) :
  StronglySorted (λ a b, row_total b ≤ row_total a) l →
  StronglySorted (λ a b, row_total b ≤ row_total a) (insert_by_total x l).
Proof.
  induction 1 as [|y l Hs IH Hy]; simpl; [by repeat constructor|].
  destruct (row_total x <? row_total y) eqn:E.
  - apply Z.ltb_lt in E. constructor; [done|].
    rewrite insert_by_total_perm. constructor; [lia|done].
  - apply Z.ltb_ge in E. constructor; [by constructor|].
    constructor; [done|]. eapply Forall_impl; [done|]. simpl. intros; lia.
Qed.

Lemma sort_by_total_sorted (l : list StatusRow) :
  StronglySorted (λ a b, row_total b ≤ row_total a) (sort_by_total l).
Proof.
  induction l as [|x l IH]; simpl; [constructor|].
  by apply insert_by_total_sorted.
Qed.

(** The sort is stable: rows with the same total keep their order. *)
Lemma sort_by_total_stable (l : list StatusRow) (t : Z) :
  List.filter (λ r, row_total r =? t) (sort_by_total l)
  = List.filter (λ r, row_total r =? t) l.
Proof.
  induction l as [|x l IH]; simpl; [done|]. rewrite <- IH.
  pose proof (sort_by_total_sorted l) as Hs. clear IH.
  induction Hs as [|y l' Hs IH Hy]; simpl; [done|].
  destruct (row_total x <? row_total y) eqn:E; simpl; [|done].
  apply Z.ltb_lt in E. rewrite IH.
  destruct (row_total x =? t) eqn:Ex; [|done].
  apply Z.eqb_eq in Ex.
  assert ((row_total y =? t) = false) as -> by (apply Z.eqb_neq; lia). done.
Qed.

Lemma filter_sorted {A} (R : A → A → Prop) (f : A → bool) (l : list A) :
  StronglySorted R l → StronglySorted R (List.filter f l).
Proof.
  induction 1 as [|x l Hs IH Hx]; simpl; [constructor|].
  destruct (f x); [|done]. constructor; [done|].
  apply Forall_forall. intros y Hy. apply list_elem_of_In, filter_In in Hy as [Hy _].
  apply list_elem_of_In in Hy. by eapply Forall_forall in Hx.
Qed.

Lemma take_top {A} (R : A → A → Prop) (n : nat) (l : list A) (r : A) :
  StronglySorted R l → r ∈ l → r ∉ take n l →
  length (take n l) = n ∧ Forall (λ x, R x r) (take n l).
Proof.
  intros Hs Hin Hout. rewrite <- (take_drop n l) in Hs, Hin.
  apply elem_of_app in Hin as [Hin|Hin]; [done|].
  split.
  - rewrite length_take. destruct (decide (n ≤ length l)%nat); [lia|].
    rewrite drop_ge in Hin by lia. by apply elem_of_nil in Hin.
  - apply Forall_forall. intros x Hx.
    by eapply StronglySorted_app_1_elem_of.
Qed.

(** X18.  The status line names at most five modules: modules that have tasks
    or a positive total of incoming events, outgoing events and tasks,
    the busiest first; a module of that kind is left out only when five
    modules with at least its total are shown. *)
Theorem busiest_modules_ranked (items : list (string * ModStatus)) :
  let shown := busiest_modules items in
  (length shown ≤ 5)%nat
  ∧ StronglySorted (λ a b, row_total b ≤ row_total a) shown
  ∧ Forall (λ r, r ∈ map status_row items
                 ∧ (row_tasks r ≠ 0 ∨ 0 < row_total r)) shown
  ∧ (∀ r, r ∈ map status_row items →
          row_tasks r ≠ 0 ∨ 0 < row_total r →
          r ∉ shown →
          length shown = 5%nat ∧ Forall (λ x, row_total r ≤ row_total x) shown).
Proof.
  intros shown. subst shown. unfold busiest_modules.
  set (sorted := sort_by_total (map status_row items)).
  assert (StronglySorted (λ a b, row_total b ≤ row_total a)
            (List.filter row_busy sorted)) as Hs
    by apply filter_sorted, sort_by_total_sorted.
  assert (∀ r, r ∈ List.filter row_busy sorted
               ↔ r ∈ map status_row items ∧ (row_tasks r ≠ 0 ∨ 0 < row_total r))
    as Hmem.
  { intros r. rewrite !list_elem_of_In, filter_In, <- !list_elem_of_In.
    subst sorted. rewrite sort_by_total_perm. unfold row_busy.
    rewrite orb_true_iff, negb_true_iff, Z.eqb_neq, Z.ltb_lt. done. }
  split_and!.
  - rewrite length_take. lia.
  - rewrite <- (take_drop 5 (List.filter row_busy sorted)) in Hs.
    by apply StronglySorted_app_1_l in Hs.
  - apply Forall_forall. intros r Hr. apply Hmem.
    by eapply subseteq_take.
  - intros r Hin Hbusy Hout.
    apply (take_top (λ a b, row_total b ≤ row_total a)); [done | by apply Hmem | done].
Qed.

(** ** The driver loop when the scan is aborted or interrupted *)

(** X19.  A scan that is aborting when the driver loop starts an iteration, by
    its status or because it is told to stop just then, has its central
    queue emptied without a single event being dispatched: no module's
    queue and no ledger changes.  The loop ends and the report hook of
    every module is still called. *)
Theorem aborted_loop_discards_queue (cfg : Config) (t : Tick) (rest : list Tick)
    (s : State) :
  status s = "ABORTING" ∨ tick_stop t = true →
  ∃ s' hooks,
    loop_until_finished cfg (t :: rest) s = (Returned tt, s')
    ∧ event_queue s' = []
    ∧ modules s' = modules s
    ∧ events_distributed s' = events_distributed s
    ∧ trace s' = trace s ++ OnStart :: hooks
    ∧ reports hooks = map info (modules s).
Proof.
  intros Hab.
  assert (∃ s1, (call OnStart;; driver_loop cfg (t :: rest) 0 0) s = (Returned tt, s1)
            ∧ event_queue s1 = [] ∧ modules s1 = modules s
            ∧ events_distributed s1 = events_distributed s
            ∧ trace s1 = trace s ++ [OnStart]) as (s1 & E1 & Q1 & M1 & D1 & T1).
  { simpl. repeat (rewrite bind_eq; simpl).
    destruct (tick_stop t) eqn:Hstop; simpl.
    - repeat (rewrite bind_eq; simpl). by eexists.
    - destruct Hab as [Hab|?]; [|done].
      repeat (rewrite bind_eq; simpl). rewrite bool_decide_eq_true_2 by done.
      by eexists. }
  destruct (report_all_spec (modules s1) s1) as (s' & hooks & E & T & R & Hm & Hq & Hd).
  exists s', hooks. unfold loop_until_finished, finally, try_except.
  rewrite E1. rewrite bind_eq. simpl. rewrite E.
  rewrite Hq, Hm, Hd, T, R, T1, M1, <- app_assoc. done.
Qed.

Lemma report_all_keeps_stopping (ms : list Module) (s : State) :
  status s = "ABORTING" ∧ stopping s = true →
  let s' := (for_each ms (λ mod_, catch true None (method "report" (mod_report mod_));;
                                  mret tt) s).2 in
  status s' = "ABORTING" ∧ stopping s' = true.
Proof.
  intros Hs.
  assert (extends (λ s, status s = "ABORTING" ∧ stopping s = true) (λ _, True)
            (for_each ms (λ mod_, catch true None (method "report" (mod_report mod_));;
                                  mret tt)))
    as Hframe.
  { unfold catch, method, mod_report. simpl. frame.
    match goal with |- extends _ _ ?k =>
      match goal with H : match ?e with _ => _ end = Some k |- _ =>
        destruct e; injection H as <- end end;
      unfold scan_stop; frame. }
  by destruct (Hframe s Hs).
Qed.

(** X20.  An interrupt from the keyboard that reaches the driver loop is
    answered with [scan.stop]: nothing is logged at critical level, the
    scan ends up aborting, and the report hook of every module is still
    called, although the scan is stopping by then. *)
Theorem interrupted_loop_stops_scan (cfg : Config) (ticks : list Tick)
    (s s2 : State) :
  (call OnStart;; driver_loop cfg ticks 0 0) s = (Raised KeyboardInterrupt, s2) →
  ∃ s' hooks,
    loop_until_finished cfg ticks s = (Returned tt, s')
    ∧ trace s' = trace s2 ++ ScanStop :: hooks
    ∧ reports hooks = map info (modules s)
    ∧ status s' = "ABORTING" ∧ stopping s' = true
    ∧ event_queue s' = event_queue s2.
Proof.
  intros Hloop.
  pose proof (registry_driver_loop (map info (modules s)) cfg ticks 0 0) as Hdl.
  assert (extends (same_registry (map info (modules s))) not_report
            (call OnStart;; driver_loop cfg ticks 0 0)) as Hbody by (frame; done).
  destruct (Hbody s eq_refl) as [Hns _]. rewrite Hloop in Hns. simpl in Hns.
  set (s3 := with_status "ABORTING" true (with_trace (trace s2 ++ [ScanStop]) s2)).
  destruct (report_all_spec (modules s3) s3) as (s' & hooks & E & T & R & Hm & Hq & Hd).
  pose proof (report_all_keeps_stopping (modules s3) s3 (conj eq_refl eq_refl)) as Hst.
  rewrite E in Hst. simpl in Hst.
  exists s', hooks. unfold loop_until_finished, finally, try_except.
  rewrite Hloop. unfold scan_stop. repeat (rewrite bind_eq; simpl).
  change (modules s3) with (modules s2) in E. fold s3. rewrite E.
  rewrite T, R, Hq. simpl. rewrite <- app_assoc.
  split_and!; [done | done | by rewrite <- Hns | apply Hst | apply Hst | done].
Qed.

(** ** Seeding the scan *)

Lemma event_precheck_same (event : Event) (s1 s : State) :
  events_accepted s1 = events_accepted s → modules s1 = modules s →
  _event_precheck event s1 = (Returned (precheck_passes s event), s1).
Proof.
  intros Ha Hm. unfold precheck_passes, _event_precheck.
  repeat case_match; try done.
  all: rewrite ?bind_eq, ?is_duplicate_event_eq in *; simpl in *.
  all: rewrite ?Ha, ?Hm in *; repeat case_match; simplify_eq; try done.
  all: rewrite ?bind_eq in *; simpl in *; simplify_eq; by rewrite ?Hm.
Qed.

Lemma emit_targets_spec (cfg : Config) (s : State) (targets : list Event) :
  ∀ s1, events_accepted s1 = events_accepted s → modules s1 = modules s →
        pool_fault s1 = None →
    ∃ s2,
      for_each targets (λ event, emit_event cfg event no_opts) s1 = (Returned tt, s2)
      ∧ pool_tasks s2
        = pool_tasks s1
          ++ map (λ event, {| task_event := event; task_opts := no_opts |})
               (List.filter (precheck_passes s) targets)
      ∧ trace s2
        = trace s1
          ++ flat_map (λ event, [ReleaseSemaphore (uid event); SetResolved (uid event)])
               (List.filter (λ event, negb (precheck_passes s event)) targets)
      ∧ events_accepted s2 = events_accepted s ∧ modules s2 = modules s
      ∧ event_queue s2 = event_queue s1.
Proof.
  induction targets as [|e targets IH]; intros s1 Ha Hm Hp; simpl.
  - exists s1. by rewrite !app_nil_r.
  - assert (emit_event cfg e no_opts s1
            = (Returned tt,
               if precheck_passes s e
               then with_pool_tasks
                      (pool_tasks s1 ++ [{| task_event := e; task_opts := no_opts |}]) s1
               else with_trace
                      (trace s1 ++ [ReleaseSemaphore (uid e); SetResolved (uid e)]) s1))
      as Hemit.
    { unfold emit_event.
      rewrite bind_eq, (event_precheck_same e s1 s Ha Hm). simpl.
      destruct (precheck_passes s e); simpl.
      - unfold try_except, submit_task. rewrite bind_eq. simpl. by rewrite Hp.
      - rewrite bind_eq. unfold call, modify, with_trace. simpl.
        by rewrite <- app_assoc. }
    rewrite bind_eq, Hemit.
    destruct (precheck_passes s e); simpl.
    + destruct (IH (with_pool_tasks
                      (pool_tasks s1 ++ [{| task_event := e; task_opts := no_opts |}])
                      s1)) as (s2 & E & P2 & T2 & A2 & M2 & Q2); [done..|].
      exists s2. rewrite E, P2, T2, A2, M2, Q2. simpl. by rewrite <- app_assoc.
    + destruct (IH (with_trace
                      (trace s1 ++ [ReleaseSemaphore (uid e); SetResolved (uid e)]) s1))
        as (s2 & E & P2 & T2 & A2 & M2 & Q2); [done..|].
      exists s2. rewrite E, P2, T2, A2, M2, Q2. simpl. by rewrite <- !app_assoc.
Qed.

(** X21.  [init_events] queues the root event without any precheck, then
    emits the targets in order.  With a working event pool every target
    that passes the precheck is submitted as a task and every other
    target has its permit released and its signal set.  The precheck of
    each target sees the ledger as it was before: targets that duplicate
    each other are all submitted.  Only then are the modules' batches
    forced.  If [scan.make_event] refuses the root event, nothing else
    happens. *)
Theorem init_events_seeds (cfg : Config) (root_event : Event)
    (target_events : list Event) (_handle_batch : Module → M unit) (s : State) :
  pool_fault s = None →
  match make_event cfg root_event with
  | inl x => init_events cfg root_event target_events _handle_batch s = (Raised x, s)
  | inr root' =>
      ∃ s1,
        init_events cfg root_event target_events _handle_batch s
          = for_each (modules s) _handle_batch s1
        ∧ event_queue s1 = event_queue s ++ [root']
        ∧ pool_tasks s1
          = pool_tasks s
            ++ map (λ event, {| task_event := event; task_opts := no_opts |})
                 (List.filter (precheck_passes s) target_events)
        ∧ trace s1
          = trace s
            ++ flat_map (λ event, [ReleaseSemaphore (uid event); SetResolved (uid event)])
                 (List.filter (λ event, negb (precheck_passes s event)) target_events)
        ∧ events_accepted s1 = events_accepted s
        ∧ modules s1 = modules s
  end.
Proof.
  intros Hp. unfold init_events.
  destruct (make_event cfg root_event) as [x|root'] eqn:Hmk.
  - rewrite bind_eq. unfold queue_event. by rewrite Hmk.
  - destruct (queue_event_made cfg root_event root' s Hmk) as (s0 & E0 & Q0 & _ & R0).
    assert (events_accepted s0 = events_accepted s ∧ modules s0 = modules s
            ∧ pool_fault s0 = None ∧ pool_tasks s0 = pool_tasks s
            ∧ trace s0 = trace s) as (A0 & M0 & P0 & PT0 & T0).
    { rewrite <- R0. simpl. rewrite <- R0 in Hp. done. }
    destruct (emit_targets_spec cfg s target_events s0 A0 M0 P0)
      as (s1 & E1 & P1 & T1 & A1 & M1 & Q1).
    exists s1. rewrite bind_eq, E0, bind_eq, E1, bind_eq. simpl.
    rewrite M1, Q1, Q0, P1, PT0, T1, T0. done.
Qed.

(** ** A run that skips resolution *)

Lemma ends_ret {A} (a : A) : ends (mret a).
Proof. by intros s. Qed.

Lemma ends_raise {A} (x : exn) : ends (raise x : M A).
Proof. by intros s. Qed.

Lemma ends_get : ends get.
Proof. by intros s. Qed.

Lemma ends_modify (f : State → State) : ends (modify f).
Proof. by intros s. Qed.

Lemma ends_call (e : Effect) : ends (call e).
Proof. by intros s. Qed.

Lemma ends_bind {A B} (m : M A) (k : A → M B) :
  ends m → (∀ a, ends (k a)) → ends (m ≫= k).
Proof.
  intros Hm Hk s. rewrite bind_eq. specialize (Hm s).
  destruct (m s) as [[a | x |] s1]; simpl in *; [apply Hk|done..].
Qed.

Lemma ends_when (b : bool) (m : M unit) : ends m → ends (when b m).
Proof. destruct b; [done|]. intros _. apply (ends_ret tt). Qed.

Lemma ends_try_except {A} (m : M A) (h : exn → option (M A)) :
  ends m → (∀ x k, h x = Some k → ends k) → ends (try_except m h).
Proof.
  intros Hm Hh s. unfold try_except. specialize (Hm s).
  destruct (m s) as [[a | x |] s1]; simpl in *; [done| |done].
  destruct (h x) as [k|] eqn:Hx; [by eapply Hh|done].
Qed.

Lemma ends_finally {A} (m : M A) (f : M unit) :
  ends m → ends f → ends (finally m f).
Proof.
  intros Hm Hf s. unfold finally. specialize (Hm s).
  destruct (m s) as [[a | x |] s1]; simpl in *; [| |done];
    specialize (Hf s1); by destruct (f s1) as [[[] | y |] s2].
Qed.

Lemma ends_for_each {A} (l : list A) (body : A → M unit) :
  (∀ x, ends (body x)) → ends (for_each l body).
Proof.
  intros Hb. induction l as [|x l IH]; simpl; [apply (ends_ret tt)|].
  apply ends_bind; [apply Hb|by intros _].
Qed.

Lemma ends_try_stages {X A V} (a : M X) (b : X → M A) (h : exn → option (M A))
    (v : X → V) (dflt : V) (f : V → M unit) :
  ends a → (∀ x, ends (b x)) → (∀ e k, h e = Some k → ends k) →
  (∀ w, ends (f w)) → ends (try_stages a b h v dflt f).
Proof.
  intros Ha Hb Hh Hf s. unfold try_stages. specialize (Ha s).
  destruct (a s) as [[x | e |] s1]; simpl in *; [| |done].
  - by apply ends_finally; [apply ends_try_except|].
  - by apply ends_finally; [apply ends_try_except; [apply ends_raise|]|].
Qed.

Ltac ends_step :=
  lazymatch goal with
  | |- ends (mret _) => apply ends_ret
  | |- ends (raise _) => apply ends_raise
  | |- ends get => apply ends_get
  | |- ends (_ ≫= _) => apply ends_bind; [|intros ?]
  | |- ends (when _ _) => apply ends_when
  | |- ends (call _) => apply ends_call
  | |- ends (modify _) => apply ends_modify
  | |- ends (for_each _ _) => apply ends_for_each; intros ?
  | |- ends (try_except _ _) => apply ends_try_except; [|intros ? ? ?]
  | |- ends (finally _ _) => apply ends_finally
  | |- ends (if ?b then _ else _) => destruct b eqn:?
  | |- ends (match ?x with Some _ => _ | None => _ end) => destruct x eqn:?
  | |- ends (match ?x with inl _ => _ | inr _ => _ end) => destruct x eqn:?
  end.

Ltac ends_handler :=
  match goal with
  | H : match ?e with _ => _ end = Some ?k |- ends ?k =>
      destruct e; first [discriminate H | injection H as <-]
  end.

Ltac ends_all := repeat (first [ends_step | ends_handler]; simpl).

Lemma ends_is_duplicate_event event add : ends (is_duplicate_event event add).
Proof. unfold is_duplicate_event. ends_all. Qed.

Lemma ends_accept_event event : ends (accept_event event).
Proof. unfold accept_event. ends_all. apply ends_is_duplicate_event. Qed.

Lemma ends_queue_event cfg event : ends (queue_event cfg event).
Proof. unfold queue_event. ends_all. Qed.

Lemma ends_emit_event cfg event opts : ends (emit_event cfg event opts).
Proof.
  unfold emit_event, _event_precheck, submit_task. ends_all;
    auto using ends_is_duplicate_event, ends_queue_event.
Qed.

Lemma ends_make_dns_name cfg value mod_ source :
  ends (make_dns_name cfg value mod_ source).
Proof. unfold make_dns_name. ends_all. Qed.

Lemma ends_make_dns_children cfg children source_event :
  ends (make_dns_children cfg children source_event).
Proof.
  induction children as [|[record rdtype] children IH]; simpl; ends_all;
    auto using ends_make_dns_name.
Qed.

Lemma ends_catch {A} force finish (callback : Callable (M A)) :
  ends (__call__ callback) → (∀ f, finish = Some f → ends (__call__ f)) →
  ends (catch force finish callback).
Proof.
  intros Hc Hf. unfold catch, scan_stop.
  destruct (__qualname__ callback); [|apply ends_raise].
  ends_all; auto.
Qed.

Lemma ends_emit_children cfg opts event children :
  ends (emit_children cfg opts event children).
Proof.
  unfold emit_children, run_callback. ends_all;
    auto using ends_make_dns_name, ends_emit_event, ends_make_dns_children.
  apply ends_catch; [|done]. simpl. ends_all.
Qed.

(** X22.  A run that skips resolution (resolution is off, the event is a
    target and there is no blacklist) never waits: it always comes to an
    end.  It sets the event's completion signal itself, exactly once and
    before anything else, and releases the event's permit exactly once,
    whether [abort_if] vetoes the event, the ledger rejects it, or it is
    queued. *)
Theorem skipped_resolution_sets_signal (cfg : Config) (polls : list Poll)
    (event : Event) (opts : EmitOpts) (s : State) :
  skip_dns_resolution cfg event = true →
  (uid event < next_uid s)%nat →
  (_emit_event cfg polls event opts s).1 ≠ Blocked
  ∧ (∃ t, trace (_emit_event cfg polls event opts s).2
          = trace s ++ SetResolved (uid event) :: t
          ∧ count (is_set_resolved (uid event)) t = 0%nat
          ∧ count (is_release (uid event)) t = 1%nat).
Proof.
  intros Hskip Hfresh.
  set (rest := (if match abort_if opts with Some f => f event | None => false end
                then mret None
                else accepted ← accept_event event;
                     if negb accepted then mret None
                     else when true (queue_event cfg event);;
                          mret (Some (event, true, [] : list (string * string))))
               : M (option (Event * bool * list (string * string)))).
  set (s0 := with_trace (trace s ++ [SetResolved (uid event)]) s).
  assert (resolve_and_queue cfg polls event opts s = rest s0) as Hhead.
  { unfold resolve_and_queue, resolve_and_classify.
    unfold skip_dns_resolution in Hskip. rewrite Hskip.
    repeat (rewrite bind_eq; simpl). done. }
  unfold _emit_event.
  match goal with |- context [try_stages ?a ?b ?h ?v ?d ?f s] =>
    assert (try_stages a b h v d f s = try_stages rest b h v d f s0) as ->
      by (unfold try_stages; by rewrite Hhead);
    assert (ends (try_stages rest b h v d f)) as Hends;
    [|pose proof (try_stages_shape (λ s : State, (uid event < next_uid s)%nat)
                    (not_about (uid event))
                    (λ r, match r with
                          | Some (ev, _, _) => uid ev = uid event
                          | None => True
                          end) rest b h v d f s0) as Hshape]
  end.
  { apply ends_try_stages.
    - subst rest. ends_all; auto using ends_accept_event, ends_queue_event.
    - intros [[[ev em] ch]|]; [apply ends_emit_children|apply ends_ret].
    - intros e k. destruct e; intros [= <-]; apply ends_ret.
    - intros w. ends_all. }
  split; [apply Hends|].
  destruct Hshape as (s1 & t & w & HI & Ht & HP & _ & Hr).
  - subst rest. frame_with ltac:(by auto).
    + apply pipe_accept_event; by auto.
    + apply pipe_queue_event; by auto.
  - intros s2 x s3 _. subst rest.
    destruct (match abort_if opts with Some f => f event | None => false end);
      [by intros [= <- _]|].
    rewrite bind_eq. destruct (accept_event event s2) as [[[] | e |] s4]; simpl;
      [|by intros [= <- _]|done..].
    rewrite bind_eq. destruct (queue_event cfg event s4) as [[[] | e |] s5]; simpl;
      [|done..].
    by intros [= <- _].
  - intros [[[ev em] ch]|] Hx; [|apply extends_ret].
    apply pipe_emit_children; simpl; auto; intros; simpl; lia.
  - intros e k. destruct e; intros [= <-]; apply extends_ret.
  - done.
  - destruct Hr as [Hb | (o & E & _)]; [by destruct (Hends s0)|].
    rewrite E. rewrite !bind_eq. simpl.
    destruct (count_not_about _ _ HP) as (C1 & C2 & _).
    destruct w; simpl; rewrite Ht; subst s0; simpl; rewrite <- !app_assoc; simpl;
      eexists; (split; [reflexivity|]);
      rewrite !count_app, C1, C2, ?count_cons; simpl;
      rewrite ?bool_decide_eq_true_2 by done; unfold count; simpl; done.
Qed.

(** * The command line *)

(** ** Enabling modules by flags *)

Lemma enable_flag_loop (m : string) (flags option_flags : list string)
    (modules : gset string) (x : string) :
  x ∈ foldl (λ (modules : gset string) f,
               if bool_decide (f ∈ flags) then {[m]} ∪ modules else modules)
            modules option_flags
  ↔ x ∈ modules ∨ (x = m ∧ ∃ f, f ∈ option_flags ∧ f ∈ flags).
Proof.
  revert modules. induction option_flags as [|f fs IH]; intros modules; simpl.
  - split; [by left|]. intros [?|(_ & f & Hf & _)]; [done|]. by apply elem_of_nil in Hf.
  - rewrite IH. destruct (decide (f ∈ flags)) as [Hf|Hf].
    + rewrite bool_decide_eq_true_2 by done. rewrite elem_of_union, elem_of_singleton.
      split.
      * intros [[->|?]|(-> & f' & Hf' & Hin)]; [|by left|].
        -- right. split; [done|]. exists f. split; [left|done].
        -- right. split; [done|]. exists f'. split; [by right|done].
      * intros [?|(-> & _)]; left; auto.
    + rewrite bool_decide_eq_false_2 by done. split.
      * intros [?|(-> & f' & Hf' & Hin)]; [by left|].
        right. split; [done|]. exists f'. split; [by right|done].
      * intros [?|(-> & f' & Hf' & Hin)]; [by left|].
        apply elem_of_cons in Hf' as [->|Hf']; [done|]. right. eauto.
Qed.

Lemma enable_module_loop (preloaded : list (string * ModuleConfig))
    (option_flags : list string) (modules : gset string) (x : string) :
  x ∈ foldl (λ (modules : gset string) '(m, c),
               if bool_decide (m ∉ modules) then
                 let flags := get_flags c in
                 if bool_decide ("deadly" ∈ flags) then modules
                 else
                   foldl (λ (modules : gset string) f,
                            if bool_decide (f ∈ flags) then {[m]} ∪ modules
                            else modules)
                         modules option_flags
               else modules)
            modules preloaded
  ↔ x ∈ modules
    ∨ ∃ c, (x, c) ∈ preloaded ∧ ("deadly" ∉ get_flags c)
           ∧ (∃ f, f ∈ option_flags ∧ f ∈ get_flags c).
Proof.
  revert modules. induction preloaded as [|[m c] l IH]; intros modules; simpl.
  - split; [by left|]. intros [?|(c & Hc & _)]; [done|]. by apply elem_of_nil in Hc.
  - rewrite IH. clear IH.
    destruct (decide (m ∈ modules)) as [Hm|Hm].
    + rewrite bool_decide_eq_false_2 by (intros Hn; by apply Hn). split.
      * intros [?|(c0 & Hc0 & Hrest)]; [by left|]. right. exists c0.
        split; [by right|done].
      * intros [?|(c0 & Hc0 & Hrest)]; [by left|].
        apply elem_of_cons in Hc0 as [[= -> ->]|Hc0]; [by left|]. right. eauto.
    + rewrite bool_decide_eq_true_2 by done. simpl.
      destruct (decide ("deadly" ∈ get_flags c)) as [Hd|Hd].
      * rewrite bool_decide_eq_true_2 by done. split.
        -- intros [?|(c0 & Hc0 & Hrest)]; [by left|]. right. exists c0.
           split; [by right|done].
        -- intros [?|(c0 & Hc0 & Hd0 & Hrest)]; [by left|].
           apply elem_of_cons in Hc0 as [[= -> ->]|Hc0]; [done|]. right. eauto.
      * rewrite bool_decide_eq_false_2 by done. rewrite enable_flag_loop. split.
        -- intros [[?|(-> & Hf)]|(c0 & Hc0 & Hrest)]; [by left| |].
           ++ right. exists c. split; [left|done].
           ++ right. exists c0. split; [by right|done].
        -- intros [?|(c0 & Hc0 & Hd0 & Hrest)]; [by left; left|].
           apply elem_of_cons in Hc0 as [[= -> ->]|Hc0]; [left; right; done|].
           right. eauto.
Qed.

(** Enabling by flags gives the modules named on the command line and, of
    the preloaded ones, those that carry one of the flags asked for and
    are not flagged "deadly". *)
Lemma enable_by_flags_members (preloaded : list (string * ModuleConfig))
    (option_modules option_flags : list string) (m : string) :
  (m ∈ enable_by_flags preloaded option_modules option_flags
   ↔ m ∈ option_modules
     ∨ ∃ c, (m, c) ∈ preloaded ∧ ("deadly" ∉ get_flags c)
            ∧ (∃ f, f ∈ option_flags ∧ f ∈ get_flags c))
  ∧ ((∀ c, (m, c) ∈ preloaded → "deadly" ∈ get_flags c) →
     m ∈ enable_by_flags preloaded option_modules option_flags →
     m ∈ option_modules).
Proof.
  assert (m ∈ enable_by_flags preloaded option_modules option_flags
          ↔ m ∈ option_modules
            ∨ ∃ c, (m, c) ∈ preloaded ∧ ("deadly" ∉ get_flags c)
                   ∧ (∃ f, f ∈ option_flags ∧ f ∈ get_flags c)) as Hspec.
  { unfold enable_by_flags. rewrite enable_module_loop.
    by rewrite elem_of_list_to_set. }
  split; [done|]. intros Hdeadly Hin.
  apply Hspec in Hin as [?|(c & Hc & Hd & _)]; [done|].
  destruct Hd. by apply Hdeadly.
Qed.

(** X23.  When the modules are only listed ([--list-modules] or
    [--help-all]) and neither a flag nor a module is named, the set is
    every preloaded scan module, deadly ones included, and
    [module_filtering] is set.  Otherwise [module_filtering] stays off
    and the modules are those named on the command line and, of the
    preloaded ones, those that carry one of the flags asked for and are
    not flagged "deadly": there a deadly module is never enabled by a
    flag, it has to be named. *)
Theorem modules_from_options_spec (preloaded : list (string * ModuleConfig))
    (preloaded_scan : list string) (list_modules help_all : bool)
    (option_modules option_flags : list string) (m : string) :
  let listing := (list_modules || help_all)
                 && bool_decide (option_flags = [] ∧ option_modules = []) in
  let r := modules_from_options preloaded preloaded_scan list_modules help_all
             option_modules option_flags in
  r.1 = listing
  ∧ (listing = true → (m ∈ r.2 ↔ m ∈ preloaded_scan))
  ∧ (listing = false →
     (m ∈ r.2
      ↔ m ∈ option_modules
        ∨ ∃ c, (m, c) ∈ preloaded ∧ ("deadly" ∉ get_flags c)
               ∧ (∃ f, f ∈ option_flags ∧ f ∈ get_flags c))
     ∧ ((∀ c, (m, c) ∈ preloaded → "deadly" ∈ get_flags c) →
        m ∈ r.2 → m ∈ option_modules)).
Proof.
  intros listing r.
  assert (negb (existsb id [truthy_list option_flags; truthy_list option_modules])
          = bool_decide (option_flags = [] ∧ option_modules = [])) as Hany.
  { destruct option_flags, option_modules; simpl;
      first [ done | symmetry; apply bool_decide_eq_false_2; by intros [? ?] ]. }
  subst r. unfold modules_from_options. rewrite Hany. fold listing.
  destruct listing; simpl.
  - split_and!; [done| |done]. intros _. by rewrite elem_of_list_to_set.
  - split_and!; [done|done|]. intros _. apply enable_by_flags_members.
Qed.

(** ** Filtering the scan modules by flags *)

Lemma find_ext_on {A} (p q : A → bool) (l : list A) :
  (∀ x, x ∈ l → p x = q x) → List.find p l = List.find q l.
Proof.
  induction l as [|x l IH]; intros H; simpl; [done|].
  rewrite <- (H x) by left. destruct (p x); [done|].
  apply IH. intros y Hy. apply H. by right.
Qed.

Lemma remove_where_spec (cond : string → bool) (l : list string) :
  NoDup l →
  ∀ modules : gset string,
    remove_where cond l modules
    = match List.find (λ m, cond m && negb (bool_decide (m ∈ modules))) l with
      | Some m => inl m
      | None => inr (modules ∖ list_to_set (List.filter cond l))
      end.
Proof.
  induction 1 as [|m l Hm Hnd IH]; intros modules; simpl.
  - by rewrite difference_empty_L.
  - destruct (cond m) eqn:Hc; simpl.
    + unfold set_remove. destruct (decide (m ∈ modules)) as [Hin|Hin].
      * rewrite !bool_decide_eq_true_2 by done. simpl. rewrite IH.
        rewrite (find_ext_on _ (λ m0, cond m0 && negb (bool_decide (m0 ∈ modules)))).
        -- destruct (List.find _ l); [done|]. by rewrite difference_difference_l_L.
        -- intros x Hx. f_equal. f_equal. apply bool_decide_ext.
           rewrite elem_of_difference, elem_of_singleton.
           split; [by intros [? _]|]. intros ?. split; [done|]. by intros ->.
      * by rewrite !bool_decide_eq_false_2 by done.
    + apply IH.
Qed.

Lemma exclude_modules_loop (exclude_modules : list string) (modules : gset string) :
  foldl (λ (modules : gset string) m,
           if bool_decide (m ∈ modules) then modules ∖ {[m]} else modules)
        modules exclude_modules
  = modules ∖ list_to_set exclude_modules.
Proof.
  revert modules. induction exclude_modules as [|m l IH]; intros modules; simpl.
  - by rewrite difference_empty_L.
  - rewrite IH. destruct (decide (m ∈ modules)).
    + rewrite bool_decide_eq_true_2 by done. apply difference_difference_l_L.
    + rewrite bool_decide_eq_false_2 by done.
      rewrite <- difference_difference_l_L. f_equal.
      apply leibniz_equiv. intros x. rewrite elem_of_difference, elem_of_singleton.
      split; [|by intros [? _]]. intros ?. split; [done|]. by intros ->.
Qed.

Lemma elem_of_filtered (cond : string → bool) (l : list string) (x : string) :
  x ∈ (list_to_set (List.filter cond l) : gset string) ↔ x ∈ l ∧ cond x = true.
Proof.
  by rewrite elem_of_list_to_set, !list_elem_of_In, filter_In.
Qed.

(** The outcome of the three loops for a list of scan modules without
    repetitions: the first module, in the order of the list, that lacks a
    required flag and has an excluded flag ends them with a [KeyError];
    if there is none, they leave the modules that pass all three tests. *)
Lemma filter_scan_modules_outcome (_preloaded : gmap string ModuleConfig)
    (_scan_modules require_flags exclude_flags exclude_modules : list string) :
  NoDup _scan_modules →
  match List.find (λ m, lacks_required_flag _preloaded require_flags m
                        && has_excluded_flag _preloaded exclude_flags m)
          _scan_modules with
  | Some m =>
      filter_scan_modules _preloaded _scan_modules require_flags exclude_flags
        exclude_modules = inl m
  | None =>
      ∃ modules,
        filter_scan_modules _preloaded _scan_modules require_flags exclude_flags
          exclude_modules = inr modules
        ∧ ∀ m, m ∈ modules
               ↔ m ∈ _scan_modules
                 ∧ lacks_required_flag _preloaded require_flags m = false
                 ∧ has_excluded_flag _preloaded exclude_flags m = false
                 ∧ m ∉ exclude_modules
  end.
Proof.
  intros Hnd. unfold filter_scan_modules.
  set (lacks := lacks_required_flag _preloaded require_flags).
  set (excl := has_excluded_flag _preloaded exclude_flags).
  set (all := list_to_set _scan_modules : gset string).
  assert (remove_where lacks _scan_modules all
          = inr (all ∖ list_to_set (List.filter lacks _scan_modules))) as ->.
  { rewrite (remove_where_spec _ _ Hnd).
    rewrite (find_ext_on (λ m, lacks m && negb (bool_decide (m ∈ all))) (λ _, false)).
    - assert (List.find (λ _ : string, false) _scan_modules = None) as ->
        by (clear; induction _scan_modules; done).
      done.
    - intros x Hx. cbv beta. subst all.
      rewrite bool_decide_eq_true_2 by (by apply elem_of_list_to_set).
      by rewrite andb_false_r. }
  set (kept := all ∖ list_to_set (List.filter lacks _scan_modules)).
  assert (remove_where excl _scan_modules kept
          = match List.find (λ m, lacks m && excl m) _scan_modules with
            | Some m => inl m
            | None => inr (kept ∖ list_to_set (List.filter excl _scan_modules))
            end) as ->.
  { rewrite (remove_where_spec _ _ Hnd).
    rewrite (find_ext_on (λ m, excl m && negb (bool_decide (m ∈ kept)))
               (λ m, lacks m && excl m)); [done|].
    intros x Hx. cbv beta. rewrite andb_comm. f_equal.
    subst kept all. destruct (lacks x) eqn:Hl; simpl.
    - rewrite bool_decide_eq_false_2; [done|].
      rewrite elem_of_difference, elem_of_filtered. intros [_ Hn]. by apply Hn.
    - rewrite bool_decide_eq_true_2; [done|].
      rewrite elem_of_difference, elem_of_filtered, elem_of_list_to_set.
      split; [done|]. intros [_ ?]. congruence. }
  destruct (List.find _ _scan_modules); [done|].
  eexists. split; [reflexivity|]. intros m.
  rewrite exclude_modules_loop. subst kept all.
  rewrite !elem_of_difference, !elem_of_filtered, !elem_of_list_to_set.
  destruct (lacks m), (excl m); intuition congruence.
Qed.

Lemma lacks_required_flag_false (_preloaded : gmap string ModuleConfig)
    (require_flags : list string) (m : string) :
  lacks_required_flag _preloaded require_flags m = false
  ↔ ∀ f, f ∈ require_flags → f ∈ preloaded_flags _preloaded m.
Proof.
  unfold lacks_required_flag. rewrite negb_false_iff, forallb_forall.
  split; intros H f Hf.
  - apply list_elem_of_In in Hf. by apply H, bool_decide_eq_true_1 in Hf.
  - apply list_elem_of_In in Hf. by apply bool_decide_eq_true_2, H.
Qed.

Lemma has_excluded_flag_false (_preloaded : gmap string ModuleConfig)
    (exclude_flags : list string) (m : string) :
  has_excluded_flag _preloaded exclude_flags m = false
  ↔ ∀ f, f ∈ exclude_flags → f ∉ preloaded_flags _preloaded m.
Proof.
  unfold has_excluded_flag. rewrite <- not_true_iff_false, existsb_exists.
  split.
  - intros H f Hf Hin. apply H. exists f.
    split; [by apply list_elem_of_In|by apply bool_decide_eq_true_2].
  - intros H (f & Hf & Hin). apply list_elem_of_In in Hf.
    apply bool_decide_eq_true_1 in Hin. by eapply H.
Qed.

(** X24.  When no scan module both lacks a required flag and carries an
    excluded flag, the three loops leave exactly the scan modules that
    have every required flag, have no excluded flag and are not excluded
    by name. *)
Theorem filter_scan_modules_keeps (_preloaded : gmap string ModuleConfig)
    (_scan_modules require_flags exclude_flags exclude_modules : list string) :
  NoDup _scan_modules →
  (∀ m, m ∈ _scan_modules →
        lacks_required_flag _preloaded require_flags m = true →
        has_excluded_flag _preloaded exclude_flags m = false) →
  ∃ modules,
    filter_scan_modules _preloaded _scan_modules require_flags exclude_flags
      exclude_modules = inr modules
    ∧ ∀ m, m ∈ modules
           ↔ m ∈ _scan_modules
             ∧ (∀ f, f ∈ require_flags → f ∈ preloaded_flags _preloaded m)
             ∧ (∀ f, f ∈ exclude_flags → f ∉ preloaded_flags _preloaded m)
             ∧ m ∉ exclude_modules.
Proof.
  intros Hnd Hok.
  pose proof (filter_scan_modules_outcome _preloaded _scan_modules require_flags
                exclude_flags exclude_modules Hnd) as Hout.
  destruct (List.find _ _scan_modules) as [m|] eqn:Hfind.
  - apply find_some in Hfind as [Hin Hboth].
    apply andb_true_iff in Hboth as [Hl He].
    apply list_elem_of_In in Hin. rewrite (Hok m Hin Hl) in He. done.
  - destruct Hout as (modules & E & Hmem). exists modules. split; [done|].
    intros m. by rewrite Hmem, lacks_required_flag_false, has_excluded_flag_false.
Qed.

(** X25.  A scan module that lacks a required flag and also carries an excluded
    flag is removed from the set twice: the second removal raises a
    [KeyError], so the selection ends with an error instead of a set of
    modules.  This is the only way the three loops can fail on a list
    without repetitions. *)
Theorem filter_scan_modules_key_error (_preloaded : gmap string ModuleConfig)
    (_scan_modules require_flags exclude_flags exclude_modules : list string) :
  NoDup _scan_modules →
  ((∃ key, filter_scan_modules _preloaded _scan_modules require_flags exclude_flags
             exclude_modules = inl key)
   ↔ ∃ m, m ∈ _scan_modules
          ∧ lacks_required_flag _preloaded require_flags m = true
          ∧ has_excluded_flag _preloaded exclude_flags m = true).
Proof.
  intros Hnd.
  pose proof (filter_scan_modules_outcome _preloaded _scan_modules require_flags
                exclude_flags exclude_modules Hnd) as Hout.
  destruct (List.find _ _scan_modules) as [m|] eqn:Hfind.
  - apply find_some in Hfind as [Hin Hboth].
    apply andb_true_iff in Hboth as [Hl He]. apply list_elem_of_In in Hin.
    split; [|by eauto]. intros _. eauto.
  - destruct Hout as (modules & E & _). rewrite E. split.
    + by intros [key ?].
    + intros (m & Hin & Hl & He). apply list_elem_of_In in Hin.
      eapply find_none in Hfind; [|done]. simpl in Hfind.
      by rewrite Hl, He in Hfind.
Qed.

(** ** Targets that do not wait *)




(** ** What a run queues and what it reports *)

Section Emitted.
Context (u : nat) (q : list Event).
Local Abbreviation I := (λ s : State, event_queue s = q).
Local Abbreviation P := (λ e : Effect, is_stats_emitted u e = false).

Local Ltac side := by (intros; simpl in *).

Lemma em_is_duplicate_event event add : extends I P (is_duplicate_event event add).
Proof. unfold is_duplicate_event. frame_with side. Qed.

Lemma em_emit_event cfg child : extends I P (emit_event cfg child no_opts).
Proof.
  unfold emit_event, _event_precheck, submit_task. simpl.
  frame_with side; auto using em_is_duplicate_event.
  match goal with H : _ = Some _ |- _ => revert H end.
  destruct (is_Exception x); intros [= <-]. frame_with side.
Qed.

Lemma em_make_dns_name cfg value mod_ source :
  extends I P (make_dns_name cfg value mod_ source).
Proof. unfold make_dns_name. frame_with side. Qed.

Lemma em_make_dns_children cfg children source_event :
  extends I P (make_dns_children cfg children source_event).
Proof.
  induction children as [|[record rdtype] children IH]; simpl; frame_with side.
  - apply em_make_dns_name.
  - match goal with H : _ = Some _ |- _ => revert H end.
    destruct x; intros [= <-]. frame_with side.
  - apply IH.
Qed.

Lemma em_catch {A} force (callback : Callable (M A)) :
  extends I P (__call__ callback) → extends I P (catch force None callback).
Proof.
  intros Hc. unfold catch, scan_stop.
  destruct (__qualname__ callback); [|apply extends_raise].
  frame_with side; [done|].
  match goal with H : _ = Some _ |- _ => revert H end.
  destruct x; intros [= <-]; frame_with side.
Qed.

Lemma em_emit_children cfg opts event children :
  extends I P (emit_children cfg opts event children).
Proof.
  unfold emit_children, run_callback.
  frame_with side;
    auto using em_make_dns_name, em_emit_event, em_make_dns_children.
  apply em_catch. simpl. frame_with side.
Qed.

Lemma em_wait_resolved polls event : extends I P (wait_resolved polls event).
Proof. induction polls as [|p polls IH]; simpl; frame_with side. apply IH. Qed.

Lemma em_resolve_and_classify cfg polls event :
  Forall P (resolve_calls cfg event) →
  extends I P (resolve_and_classify cfg polls event).
Proof.
  intros Hcalls. unfold resolve_and_classify.
  destruct (negb (dns_resolution cfg) && has_tag "target" event && negb (blacklist cfg));
    [frame_with side|].
  apply extends_bind; [|intros _].
  { apply extends_for_each. intros e He.
    apply extends_call; [|side]. by eapply Forall_forall in Hcalls. }
  frame_with side; auto using em_wait_resolved, em_is_duplicate_event.
Qed.
End Emitted.

Lemma resolve_and_queue_queues (cfg : Config) (polls : list Poll) (event : Event)
    (opts : EmitOpts) (s : State) :
  Forall (λ e, is_stats_emitted (uid event) e = false) (resolve_calls cfg event) →
  let r := resolve_and_queue cfg polls event opts s in
  (∃ t, trace r.2 = trace s ++ t
        ∧ Forall (λ e, is_stats_emitted (uid event) e = false) t)
  ∧ match r.1 with
    | Returned (Some (ev, em, _)) =>
        ∃ queued, event_queue r.2 = event_queue s ++ queued
                  ∧ length queued = (if (em : bool) then 1 else 0)%nat
                  ∧ Forall (λ e', make_event cfg ev = inr e') queued
    | Returned None | Raised _ => event_queue r.2 = event_queue s
    | Blocked => True
    end.
Proof.
  intros Hcalls. cbv zeta. unfold resolve_and_queue. rewrite bind_eq.
  destruct (em_resolve_and_classify (uid event) (event_queue s) cfg polls event
              Hcalls s eq_refl) as [Hq Ht].
  destruct (resolve_and_classify cfg polls event s) as [[[[ev em] ch]|x|] s1];
    simpl in *; [|done..].
  destruct (match abort_if opts with Some f => f ev | None => false end); [done|].
  rewrite bind_eq, accept_event_eq. simpl.
  destruct (negb (default true (suppress_dupes (module ev))
                  && bool_decide (hash_event ev ∈ events_accepted s1)
                  && negb (_force_output ev))); simpl; [|done].
  rewrite bind_eq. destruct em; simpl.
  - destruct (make_event cfg ev) as [x|e'] eqn:Hmk.
    + unfold queue_event. rewrite Hmk. simpl. done.
    + destruct (queue_event_made cfg ev e' (with_accepted
                  ({[hash_event ev]} ∪ events_accepted s1) s1) Hmk)
        as (s2 & E & Q & _ & R).
      assert (trace s2 = trace s1) as Htr
        by (apply (f_equal trace) in R; simpl in R; done).
      rewrite E. simpl. rewrite Htr. split; [done|].
      exists [e']. rewrite Q. simpl. rewrite Hq. split_and!; [done..|].
      by repeat constructor.
  - split; [done|]. exists []. by rewrite app_nil_r.
Qed.

(** X27.  A run that comes to an end appends at most one event to the central
    queue, and it tells the statistics sink of an emitted event exactly
    when it has queued one: after a veto, a rejection, a suppression or a
    refusal of [scan.make_event] nothing is queued and nothing reported;
    and an event that was queued is reported even if the run fails
    afterwards, while emitting the children.  (The DNS helper is taken
    not to report emissions itself.) *)
Theorem run_reports_what_it_queues (cfg : Config) (polls : list Poll)
    (event : Event) (opts : EmitOpts) (s : State) :
  Forall (λ e, is_stats_emitted (uid event) e = false) (resolve_calls cfg event) →
  (_emit_event cfg polls event opts s).1 ≠ Blocked →
  ∃ queued,
    event_queue (_emit_event cfg polls event opts s).2 = event_queue s ++ queued
    ∧ (length queued ≤ 1)%nat
    ∧ count (is_stats_emitted (uid event))
        (trace (_emit_event cfg polls event opts s).2)
      = (count (is_stats_emitted (uid event)) (trace s) + length queued)%nat.
Proof.
  intros Hcalls. unfold _emit_event, try_stages.
  pose proof (resolve_and_queue_queues cfg polls event opts s Hcalls) as [Ht Hq].
  cbv zeta in Ht, Hq. destruct Ht as (t1 & Ht1 & HP1).
  assert (∀ t, Forall (λ e, is_stats_emitted (uid event) e = false) t →
               count (is_stats_emitted (uid event)) t = 0%nat) as Hzero.
  { induction 1 as [|e t He _ IH]; [done|]. by rewrite count_cons, He, IH. }
  assert (∀ (A : Type) (m : M A) (b : bool) (s1 : State) (queued : list Event),
            extends (λ s0, event_queue s0 = event_queue s1)
              (λ e, is_stats_emitted (uid event) e = false) m →
            event_queue s1 = event_queue s ++ queued →
            length queued = (if b then 1 else 0)%nat →
            trace s1 = trace s ++ t1 →
            let r := finally m (call (ReleaseSemaphore (uid event));;
                                when b (call (StatsEmitted (uid event)))) s1 in
            r.1 ≠ Blocked →
            ∃ queued,
              event_queue r.2 = event_queue s ++ queued
              ∧ (length queued ≤ 1)%nat
              ∧ count (is_stats_emitted (uid event)) (trace r.2)
                = (count (is_stats_emitted (uid event)) (trace s) + length queued)%nat)
    as Hfin.
  { intros A m b s1 queued Hm Hqueue Hlen Htr. cbv zeta. unfold finally.
    destruct (Hm s1 eq_refl) as [Hq2 (t2 & Ht2 & HP2)].
    destruct (m s1) as [[a | x |] s2]; simpl in *; [| |done].
    all: rewrite bind_eq; simpl; intros _; exists queued.
    all: destruct b; simpl; rewrite ?Hq2, Hqueue, Hlen, ?Ht2, Htr.
    all: split; [done|]; split; [lia|].
    all: rewrite !count_app, (Hzero t1), (Hzero t2) by done.
    all: unfold count; simpl; rewrite ?bool_decide_eq_true_2 by done; simpl; lia. }
  destruct (resolve_and_queue cfg polls event opts s) as [[x | e |] s1]; simpl in *.
  - destruct x as [[[ev em] ch]|].
    + destruct Hq as (queued & Hqueue & Hlen & _).
      apply (Hfin _ _ em s1 queued); [|done..].
      apply extends_try_except; [apply em_emit_children|].
      intros e k. destruct e; intros [= <-]; apply extends_ret.
    + apply (Hfin _ _ false s1 []); [|by rewrite app_nil_r|done..].
      apply extends_try_except; [apply extends_ret|].
      intros e k. destruct e; intros [= <-]; apply extends_ret.
  - apply (Hfin _ _ false s1 []); [|by rewrite app_nil_r|done..].
    apply extends_try_except; [apply extends_raise|].
    intros e' k. destruct e'; intros [= <-]; apply extends_ret.
  - done.
Qed.

(** ** The sentinel of the driver loop *)

Section Sentinel.
Context (st0 : string).
Local Abbreviation I := (λ s : State, status s = st0 ∨ status s = "ABORTING").
Local Abbreviation P := not_sentinel.

Local Ltac side := by (intros; simpl in *; auto).

Lemma ns_mod_queue_event i (event : Event) :
  extends I P (mod_queue_event i (EventItem event)).
Proof. unfold mod_queue_event. frame_with side. Qed.

Lemma ns_distribute_to cfg event dup idx rec_ :
  extends I P (distribute_to cfg event dup idx rec_).
Proof.
  revert rec_. induction idx as [|i idx IH]; intros rec_; simpl;
    frame_with side; auto using ns_mod_queue_event.
Qed.

Lemma ns_distribute_event cfg event : extends I P (distribute_event cfg event).
Proof. unfold distribute_event. frame_with side. apply ns_distribute_to. Qed.

Lemma ns_driver_loop cfg ticks counter event_counter :
  extends I P (driver_loop cfg ticks counter event_counter).
Proof.
  revert counter event_counter.
  induction ticks as [|t ticks IH]; intros counter event_counter; simpl;
    frame_with side; auto using ns_distribute_event.
  all: try (apply detector_modules_status; side).
Qed.

Lemma ns_loop_until_finished cfg ticks : extends I P (loop_until_finished cfg ticks).
Proof.
  unfold loop_until_finished, scan_stop, catch, method, mod_report. simpl.
  frame_with side; auto using ns_driver_loop.
  all: match goal with |- match ?e with _ => _ end = Some _ → _ => idtac
                  | H : match ?e with _ => _ end = Some _ |- _ => revert H end.
  all: match goal with |- match ?e with _ => _ end = Some _ → _ => destruct e end.
  all: intros [= <-]; unfold scan_stop; frame_with side.
Qed.
End Sentinel.

(** X28.  The driver loop never tells a module that the scan has finished: in
    no run, whatever the other threads do, does a module's queue receive
    the string ["FINISHED"], and the status of the scan is never set to
    ["FINISHING"]; the only status the loop ever sets is ["ABORTING"]. *)
Theorem finished_is_never_broadcast (cfg : Config) (ticks : list Tick) (s : State) :
  (status (loop_until_finished cfg ticks s).2 = status s
   ∨ status (loop_until_finished cfg ticks s).2 = "ABORTING")
  ∧ ∃ t, trace (loop_until_finished cfg ticks s).2 = trace s ++ t
         ∧ Forall not_sentinel t.
Proof.
  apply (ns_loop_until_finished (status s) cfg ticks s). by left.
Qed.

(** * The further properties on the small scan *)

(** X1 on the small scan. *)
Lemma event_precheck_rejects_witness :
  (_event_precheck dummy_event (demo_state demo_modules [])).2
  = demo_state demo_modules []
  ∧ (_event_precheck dummy_event (demo_state demo_modules [])).1 = Returned false.
Proof.
  destruct (event_precheck_rejects dummy_event (demo_state demo_modules []))
    as [H1 H2].
  split; [exact H1|]. apply H2. left. reflexivity.
Defined.

(** X2 on the small scan. *)
Lemma dns_name_bypasses_precheck_witness :
  _event_precheck example_com (demo_state [] []) = (Returned true, demo_state [] [])
  ∧ emit_event demo_cfg example_com no_opts (demo_state [] [])
    = (Returned tt, with_pool_tasks [target_task] (demo_state [] [])).
Proof.
  destruct (dns_name_bypasses_precheck demo_cfg example_com no_opts (demo_state [] []))
    as [H1 H2]; [reflexivity | reflexivity | vm_compute; discriminate |].
  split; [exact H1|]. apply H2; reflexivity.
Defined.

(** X3 on the small scan. *)
Lemma unwanted_event_rejected_witness :
  _event_precheck (ip_address 5 "1.2.3.4" scan_module false) (demo_state [] [])
  = (Returned false, demo_state [] []).
Proof.
  apply (unwanted_event_rejected (ip_address 5 "1.2.3.4" scan_module false)
           (demo_state [] [])); [vm_compute; discriminate | constructor].
Defined.

(** X4 on the small scan. *)
Lemma emit_event_again_is_dropped_witness :
  emit_event demo_cfg (ip_address 5 "1.2.3.4" scan_module false) no_opts
    (accept_event (ip_address 5 "1.2.3.4" scan_module false)
       (demo_state demo_modules [])).2
  = (Returned tt,
     with_trace [ReleaseSemaphore 5; SetResolved 5]
       (accept_event (ip_address 5 "1.2.3.4" scan_module false)
          (demo_state demo_modules [])).2).
Proof.
  apply (emit_event_again_is_dropped demo_cfg
           (ip_address 5 "1.2.3.4" scan_module false) no_opts
           (demo_state demo_modules []));
    [vm_compute; discriminate | reflexivity | reflexivity].
Defined.

(** X5 on the small scan. *)
Lemma refused_submission_witness :
  emit_event demo_cfg example_com no_opts closed_pool_state
  = (Returned tt,
     with_trace [ReleaseSemaphore 1; SetResolved 1] closed_pool_state).
Proof.
  apply (refused_submission demo_cfg example_com no_opts closed_pool_state
           RuntimeError); reflexivity.
Defined.

(** X6 on the small scan. *)
Lemma quick_emit_with_failing_factory_witness :
  event_queue (emit_event strict_cfg example_com quick_opts
                 (demo_state demo_modules [])).2 = []
  ∧ trace (emit_event strict_cfg example_com quick_opts
             (demo_state demo_modules [])).2
    = [LogError; ReleaseSemaphore 1; SetResolved 1].
Proof.
  destruct (quick_emit_with_failing_factory strict_cfg example_com quick_opts
              (demo_state demo_modules []) ValidationError)
    as (H1 & _ & _ & H4); [reflexivity | reflexivity | reflexivity |].
  split; [exact H1 | exact H4].
Defined.

(** X7 on the small scan. *)
Lemma queue_events_in_order_witness :
  ∃ s', for_each [example_com; other_org] (queue_event demo_cfg)
          (demo_state demo_modules []) = (Returned tt, s')
    ∧ event_queue s' = [example_com; other_org]
    ∧ queued_count "DNS_NAME" s' = 2.
Proof.
  destruct (queue_events_in_order demo_cfg [example_com; other_org]
              [example_com; other_org] (demo_state demo_modules []))
    as (s' & E & Q & C & _); [repeat constructor|].
  exists s'. split; [exact E|]. split; [exact Q|]. rewrite C. reflexivity.
Defined.


(** X9 on the small scan. *)
Lemma catch_after_interrupt_witness :
  ∃ s',
    catch false None (method "handle_event" (raise KeyboardInterrupt : M unit))
      (demo_state demo_modules [])
    = (Returned None, s')
    ∧ status s' = "ABORTING" ∧ stopping s' = true
    ∧ trace s' = [ScanStop; StatsFunctionCalled]
    ∧ catch false None (method "report" (mret tt)) s'
      = (Returned None, with_trace (trace s' ++ [StatsFunctionCalled]) s').
Proof.
  apply (catch_after_interrupt false
           (method "handle_event" (raise KeyboardInterrupt : M unit))
           (method "report" (mret tt : M unit)) (demo_state demo_modules [])
           (demo_state demo_modules [])); [by eexists | reflexivity..].
Defined.


(** X13 on the small scan. *)
Lemma dispatch_marks_and_absorbs_witness :
  ∃ s',
    distribute_event demo_cfg example_com (demo_state demo_modules [])
    = (Returned tt, s')
    ∧ events_distributed s' = {[event_id example_com]} ∪ ∅
    ∧ event_queue s' = []
    ∧ count (is_absorb 1) (trace s') = 1%nat.
Proof.
  apply (dispatch_marks_and_absorbs demo_cfg example_com (demo_state demo_modules [])).
  repeat constructor.
Defined.

(** X14 on the small scan. *)
Lemma redispatch_reaches_only_dupe_takers_witness :
  ∃ s1 s2 t,
    distribute_event demo_cfg example_com (demo_state demo_modules [])
    = (Returned tt, s1)
    ∧ distribute_event demo_cfg example_com s1 = (Returned tt, s2)
    ∧ events_distributed s2 = events_distributed s1
    ∧ trace s2 = trace s1 ++ t
    ∧ count (is_absorb 1) t = 0%nat
    ∧ modules s2 = map (spec_deliver demo_cfg example_com true) (modules s1)
    ∧ Forall2 (λ m1 m2, accept_dupes (info m1) = false → m2 = m1)
        (modules s1) (modules s2).
Proof.
  apply (redispatch_reaches_only_dupe_takers demo_cfg example_com example_com
           (demo_state demo_modules [])); [repeat constructor | reflexivity].
Defined.

(** X15 on the small scan. *)
Lemma undelivered_event_is_still_marked_witness :
  ∃ s',
    distribute_event demo_cfg other_org (demo_state [faulty_worker scan_module] [])
    = (Returned tt, s')
    ∧ modules s' = [faulty_worker scan_module]
    ∧ trace s' = []
    ∧ events_distributed s' = {[event_id other_org]} ∪ ∅.
Proof.
  apply (undelivered_event_is_still_marked demo_cfg other_org
           (demo_state [faulty_worker scan_module] [])); reflexivity.
Defined.

(** X16 on the small scan. *)
Lemma failed_dispatch_is_partial_witness :
  ∃ s',
    distribute_event demo_cfg example_com
      (demo_state [worker scan_module; faulty_worker output_module] [])
    = (Raised OtherException, s')
    ∧ modules s'
      = [push_incoming (EventItem example_com) (worker scan_module);
         faulty_worker output_module]
    ∧ event_id example_com ∈ events_distributed s'
    ∧ count is_delivery (trace s') = 1%nat.
Proof.
  apply (failed_dispatch_is_partial demo_cfg example_com
           (demo_state [worker scan_module; faulty_worker output_module] [])
           [worker scan_module] [] (faulty_worker output_module) OtherException);
    [reflexivity | repeat constructor | reflexivity | reflexivity].
Defined.

(** X17 on the small scan. *)
Lemma modules_status_explicit_passes_witness :
  ∃ (st : Status) (s' : State) (k : nat),
    modules_status false (Some 0) (λ _, quiet_reading) (demo_state demo_modules [])
    = (Returned st, s')
    ∧ (k < 1)%nat
    ∧ count is_sleep (trace s') = (0 + k)%nat
    ∧ status_scan st = (queued_events quiet_reading, queued_tasks quiet_reading)
    ∧ (∀ i, (i < k)%nat → quiet quiet_reading)
    ∧ (finished st = true ↔ ∀ i, (i < 1)%nat → quiet quiet_reading)
    ∧ (finished st = true → S k = 1%nat)
    ∧ (finished st = false → ¬ quiet quiet_reading).
Proof.
  apply (modules_status_explicit_passes false 0 (λ _, quiet_reading)
           (demo_state demo_modules [])).
  intros. apply quiet_reading_sizes.
Defined.

(** X18 on the statuses of seven modules. *)
Lemma busiest_modules_ranked_witness :
  map (λ r, r.1.1.1.1) (busiest_modules demo_items)
  = ["dnsresolve"; "httpx"; "crt"; "wayback"; "sslcert"]
  ∧ length (busiest_modules demo_items) = 5%nat
  ∧ Forall (λ x, row_total ("naabu", 1, 0, 0, 1) ≤ row_total x)
      (busiest_modules demo_items).
Proof.
  split; [reflexivity|].
  destruct (busiest_modules_ranked demo_items) as (_ & _ & _ & H).
  apply H; [| right; reflexivity |].
  - do 5 apply list_elem_of_further. apply list_elem_of_here.
  - intros Hin. vm_compute in Hin.
    repeat (apply elem_of_cons in Hin as [Hin|Hin]; [discriminate Hin|]).
    by apply elem_of_nil in Hin.
Defined.

(** X19 on the small scan. *)
Lemma aborted_loop_discards_queue_witness :
  ∃ s' hooks,
    loop_until_finished demo_cfg [stop_tick] (demo_state demo_modules [example_com])
    = (Returned tt, s')
    ∧ event_queue s' = []
    ∧ modules s' = demo_modules
    ∧ events_distributed s' = ∅
    ∧ trace s' = [] ++ OnStart :: hooks
    ∧ reports hooks = map info demo_modules.
Proof.
  apply (aborted_loop_discards_queue demo_cfg stop_tick []
           (demo_state demo_modules [example_com])).
  right. reflexivity.
Defined.

(** X20 on the small scan. *)
Lemma interrupted_loop_stops_scan_witness :
  ∃ s' hooks,
    loop_until_finished demo_cfg [idle_tick]
      (demo_state [interrupted_worker scan_module] [example_com])
    = (Returned tt, s')
    ∧ trace s' = [OnStart; Absorb 1] ++ ScanStop :: hooks
    ∧ reports hooks = [scan_module]
    ∧ status s' = "ABORTING" ∧ stopping s' = true
    ∧ event_queue s' = [].
Proof.
  destruct (interrupted_loop_stops_scan demo_cfg [idle_tick]
              (demo_state [interrupted_worker scan_module] [example_com])
              ((call OnStart;; driver_loop demo_cfg [idle_tick] 0 0)
                 (demo_state [interrupted_worker scan_module] [example_com])).2)
    as (s' & hooks & E & T & R & S1 & S2 & Q); [vm_compute; reflexivity|].
  exists s', hooks.
  split; [exact E|]. split; [exact T|]. split; [exact R|].
  split; [exact S1|]. split; [exact S2 | exact Q].
Defined.

(** X21 on the small scan. *)
Lemma init_events_seeds_witness :
  ∃ s1,
    init_events demo_cfg scan_root [example_com; example_com; dummy_event]
      (λ _, mret tt) (demo_state demo_modules [])
    = for_each demo_modules (λ _, mret tt) s1
    ∧ event_queue s1 = [scan_root]
    ∧ pool_tasks s1 = [target_task; target_task]
    ∧ trace s1 = [ReleaseSemaphore 4; SetResolved 4].
Proof.
  destruct (init_events_seeds demo_cfg scan_root
              [example_com; example_com; dummy_event] (λ _, mret tt)
              (demo_state demo_modules []) eq_refl)
    as (s1 & E & Q & P & T & _).
  exists s1. split; [exact E|]. split; [exact Q|]. split; [exact P | exact T].
Defined.

(** X22 on the small scan. *)
Lemma skipped_resolution_sets_signal_witness :
  (_emit_event offline_cfg [] example_com no_opts (demo_state demo_modules [])).1
  ≠ Blocked
  ∧ (∃ t, trace (_emit_event offline_cfg [] example_com no_opts
                   (demo_state demo_modules [])).2
          = [] ++ SetResolved 1 :: t
          ∧ count (is_set_resolved 1) t = 0%nat
          ∧ count (is_release 1) t = 1%nat).
Proof.
  apply (skipped_resolution_sets_signal offline_cfg [] example_com no_opts
           (demo_state demo_modules [])); [reflexivity | vm_compute; lia].
Defined.

(** X23 on three preloaded modules: asked for by flag, the deadly module
    stays out; listed without flags or modules, it is in. *)
Lemma modules_from_options_spec_witness :
  ("sslcert" ∈ (modules_from_options demo_preloaded ["nuclei"; "sslcert"; "httpx"]
                  false false [] ["active"]).2
   ∧ ("nuclei" ∈ (modules_from_options demo_preloaded ["nuclei"; "sslcert"; "httpx"]
                    false false [] ["active"]).2
      → "nuclei" ∈ []))
  ∧ "nuclei" ∈ (modules_from_options demo_preloaded ["nuclei"; "sslcert"; "httpx"]
                  true false [] []).2.
Proof.
  destruct (modules_from_options_spec demo_preloaded ["nuclei"; "sslcert"; "httpx"]
              false false [] ["active"] "sslcert") as (_ & _ & H1).
  destruct (modules_from_options_spec demo_preloaded ["nuclei"; "sslcert"; "httpx"]
              false false [] ["active"] "nuclei") as (_ & _ & H2).
  destruct (modules_from_options_spec demo_preloaded ["nuclei"; "sslcert"; "httpx"]
              true false [] [] "nuclei") as (_ & H3 & _).
  split; [split|].
  - apply H1; [reflexivity|]. right. exists (Some ["active"; "safe"]). split.
    + apply list_elem_of_further, list_elem_of_here.
    + split.
      * intros Hin. simpl in Hin.
        repeat (apply elem_of_cons in Hin as [Hin|Hin]; [discriminate Hin|]).
        by apply elem_of_nil in Hin.
      * exists "active". split; apply list_elem_of_here.
  - apply H2; [reflexivity|]. intros c Hc.
    apply elem_of_cons in Hc as [Hc|Hc].
    + injection Hc as ->. simpl. do 2 apply list_elem_of_further.
      apply list_elem_of_here.
    + apply elem_of_cons in Hc as [Hc|Hc]; [discriminate Hc|].
      apply elem_of_cons in Hc as [Hc|Hc]; [discriminate Hc|].
      by apply elem_of_nil in Hc.
  - apply H3; [reflexivity|]. apply list_elem_of_here.
Defined.

(** X24 on three preloaded modules. *)
Lemma filter_scan_modules_keeps_witness :
  ∃ modules,
    filter_scan_modules demo_loader ["sslcert"; "httpx"] ["active"] ["aggressive"] []
    = inr modules
    ∧ ∀ m, m ∈ modules
           ↔ m ∈ ["sslcert"; "httpx"]
             ∧ (∀ f, f ∈ ["active"] → f ∈ preloaded_flags demo_loader m)
             ∧ (∀ f, f ∈ ["aggressive"] → f ∉ preloaded_flags demo_loader m)
             ∧ m ∉ [].
Proof.
  apply (filter_scan_modules_keeps demo_loader ["sslcert"; "httpx"] ["active"]
           ["aggressive"] []).
  - apply (bool_decide_unpack _). vm_compute. exact I.
  - intros m Hm _.
    apply elem_of_cons in Hm as [->|Hm]; [vm_compute; reflexivity|].
    apply elem_of_cons in Hm as [->|Hm]; [vm_compute; reflexivity|].
    by apply elem_of_nil in Hm.
Defined.

(** X25 on three preloaded modules. *)
Lemma filter_scan_modules_key_error_witness :
  ∃ key,
    filter_scan_modules demo_loader ["nuclei"; "sslcert"] ["safe"] ["aggressive"] []
    = inl key.
Proof.
  destruct (filter_scan_modules_key_error demo_loader ["nuclei"; "sslcert"] ["safe"]
              ["aggressive"] []) as [_ H].
  - apply (bool_decide_unpack _). vm_compute. exact I.
  - apply H. exists "nuclei". split; [apply list_elem_of_here|].
    split; vm_compute; reflexivity.
Defined.


(** X27 on the small scan. *)
Lemma run_reports_what_it_queues_witness :
  ∃ queued,
    event_queue (_emit_event demo_cfg [] example_com no_opts
                   (demo_state demo_modules [])).2 = [] ++ queued
    ∧ (length queued ≤ 1)%nat
    ∧ count (is_stats_emitted 1)
        (trace (_emit_event demo_cfg [] example_com no_opts
                  (demo_state demo_modules [])).2)
      = (0 + length queued)%nat.
Proof.
  apply (run_reports_what_it_queues demo_cfg [] example_com no_opts
           (demo_state demo_modules [])); [constructor | vm_compute; discriminate].
Defined.
